(** * @akwaba/events: event registry and key dispatcher

    A shallow embedding of [src/event.js] (normalize, createHandler, element,
    pointerX, pointerY, pointer, add, remove, fire) and of the [KeyMap] class
    (constructor, bind, unbind, dispatch), followed by the properties of the
    two components. *)

From Stdlib Require Import ZArith Ascii String List Bool Lia.
From stdpp Require Import base option list gmap strings.

Local Open Scope Z_scope.
Local Open Scope string_scope.

(** ** JavaScript values *)

(** A call either returns or throws. *)
Inductive throws (A : Type) : Type :=
| Ret (a : A)
| Throw (err : string).
Arguments Ret {A} a.
Arguments Throw {A} err.

(** The built-in string operations the code calls.  They belong to the host's
    JavaScript engine; the code relies on nothing but [String.fromCharCode],
    [String.prototype.toLowerCase] and on lower-casing being stable. *)
Class JsString := {
  fromCharCode : Z -> string;
  toLowerCase : string -> string;
  toLowerCase_idemp : forall s, toLowerCase (toLowerCase s) = toLowerCase s
}.

(** A numeric property of a host object: absent, null, an integer or NaN.
    Coordinates and offsets are whole pixels. *)
Inductive jsnum : Type :=
| Undefined
| Null
| Num (z : Z)
| NaN.

(** ToBoolean. *)
Definition truthy (v : jsnum) : bool :=
  match v with
  | Num z => negb (Z.eqb z 0)
  | _ => false
  end.

(** [a || b]. *)
Definition jsor (a b : jsnum) : jsnum := if truthy a then a else b.

(** ToNumber: [null] counts as 0, [undefined] as NaN. *)
Definition toNumber (v : jsnum) : option Z :=
  match v with
  | Num z => Some z
  | Null => Some 0
  | _ => None
  end.

Definition jsadd (a b : jsnum) : jsnum :=
  match toNumber a, toNumber b with
  | Some x, Some y => Num (x + y)
  | _, _ => NaN
  end.

Definition jssub (a b : jsnum) : jsnum :=
  match toNumber a, toNumber b with
  | Some x, Some y => Num (x - y)
  | _, _ => NaN
  end.

(** A string used as a condition: [undefined] and the empty string are falsy. *)
Definition truthyName (s : option string) : bool :=
  match s with
  | Some s => negb (String.eqb s "")
  | None => false
  end.

(** ** The ASCII fragment of the string built-ins

    An implementation of the two operations on one-byte characters:
    [fromCharCode] gives the character of a code below 256, [toLowerCase]
    maps [A]-[Z] to [a]-[z] and leaves every other character alone. *)

Definition isUpper (c : ascii) : bool :=
  let n := nat_of_ascii c in Nat.leb 65 n && Nat.leb n 90.

Definition lowerChar (c : ascii) : ascii :=
  if isUpper c then ascii_of_nat (nat_of_ascii c + 32) else c.

Fixpoint lowerString (s : string) : string :=
  match s with
  | EmptyString => EmptyString
  | String c s' => String (lowerChar c) (lowerString s')
  end.

Fixpoint hasUpper (s : string) : bool :=
  match s with
  | EmptyString => false
  | String c s' => isUpper c || hasUpper s'
  end.

Definition charOfCode (code : Z) : string :=
  String (ascii_of_nat (Z.to_nat (code mod 256))) EmptyString.

(** A DOM node, or any other host object events are observed on, named by
    its identity. *)
Definition Element := nat.

(** ** [KeyMap]: the key dispatcher *)

Module KeyMap.

(** What a binding name is bound to: a handler function, or a value that is
    not one ([undefined], [null]). *)
Inductive binding : Type :=
| Fn (f : nat)
| Falsy.

Definition isFn (b : option binding) : bool :=
  match b with
  | Some (Fn _) => true
  | _ => false
  end.

(** [this.map]: own properties only; binding names are key names, none of
    them a member of [Object.prototype]. *)
Record t : Type := Build { map : gmap string binding }.

(** The keyboard event fields [dispatch] reads.  [charCode] is absent on
    hosts that report the character in [keyCode]; [stopPropagation] and
    [preventDefault] say whether the event has the method. *)
Record KeyEvent : Type := {
  type : string;
  keyCode : Z;
  charCode : option Z;
  altKey : bool;
  ctrlKey : bool;
  shiftKey : bool;
  target : option Element;
  srcElement : option Element;
  stopPropagation : bool;
  preventDefault : bool
}.

(** How an event was suppressed: through its method, or through the legacy
    flag ([cancelBubble = true], [returnValue = false]). *)
Inductive suppress : Type :=
| ByMethod
| ByFlag.

(** One call [func(target, key, e)] followed by the suppression of [e]. *)
Record Invocation : Type := {
  inv_func : nat;
  inv_target : option Element;
  inv_key : string;
  inv_event : KeyEvent;
  inv_propagation : suppress;
  inv_default : suppress
}.

Section WithHost.
Context `{JsString}.
(** The key-code table of [printable-chars]. *)
Variable PrintableChars : Z -> option string.

(** [new KeyMap(bindings)]; [bindings] lists the argument's properties in
    [Object.keys] order, [None] is a missing argument. *)
Definition new (bindings : option (list (string * binding))) : t :=
  match bindings with
  | Some bs =>
      Build (fold_left (fun m nb => <[toLowerCase (fst nb) := snd nb]> m) bs ∅)
  | None => Build ∅
  end.

Definition bind (km : t) (key : string) (fn : binding) : t :=
  Build (<[toLowerCase key := fn]> (map km)).

Definition unbind (km : t) (key : string) : t :=
  let key := toLowerCase key in
  if isFn (map km !! key) then Build (delete key (map km)) else km.

(** The text [`${modifiers}${keyname}`]; a [null] key name prints as "null". *)
Definition compositeKey (modifiers : string) (keyname : option string) : string :=
  modifiers ++ match keyname with Some k => k | None => "null" end.

(** [e.charCode || e.keyCode]. *)
Definition pressedCode (e : KeyEvent) : Z :=
  match charCode e with
  | Some c => if Z.eqb c 0 then keyCode e else c
  | None => keyCode e
  end.

(** Lines 43-97 of [dispatch]: the modifier prefix and the key name the event
    is looked up under, or [None] where [dispatch] returns early. *)
Definition keyOf (e : KeyEvent) : option (string * option string) :=
  if String.eqb (type e) "keydown" then
    let code := keyCode e in
    if Z.eqb code 16 || Z.eqb code 17 || Z.eqb code 18 then None
    else
      let keyname := PrintableChars code in
      let keyname :=
        if negb (truthyName keyname) && (altKey e || ctrlKey e)
        then PrintableChars code else keyname in
      if truthyName keyname then
        let modifiers := "" in
        let modifiers := if altKey e then modifiers ++ "alt_" else modifiers in
        let modifiers := if ctrlKey e then modifiers ++ "ctrl_" else modifiers in
        let modifiers := if shiftKey e then modifiers ++ "shift_" else modifiers in
        Some (modifiers, keyname)
      else None
  else if String.eqb (type e) "keypress" then
    if altKey e || ctrlKey e then None
    else
      match charCode e with
      | Some 0 => None
      | _ =>
          let code := pressedCode e in
          let keyname := fromCharCode code in
          let lowercase := toLowerCase keyname in
          if String.eqb keyname lowercase then Some ("", Some keyname)
          else Some ("shift_", Some lowercase)
      end
  else Some ("", None).

(** [dispatch(event)], with [window.event] as the host holds it.  The result
    is [None] when the method returns [undefined], and the call it made when
    it returns [false]. *)
Definition dispatch (km : t) (windowEvent event : option KeyEvent)
  : throws (option Invocation) :=
  match (match event with Some e => Some e | None => windowEvent end) with
  | None => Throw "TypeError"
  | Some e =>
      match keyOf e with
      | None => Ret None
      | Some (modifiers, keyname) =>
          match map km !! compositeKey modifiers keyname with
          | Some (Fn func) =>
              Ret (Some {|
                inv_func := func;
                inv_target := match target e with
                              | Some n => Some n
                              | None => srcElement e
                              end;
                inv_key := compositeKey modifiers keyname;
                inv_event := e;
                inv_propagation := if stopPropagation e then ByMethod else ByFlag;
                inv_default := if preventDefault e then ByMethod else ByFlag |})
          | _ => Ret None
          end
      end
  end.

End WithHost.

(** The operations that change a key map after its construction. *)
Inductive op : Type :=
| Bind (key : string) (fn : binding)
| Unbind (key : string).

Definition step `{JsString} (km : t) (o : op) : t :=
  match o with
  | Bind key fn => bind km key fn
  | Unbind key => unbind km key
  end.

Definition run `{JsString} (km : t) (ops : list op) : t := fold_left step ops km.

End KeyMap.

(** The key-name table that comes with the sources: key codes to the names
    of the non-printing keys. *)
Definition FunctionKeys (code : Z) : option string :=
  match code with
  | 8 => Some "backspace" | 9 => Some "tab" | 13 => Some "return"
  | 19 => Some "pause" | 27 => Some "escape" | 32 => Some "space"
  | 33 => Some "pageup" | 34 => Some "pagedown" | 36 => Some "home"
  | 37 => Some "left" | 38 => Some "up" | 39 => Some "right"
  | 40 => Some "down" | 44 => Some "printscreen" | 45 => Some "insert"
  | 46 => Some "delete"
  | 112 => Some "f1" | 113 => Some "f2" | 114 => Some "f3" | 115 => Some "f4"
  | 116 => Some "f5" | 117 => Some "f6" | 118 => Some "f7" | 119 => Some "f8"
  | 120 => Some "f9" | 121 => Some "f10" | 122 => Some "f11" | 123 => Some "f12"
  | 144 => Some "numlock" | 145 => Some "scrolllock"
  | _ => None
  end.

(** ** [event.js]: the event registry *)

(** A host object as the code sees it: the node properties it reads and the
    event interface it tests for.  [addEventListener] stands for the W3C pair
    [addEventListener]/[removeEventListener]; an object without it is driven
    through [attachEvent]/[detachEvent]. *)
Module Node.
Record t : Type := {
  nodeType : Z;
  tagName : option string;
  type : option string;
  parentNode : option Element;
  scrollLeft : jsnum;
  scrollTop : jsnum;
  clientLeft : jsnum;
  clientTop : jsnum;
  addEventListener : bool
}.
End Node.

Module Event.

(** [HTML.nodeType.TEXT_NODE], the DOM constant. *)
Definition TEXT_NODE : Z := 3.

(** The payload of a custom event, a bag of properties. *)
Definition Payload := list (string * string).

(** An event object: the properties the code reads or writes.  [eventType],
    [eventName] and [model] are the ones [fire] adds; [_event] links the view
    built for a legacy host to the event it wraps. *)
#[warnings="-register-all"]
Inductive Event : Type := mkEvent {
  type : string;
  eventType : option string;
  target : option Element;
  srcElement : option Element;
  currentTarget : option Element;
  relatedTarget : option Element;
  fromElement : option Element;
  toElement : option Element;
  eventPhase : option Z;
  clientX : jsnum;
  clientY : jsnum;
  screenX : jsnum;
  screenY : jsnum;
  pageX : jsnum;
  pageY : jsnum;
  altKey : bool;
  ctrlKey : bool;
  shiftKey : bool;
  keyCode : jsnum;
  charCode : jsnum;
  model : option Payload;
  eventName : option string;
  _event : option Event
}.

(** A fresh event object of the given type. *)
Definition blank (ty : string) : Event :=
  mkEvent ty None None None None None None None None
          Undefined Undefined Undefined Undefined Undefined Undefined
          false false false Undefined Undefined None None None.

Definition setEventType (e : Event) (v : string) : Event :=
  let '(mkEvent a _ c d e f g h i j k l m n o p q r s t u w x) := e in
  mkEvent a (Some v) c d e f g h i j k l m n o p q r s t u w x.

Definition setEventName (e : Event) (v : string) : Event :=
  let '(mkEvent a b c d e f g h i j k l m n o p q r s t u _ x) := e in
  mkEvent a b c d e f g h i j k l m n o p q r s t u (Some v) x.

Definition setModel (e : Event) (v : Payload) : Event :=
  let '(mkEvent a b c d e f g h i j k l m n o p q r s t _ w x) := e in
  mkEvent a b c d e f g h i j k l m n o p q r s t (Some v) w x.

Definition setTarget (e : Event) (v : option Element) : Event :=
  let '(mkEvent a b _ d e f g h i j k l m n o p q r s t u w x) := e in
  mkEvent a b v d e f g h i j k l m n o p q r s t u w x.

Definition setSrcElement (e : Event) (v : option Element) : Event :=
  let '(mkEvent a b c _ e f g h i j k l m n o p q r s t u w x) := e in
  mkEvent a b c v e f g h i j k l m n o p q r s t u w x.

Definition setCurrentTarget (e : Event) (v : option Element) : Event :=
  let '(mkEvent a b c d _ f g h i j k l m n o p q r s t u w x) := e in
  mkEvent a b c d v f g h i j k l m n o p q r s t u w x.

(** A callback, named by its identity. *)
Definition Callback := nat.

(** What the module runs in.  The host: the heap of its objects,
    [window.attachEvent], the [document] with its root element, its body
    (absent until the page has one) and its event constructors.  A node
    implements the dispatch primitive that goes with the host's constructor
    ([dispatchEvent] with [createEvent], [fireEvent] with
    [createEventObject]); only the document may come without
    [dispatchEvent], which is what [fire] tests for.  The imports that are
    not among the sources: the element lookup [HTML.getElement] and the
    classifier of [is-custom-event.js].

    [objectPrototype] says which names are members of [Object.prototype]
    ([constructor], [toString], ...): a plain object answers to them without
    having the property, with a function or an object that is no array.
    [bubblePath] lists the nodes the host takes a bubbling event through
    after the node it is dispatched at, nearest first; [fireEventBubbles]
    says for which event types [fireEvent] bubbles.  [stopsPropagation] is
    the page's part: whether a callback, called on an event, stops its
    propagation ([event.stopPropagation()], or [stop(event)]); a callback
    is taken to return, and to leave the other listeners of its node to
    run. *)
Record Host : Type := {
  dom : Element -> Node.t;
  window_attachEvent : bool;
  document : Element;
  document_dispatchEvent : bool;
  documentElement : Element;
  body : option Element;
  createEvent : bool;
  createEventObject : bool;
  getElement : string -> option Element;
  isCustomEvent : string -> bool;
  objectPrototype : string -> bool;
  bubblePath : Element -> list Element;
  fireEventBubbles : string -> bool;
  stopsPropagation : Callback -> Event -> bool
}.

(** A property read that finds no such property: the code reads
    [body.cientLeft] and [body.cientTop]. *)
Definition cientLeft (n : Node.t) : jsnum := Undefined.
Definition cientTop (n : Node.t) : jsnum := Undefined.

(** [a && a.p] for an object reference [a]. *)
Definition andProp (h : Host) (a : option Element) (p : Node.t -> jsnum) : jsnum :=
  match a with
  | Some n => p (dom h n)
  | None => Null
  end.

Definition normalize (h : Host) (event : Event) (element : Element) : Event :=
  if negb (window_attachEvent h) then event
  else
    let doc := Some (documentElement h) in
    let body := body h in
    let page (client : jsnum) (scroll offset misspelt : Node.t -> jsnum) : jsnum :=
      match clientX event with
      | Null => Undefined
      | _ =>
          jssub (jsadd client
                   (jsor (jsor (andProp h doc scroll) (andProp h body scroll)) (Num 0)))
                (jsor (jsor (andProp h doc offset) (andProp h body misspelt)) (Num 0))
      end in
    {| type := type event;
       eventType := None;
       target := srcElement event;
       srcElement := None;
       currentTarget := Some element;
       relatedTarget := match fromElement event with
                        | Some n => Some n
                        | None => toElement event
                        end;
       fromElement := None;
       toElement := None;
       eventPhase := Some (if bool_decide (srcElement event = Some element) then 2 else 3);
       clientX := clientX event;
       clientY := clientY event;
       screenX := screenX event;
       screenY := screenY event;
       pageX := page (clientX event) Node.scrollLeft Node.clientLeft cientLeft;
       pageY := page (clientY event) Node.scrollTop Node.clientTop cientTop;
       altKey := altKey event;
       ctrlKey := ctrlKey event;
       shiftKey := shiftKey event;
       keyCode := Undefined;
       charCode := keyCode event;
       model := Some (match model event with Some m => m | None => [] end);
       eventName := None;
       _event := Some event |}.

(** The function [createHandler] builds: its identity and the variables its
    body closes over. *)
Record Wrapper : Type := {
  w_id : nat;
  w_element : Element;
  w_eventName : string;
  w_callback : Callback
}.

(** The handler object: the wrapper function and its [callback] property,
    which [remove] deletes. *)
Record Handler : Type := {
  wrapper : Wrapper;
  callback : option Callback
}.

(** The object stored under "events", a plain object: its own properties,
    event names to handler arrays, in the order the names were added. *)
Abbreviation Model := (list (string * list Handler)).

(** What [model[name]] evaluates to when it is not [undefined]: a handler
    array, or a member inherited from [Object.prototype]. *)
Inductive Member : Type :=
| Handlers (handlers : list Handler)
| Inherited.

(** The own property [name] of the object. *)
Fixpoint getProp (m : Model) (name : string) : option (list Handler) :=
  match m with
  | [] => None
  | (k, v) :: rest => if String.eqb k name then Some v else getProp rest name
  end.

(** [model[name]]: the own property, or else the inherited member. *)
Definition readProp (h : Host) (m : Model) (name : string) : option Member :=
  match getProp m name with
  | Some handlers => Some (Handlers handlers)
  | None => if objectPrototype h name then Some Inherited else None
  end.

Fixpoint setProp (m : Model) (name : string) (v : list Handler) : Model :=
  match m with
  | [] => [(name, v)]
  | (k, w) :: rest =>
      if String.eqb k name then (k, v) :: rest else (k, w) :: setProp rest name v
  end.

Fixpoint deleteProp (m : Model) (name : string) : Model :=
  match m with
  | [] => []
  | (k, w) :: rest =>
      if String.eqb k name then rest else (k, w) :: deleteProp rest name
  end.

(** A function registered with the host on a node, under an event type. *)
Record Listener : Type := {
  l_node : Element;
  l_type : string;
  l_wrapper : Wrapper
}.

(** The state the module keeps: the per-element storage slot "events" of
    [DOM.storage], [eventCache], the listeners registered with the host, and
    the identity of the next function created. *)
Record Registry : Type := {
  storage : gmap Element Model;
  eventCache : list Element;
  listeners : list Listener;
  nextId : nat
}.

Definition empty : Registry :=
  {| storage := ∅; eventCache := []; listeners := []; nextId := 0%nat |}.

Definition withStorage (st : Registry) (s : gmap Element Model) : Registry :=
  {| storage := s; eventCache := eventCache st;
     listeners := listeners st; nextId := nextId st |}.

Definition withListeners (st : Registry) (ls : list Listener) : Registry :=
  {| storage := storage st; eventCache := eventCache st;
     listeners := ls; nextId := nextId st |}.

Definition sameListener (a b : Listener) : bool :=
  Nat.eqb (l_node a) (l_node b) && String.eqb (l_type a) (l_type b)
  && Nat.eqb (w_id (l_wrapper a)) (w_id (l_wrapper b)).

(** Host: [node.addEventListener(type, fn, false)] registers [fn] unless it
    is registered already. *)
Definition addListener (st : Registry) (node : Element) (ty : string) (w : Wrapper) : Registry :=
  let l := {| l_node := node; l_type := ty; l_wrapper := w |} in
  if existsb (sameListener l) (listeners st) then st
  else withListeners st (listeners st ++ [l]).

(** Host: [node.attachEvent(type, fn)]. *)
Definition attachEvent (st : Registry) (node : Element) (ty : string) (w : Wrapper) : Registry :=
  withListeners st (listeners st ++ [{| l_node := node; l_type := ty; l_wrapper := w |}]).

Fixpoint dropListener (l : Listener) (ls : list Listener) : list Listener :=
  match ls with
  | [] => []
  | x :: rest => if sameListener l x then rest else x :: dropListener l rest
  end.

(** Host: [node.removeEventListener(type, fn, false)] and
    [node.detachEvent(type, fn)]. *)
Definition removeListener (st : Registry) (node : Element) (ty : string) (w : Wrapper) : Registry :=
  withListeners st
    (dropListener {| l_node := node; l_type := ty; l_wrapper := w |} (listeners st)).

(** [callback.call(element, event)], and the function that made the call. *)
Record Call : Type := {
  caller : Wrapper;
  callee : Callback;
  this : Element;
  argument : Event
}.

(** The body of the function built by [createHandler], applied to an event:
    the call it makes, or [None] where it returns [false] without calling. *)
Definition applyWrapper (h : Host) (w : Wrapper) (event : Event) : option Call :=
  let invoke :=
    let event := normalize h event (w_element w) in
    Some {| caller := w; callee := w_callback w; this := w_element w;
            argument := event |} in
  if isCustomEvent h (w_eventName w) then
    match eventName event with
    | None => None
    | Some name =>
        if negb (String.eqb name (w_eventName w)) then None
        else invoke
    end
  else invoke.

(** [Array.contains(handlersForEvent, callback)]. *)
Definition contains (l : list (option Callback)) (c : Callback) : bool :=
  existsb (fun x => bool_decide (x = Some c)) l.

(** [createHandler]: the new state and the handler, [None] for [false].
    When [model[eventName]] is an inherited member, [handlers.map] is not a
    function and the call throws, after the storage slot has been made. *)
Definition createHandler (h : Host) (st : Registry) (element : Element)
    (eventName : string) (callback : Callback) : Registry * throws (option Handler) :=
  let '(model, st) :=
    match storage st !! element with
    | Some model => (model, st)
    | None =>
        ([], {| storage := <[element := []]> (storage st);
                eventCache := eventCache st ++ [element];
                listeners := listeners st; nextId := nextId st |})
    end in
  let '(handlers, model) :=
    match readProp h model eventName with
    | Some handlers => (handlers, model)
    | None => (Handlers [], setProp model eventName [])
    end in
  match handlers with
  | Inherited => (st, Throw "TypeError")
  | Handlers handlers =>
      let st := withStorage st (<[element := model]> (storage st)) in
      let handlersForEvent := Event.callback <$> handlers in
      if contains handlersForEvent callback then (st, Ret None)
      else
        let handler :=
          {| wrapper := {| w_id := nextId st; w_element := element;
                           w_eventName := eventName; w_callback := callback |};
             callback := Some callback |} in
        let model := setProp model eventName (handlers ++ [handler]) in
        ({| storage := <[element := model]> (storage st);
            eventCache := eventCache st;
            listeners := listeners st; nextId := S (nextId st) |},
         Ret (Some handler))
  end.

(** [element(event)]: the node, [None] for a [null] parent; reading
    [nodeType] of a missing target throws. *)
Definition element `{JsString} (h : Host) (event : Event) : throws (option Element) :=
  let node := target event in
  let type := type event in
  let currentTarget := currentTarget event in
  let node :=
    match currentTarget with
    | Some ct =>
        if truthyName (Node.tagName (dom h ct)) then
          if String.eqb type "load" || String.eqb type "error" ||
             (String.eqb type "click" &&
              bool_decide (toLowerCase <$> Node.tagName (dom h ct) = Some "input") &&
              bool_decide (Node.type (dom h ct) = Some "radio"))
          then currentTarget else node
        else node
    | None => node
    end in
  match node with
  | None => Throw "TypeError"
  | Some n =>
      if Z.eqb (Node.nodeType (dom h n)) TEXT_NODE
      then Ret (Node.parentNode (dom h n))
      else Ret (Some n)
  end.

(** [pointerX(event)]; [body] is [document.body || {scrollLeft: 0}]. *)
Definition pointerX (h : Host) (event : Event) : jsnum :=
  let docElem := dom h (documentElement h) in
  let bodyScrollLeft :=
    match body h with
    | Some b => Node.scrollLeft (dom h b)
    | None => Num 0
    end in
  jsor (pageX event)
       (jssub (jsadd (clientX event) (jsor (Node.scrollLeft docElem) bodyScrollLeft))
              (jsor (Node.clientLeft (dom h (document h))) (Num 0))).

Definition pointerY (h : Host) (event : Event) : jsnum :=
  let docElem := dom h (documentElement h) in
  let bodyScrollTop :=
    match body h with
    | Some b => Node.scrollTop (dom h b)
    | None => Num 0
    end in
  jsor (pageY event)
       (jssub (jsadd (clientY event) (jsor (Node.scrollTop docElem) bodyScrollTop))
              (jsor (Node.clientTop (dom h (document h))) (Num 0))).

Record Point : Type := { x : jsnum; y : jsnum }.

Definition pointer (h : Host) (event : Event) : Point :=
  {| x := pointerX h event; y := pointerY h event |}.

(** The first argument of [add]: a string to resolve, or a node reference
    (possibly [null]). *)
Inductive ElementArg : Type :=
| ById (id : string)
| ByRef (node : option Element).

Definition quote : string := String (ascii_of_nat 34) EmptyString.

(** [add(element, eventName, callback)]: the registry the call leaves and
    the element returned, or the error thrown.  The error for an element
    that does not resolve comes before any update; the one [createHandler]
    throws leaves the registry [createHandler] has made. *)
Definition add (h : Host) (st : Registry) (element : ElementArg) (eventName : string)
    (callback : Callback) : Registry * throws Element :=
  let element :=
    match element with
    | ById id => getElement h id
    | ByRef node => node
    end in
  match element with
  | None =>
      (st, Throw ("Invalid element provided for event " ++ quote ++ eventName ++ quote))
  | Some element =>
      let '(st, handler) := createHandler h st element eventName callback in
      match handler with
      | Throw err => (st, Throw err)
      | Ret None => (st, Ret element)
      | Ret (Some handler) =>
          let fn := wrapper handler in
          let st :=
            if isCustomEvent h eventName then
              if Node.addEventListener (dom h element)
              then addListener st element "dataavailable" fn
              else attachEvent (attachEvent st element "ondataavailable" fn)
                               element "onfilterchange" fn
            else
              if Node.addEventListener (dom h element)
              then addListener st element eventName fn
              else attachEvent st element ("on" ++ eventName) fn in
          (st, Ret element)
      end
  end.

(** The object stored under "events" for an element, empty when there is
    none, and the handler array it holds for an event name. *)
Definition modelOf (st : Registry) (element : Element) : Model :=
  default [] (storage st !! element).

Definition handlersOf (st : Registry) (element : Element) (name : string) : list Handler :=
  default [] (getProp (modelOf st element) name).

Definition clearCallback (hd : Handler) : Handler :=
  {| wrapper := wrapper hd; callback := None |}.

(** [remove(element, eventName, callback)]: the registry the call leaves,
    and whether it returned (its first argument) or threw.  [fuel] bounds the
    depth of the recursive calls and [None] is a call that ran out of it.

    When [model[eventName]] is an inherited member, [handlers.forEach] and
    [handlers.find] are not functions and the call throws; an error thrown
    inside a [forEach] ends the loop and the call.

    [handlers.forEach] visits the indices below the length the array had at
    the start and skips those the array no longer has.  [handlers.find]
    returns the first handler with the callback, and [indexOf] of that object
    is the index where it was found: an earlier slot holding the object would
    have matched first. *)
Fixpoint remove (fuel : nat) (h : Host) (st : Registry) (element : Element)
    (eventName : option string) (callback : option Callback)
  : option (Registry * throws unit) :=
  match fuel with
  | O => None
  | S fuel =>
      match storage st !! element with
      | None => Some (st, Ret tt)
      | Some model =>
          if negb (truthyName eventName) then
            fold_left
              (fun acc evtName =>
                 match acc with
                 | Some (st, Ret _) => remove fuel h st element (Some evtName) None
                 | _ => acc
                 end)
              (fst <$> model) (Some (st, Ret tt))
          else
            let name := default "" eventName in
            match readProp h model name with
            | None => Some (st, Ret tt)
            | Some Inherited => Some (st, Throw "TypeError")
            | Some (Handlers handlers) =>
                match callback with
                | None =>
                    fold_left
                      (fun acc i =>
                         match acc with
                         | Some (st, Ret _) =>
                             match handlersOf st element name !! i with
                             | Some handler =>
                                 remove fuel h st element eventName (Event.callback handler)
                             | None => Some (st, Ret tt)
                             end
                         | _ => acc
                         end)
                      (seq 0 (length handlers)) (Some (st, Ret tt))
                | Some cb =>
                    match list_find (fun hd => Event.callback hd = Some cb) handlers with
                    | None => Some (st, Ret tt)
                    | Some (index, handler) =>
                        let fn := wrapper handler in
                        let w3c := Node.addEventListener (dom h element) in
                        let st :=
                          if isCustomEvent h name then
                            if w3c then removeListener st element "dataavailable" fn
                            else removeListener
                                   (removeListener st element "ondataavailable" fn)
                                   element "onfilterchange" fn
                          else
                            if w3c then removeListener st element name fn
                            else removeListener st element ("on" ++ name) fn in
                        let handlers :=
                          if isCustomEvent h name
                          then <[index := clearCallback handler]> handlers
                          else delete index handlers in
                        let model :=
                          match handlers with
                          | [] => deleteProp model name
                          | _ => setProp model name handlers
                          end in
                        Some (withStorage st (<[element := model]> (storage st)), Ret tt)
                    end
                end
            end
      end
  end.

(** Host: the listeners of [node] for the event type [ty] run on [event], in
    the order they were registered.  The callbacks are opaque: each call is
    recorded, and what a callback does to the registry goes through [add]
    and [remove]. *)
Definition deliver (h : Host) (st : Registry) (node : Element) (ty : string)
    (event : Event) : list Call :=
  omap (fun l =>
          if Nat.eqb (l_node l) node && String.eqb (l_type l) ty
          then applyWrapper h (l_wrapper l) event else None)
       (listeners st).

(** Host: the event is taken through the nodes of [path] in turn, [view]
    being the event as the listeners of a node find it; every listener of a
    node runs, and the event goes no further once one of the callbacks
    called there has stopped its propagation. *)
Fixpoint propagate (h : Host) (st : Registry) (ty : string) (view : Element -> Event)
    (path : list Element) : list Call :=
  match path with
  | [] => []
  | node :: rest =>
      let calls := deliver h st node ty (view node) in
      if existsb (fun c => stopsPropagation h (callee c) (argument c)) calls
      then calls
      else (calls ++ propagate h st ty view rest)%list
  end.

(** The nodes an event dispatched at [element] is taken through: the
    element, and its bubble path when the event bubbles. *)
Definition route (h : Host) (element : Element) (bubbling : bool) : list Element :=
  element :: (if bubbling then bubblePath h element else []).

(** The node [fire] dispatches at: the root element in place of a document
    that cannot dispatch. *)
Definition dispatchNode (h : Host) (element : Element) : Element :=
  if Nat.eqb element (document h) && createEvent h
     && negb (document_dispatchEvent h)
  then documentElement h else element.

(** [fire(element, eventName, data, bubbles = true)]: the value returned
    ([None] for [undefined]) and the calls made while the host dispatched the
    event.  [data] is an object or missing.  Host: [dispatchEvent] sets the
    event's [target] and, at each node, its [currentTarget]; the event was
    initialised as one that bubbles.  [fireEvent] sets [srcElement]. *)
Definition fire (h : Host) (st : Registry) (element : Element) (eventName : string)
    (data : option Payload) (bubbles : option bool) : option Event * list Call :=
  let bubbles := default true bubbles in
  let element := dispatchNode h element in
  let made :=
    if createEvent h then Some (blank "dataavailable")
    else if createEventObject h then
      Some (setEventType (blank "")
              (if bubbles then "ondataavailable" else "onfilterchange"))
    else None in
  match made with
  | None => (None, [])
  | Some event =>
      let event := setEventName event eventName in
      let event := setModel event (default [] data) in
      if createEvent h then
        let event := setTarget event (Some element) in
        (Some event,
         propagate h st (type event) (fun node => setCurrentTarget event (Some node))
           (route h element true))
      else
        let event := setSrcElement event (Some element) in
        let ty := default "" (eventType event) in
        (Some event,
         propagate h st ty (fun _ => event) (route h element (fireEventBubbles h ty)))
  end.

End Event.

(** ** Vocabulary of the statements *)

(** The modifier prefix of an event: [alt_], [ctrl_], [shift_], in that
    order, one for each modifier held. *)
Definition modifierPrefix (e : KeyMap.KeyEvent) : string :=
  (if KeyMap.altKey e then "alt_" else "")
  ++ (if KeyMap.ctrlKey e then "ctrl_" else "")
  ++ (if KeyMap.shiftKey e then "shift_" else "").

(** The number a numeric source stands for when a missing one counts as 0:
    the value of [v || 0]. *)
Definition orZero (v : jsnum) : Z :=
  match v with
  | Num z => z
  | _ => 0
  end.

(** The scroll offset the fallback uses: the root element's, or the body's
    when the root's is zero or missing. *)
Definition scrollOr (root : jsnum) (bodyScroll : Z) : Z :=
  if truthy root then orZero root else bodyScroll.

(** The body's scroll offset is the number [z]; without a body it is 0. *)
Definition bodyScroll (h : Event.Host) (p : Node.t -> jsnum) (z : Z) : Prop :=
  match Event.body h with
  | Some b => p (Event.dom h b) = Num z
  | None => z = 0
  end.

(** The events for which [element] moves from the target to the node the
    listener is attached to. *)
Definition attachmentEvent `{JsString} (type : string) (node : Node.t) : Prop :=
  type = "load" \/ type = "error" \/
  (type = "click" /\ toLowerCase <$> Node.tagName node = Some "input"
   /\ Node.type node = Some "radio").

(** The host event types a handler for an event name is registered under on
    an element: what [add] passes to [addEventListener] or [attachEvent]. *)
Definition channels (h : Event.Host) (element : Element) (name : string) : list string :=
  if Event.isCustomEvent h name then
    if Node.addEventListener (Event.dom h element) then ["dataavailable"]
    else ["ondataavailable"; "onfilterchange"]
  else
    if Node.addEventListener (Event.dom h element) then [name]
    else ["on" ++ name].

(** A handler whose [callback] property has not been deleted. *)
Definition live (hd : Event.Handler) : Prop :=
  Event.callback hd = Some (Event.w_callback (Event.wrapper hd)).

(** The listener [add] registers for a handler under a host event type. *)
Definition listenerOf (element : Element) (ty : string) (hd : Event.Handler) : Event.Listener :=
  {| Event.l_node := element; Event.l_type := ty; Event.l_wrapper := Event.wrapper hd |}.

(** What holds of the registry between calls: event names are stored once,
    and none of them is a member of [Object.prototype];
    a stored handler closes over the element and name it is stored under,
    was created before the next identity, and has its callback or none; no
    two stored handlers share an identity, and no two in one array a
    callback; the listeners the host holds are, without repetition, those
    of the stored handlers that still have their callback. *)
Record wf (h : Event.Host) (st : Event.Registry) : Prop := {
  wf_keys : forall el, NoDup (fst <$> Event.modelOf st el);
  wf_own : forall el name,
    is_Some (Event.getProp (Event.modelOf st el) name) ->
    Event.objectPrototype h name = false;
  wf_closure : forall el name i hd,
    Event.handlersOf st el name !! i = Some hd ->
    Event.w_element (Event.wrapper hd) = el
    /\ Event.w_eventName (Event.wrapper hd) = name
    /\ (Event.w_id (Event.wrapper hd) < Event.nextId st)%nat
    /\ (Event.callback hd = None \/ live hd);
  wf_ids : forall el name i hd el' name' j hd',
    Event.handlersOf st el name !! i = Some hd ->
    Event.handlersOf st el' name' !! j = Some hd' ->
    Event.w_id (Event.wrapper hd) = Event.w_id (Event.wrapper hd') ->
    el = el' /\ name = name' /\ i = j;
  wf_callbacks : forall el name i j hd hd' cb,
    Event.handlersOf st el name !! i = Some hd ->
    Event.handlersOf st el name !! j = Some hd' ->
    Event.callback hd = Some cb -> Event.callback hd' = Some cb -> i = j;
  wf_listeners : forall l, l ∈ Event.listeners st ->
    exists i hd,
      Event.handlersOf st (Event.l_node l) (Event.w_eventName (Event.l_wrapper l)) !! i
      = Some hd
      /\ Event.wrapper hd = Event.l_wrapper l /\ live hd
      /\ Event.l_type l
         ∈ channels h (Event.l_node l) (Event.w_eventName (Event.l_wrapper l));
  wf_nodup : NoDup (Event.listeners st);
  wf_registered : forall el name i hd ty,
    Event.handlersOf st el name !! i = Some hd -> live hd ->
    ty ∈ channels h el name -> listenerOf el ty hd ∈ Event.listeners st
}.

(** The registries the module can be in: the empty one, and those a call
    of [add] or [remove] leaves, whether the call returns or throws. *)
Inductive reachable (h : Event.Host) : Event.Registry -> Prop :=
| reach_empty : reachable h Event.empty
| reach_add st element eventName callback st' r :
    reachable h st ->
    Event.add h st element eventName callback = (st', r) ->
    reachable h st'
| reach_remove st fuel element eventName callback st' r :
    reachable h st ->
    Event.remove fuel h st element eventName callback = Some (st', r) ->
    reachable h st'.

(** Bindings and operations with every name replaced by its lowercase form. *)
Definition lowerNames `{JsString} (bindings : option (list (string * KeyMap.binding)))
  : option (list (string * KeyMap.binding)) :=
  List.map (fun nb => (toLowerCase (fst nb), snd nb)) <$> bindings.

Definition lowerOp `{JsString} (o : KeyMap.op) : KeyMap.op :=
  match o with
  | KeyMap.Bind key fn => KeyMap.Bind (toLowerCase key) fn
  | KeyMap.Unbind key => KeyMap.Unbind (toLowerCase key)
  end.

(** ** A sample page and three hosts *)

(** Modelled from the spec: [is-custom-event.js] is not among the sources.
    "Returns true iff name contains a : separator". *)
Fixpoint hasColon (name : string) : bool :=
  match name with
  | EmptyString => false
  | String c rest => Ascii.eqb c ":" || hasColon rest
  end.

(** Nodes: 0 the document, 1 its root element, 2 the body, 3 a text node
    inside the anchor 4, 5 the list "navigation", 6 a radio input, 9 the
    window.  [legacy] says whether the nodes are those of an
    [attachEvent]-only host, whose root element has a 2-pixel client
    offset. *)
Definition page (legacy : bool) (n : Element) : Node.t :=
  let node nodeType tagName type parent offset :=
    {| Node.nodeType := nodeType; Node.tagName := tagName; Node.type := type;
       Node.parentNode := parent;
       Node.scrollLeft := Num 0; Node.scrollTop := Num 0;
       Node.clientLeft := offset; Node.clientTop := offset;
       Node.addEventListener := negb legacy |} in
  match n with
  | 0%nat => node 9 None None None Undefined
  | 1%nat => node 1 (Some "HTML") None (Some 0%nat) (if legacy then Num 2 else Num 0)
  | 2%nat => node 1 (Some "BODY") None (Some 1%nat) (Num 0)
  | 3%nat => node 3 None None (Some 4%nat) Undefined
  | 4%nat => node 1 (Some "A") None (Some 2%nat) (Num 0)
  | 6%nat => node 1 (Some "INPUT") (Some "radio") (Some 2%nat) (Num 0)
  | 9%nat => node 0 None None None Undefined
  | _ => node 1 (Some "UL") None (Some 2%nat) (Num 0)
  end.

Definition lookupId (id : string) : option Element :=
  if String.eqb id "navigation" then Some 5%nat else None.

(** The members of [Object.prototype]. *)
Definition prototypeMembers : list string :=
  ["constructor"; "hasOwnProperty"; "isPrototypeOf"; "propertyIsEnumerable";
   "toLocaleString"; "toString"; "valueOf"; "__proto__";
   "__defineGetter__"; "__defineSetter__"; "__lookupGetter__"; "__lookupSetter__"].

Definition isPrototypeMember (name : string) : bool :=
  existsb (String.eqb name) prototypeMembers.

(** The ancestors of a node of the page, nearest first. *)
Fixpoint ancestors (dom : Element -> Node.t) (depth : nat) (n : Element) : list Element :=
  match depth with
  | O => []
  | S depth =>
      match Node.parentNode (dom n) with
      | Some parent => parent :: ancestors dom depth parent
      | None => []
      end
  end.

(** Callback 13 stops the propagation of every event it is called on; the
    other callbacks of the page do not. *)
Definition stopper (callback : Event.Callback) (event : Event.Event) : bool :=
  Nat.eqb callback 13.

Definition w3cHost : Event.Host :=
  {| Event.dom := page false; Event.window_attachEvent := false;
     Event.document := 0%nat; Event.document_dispatchEvent := true;
     Event.documentElement := 1%nat; Event.body := Some 2%nat;
     Event.createEvent := true; Event.createEventObject := false;
     Event.getElement := lookupId; Event.isCustomEvent := hasColon;
     Event.objectPrototype := isPrototypeMember;
     Event.bubblePath := fun n =>
       if Nat.eqb n 9 then [] else (ancestors (page false) 8 n ++ [9%nat])%list;
     Event.fireEventBubbles := fun _ => false;
     Event.stopsPropagation := stopper |}.

Definition legacyHost : Event.Host :=
  {| Event.dom := page true; Event.window_attachEvent := true;
     Event.document := 0%nat; Event.document_dispatchEvent := false;
     Event.documentElement := 1%nat; Event.body := Some 2%nat;
     Event.createEvent := false; Event.createEventObject := true;
     Event.getElement := lookupId; Event.isCustomEvent := hasColon;
     Event.objectPrototype := isPrototypeMember;
     Event.bubblePath := ancestors (page true) 8;
     Event.fireEventBubbles := fun ty => String.eqb ty "ondataavailable";
     Event.stopsPropagation := stopper |}.

Definition bareHost : Event.Host :=
  {| Event.dom := page false; Event.window_attachEvent := false;
     Event.document := 0%nat; Event.document_dispatchEvent := false;
     Event.documentElement := 1%nat; Event.body := None;
     Event.createEvent := false; Event.createEventObject := false;
     Event.getElement := lookupId; Event.isCustomEvent := hasColon;
     Event.objectPrototype := isPrototypeMember;
     Event.bubblePath := ancestors (page false) 8;
     Event.fireEventBubbles := fun _ => false;
     Event.stopsPropagation := stopper |}.

(** An event of the given type with a target, the node its listener is
    attached to, and client and page coordinates. *)
Definition sampleEvent (type : string) (target currentTarget : option Element)
    (client page : jsnum) : Event.Event :=
  {| Event.type := type; Event.eventType := None;
     Event.target := target; Event.srcElement := target;
     Event.currentTarget := currentTarget; Event.relatedTarget := None;
     Event.fromElement := None; Event.toElement := None;
     Event.eventPhase := None;
     Event.clientX := client; Event.clientY := client;
     Event.screenX := client; Event.screenY := client;
     Event.pageX := page; Event.pageY := page;
     Event.altKey := false; Event.ctrlKey := false; Event.shiftKey := false;
     Event.keyCode := Undefined; Event.charCode := Undefined;
     Event.model := None; Event.eventName := None; Event._event := None |}.

Definition keyEvent (type : string) (keyCode : Z) (charCode : option Z)
    (alt ctrl shift : bool) : KeyMap.KeyEvent :=
  {| KeyMap.type := type; KeyMap.keyCode := keyCode; KeyMap.charCode := charCode;
     KeyMap.altKey := alt; KeyMap.ctrlKey := ctrl; KeyMap.shiftKey := shift;
     KeyMap.target := Some 5%nat; KeyMap.srcElement := None;
     KeyMap.stopPropagation := true; KeyMap.preventDefault := true |}.

(** The registry after [add(5, "login:request", 7)] on a W3C host. *)
Definition oneCustom : Event.Registry :=
  let w := {| Event.w_id := 0; Event.w_element := 5%nat;
              Event.w_eventName := "login:request"; Event.w_callback := 7%nat |} in
  {| Event.storage :=
       {[ 5%nat := [("login:request",
                     [{| Event.wrapper := w; Event.callback := Some 7%nat |}])] ]};
     Event.eventCache := [5%nat];
     Event.listeners :=
       [{| Event.l_node := 5%nat; Event.l_type := "dataavailable";
           Event.l_wrapper := w |}];
     Event.nextId := 1 |}.

(** The event [fire(5, "login:request", {username: "hsimpson"})] hands to the
    listeners of node 5 on a W3C host. *)
Definition loginRequest : Event.Event :=
  Event.setCurrentTarget
    (Event.setTarget
       (Event.setModel (Event.setEventName (Event.blank "dataavailable") "login:request")
          [("username", "hsimpson")])
       (Some 5%nat))
    (Some 5%nat).

(** The registry after [remove(5, "login:request", 7)] on [oneCustom], as
    the code leaves it. *)
Definition oneCustomRemoved : Event.Registry :=
  {| Event.storage :=
       {[ 5%nat := [("login:request",
                     [{| Event.wrapper :=
                           {| Event.w_id := 0; Event.w_element := 5%nat;
                              Event.w_eventName := "login:request";
                              Event.w_callback := 7%nat |};
                         Event.callback := None |}])] ]};
     Event.eventCache := [5%nat];
     Event.listeners := [];
     Event.nextId := 1 |}.

(** The registry after the calls [add(element, name, callback)] for each of
    the given names and callbacks in turn. *)
Definition registerAll (h : Event.Host) (element : Element)
    (regs : list (string * Event.Callback)) (st : Event.Registry) : Event.Registry :=
  fold_left
    (fun st r =>
       fst (Event.add h st (Event.ByRef (Some element)) (fst r) (snd r))) regs st.

(** Three click handlers on node 5 of a W3C host. *)
Definition threeClicks : Event.Registry :=
  registerAll w3cHost 5%nat [("click", 7%nat); ("click", 8%nat); ("click", 9%nat)]
    Event.empty.

(** [oneCustom] with a click handler added on the same node. *)
Definition oneCustomClick : Event.Registry :=
  registerAll w3cHost 5%nat [("click", 8%nat)] oneCustom.

(** The wrapper of the handler [oneCustom] holds, and a wrapper for a click
    handler on node 5. *)
Definition loginWrapper : Event.Wrapper :=
  {| Event.w_id := 0; Event.w_element := 5%nat;
     Event.w_eventName := "login:request"; Event.w_callback := 7%nat |}.

Definition clickWrapper : Event.Wrapper :=
  {| Event.w_id := 0; Event.w_element := 5%nat;
     Event.w_eventName := "click"; Event.w_callback := 7%nat |}.

(** ** [event.js]: cache clean-up and the content-loaded event *)

(** [destroyCache()]: [remove(element)] for every element of [eventCache],
    which [remove] leaves as it is. *)
Definition destroyCache (fuel : nat) (h : Event.Host) (st : Event.Registry)
  : option (Event.Registry * throws unit) :=
  fold_left
    (fun acc element =>
       match acc with
       | Some (st, Ret _) => Event.remove fuel h st element None None
       | _ => acc
       end)
    (Event.eventCache st) (Some (st, Ret tt)).

(** [fireContentLoadedEvent()], on the flag [document.loaded]: the flag after
    the call and the calls made.  [timer] is never assigned, so no interval
    is cleared. *)
Definition fireContentLoadedEvent (h : Event.Host) (st : Event.Registry) (loaded : bool)
  : bool * list Event.Call :=
  if loaded then (loaded, [])
  else (true, snd (Event.fire h st (Event.document h) "dom:loaded" (Some []) None)).

(** The calls made by [n] successive calls of [fireContentLoadedEvent]. *)
Fixpoint contentLoadedCalls (h : Event.Host) (st : Event.Registry) (loaded : bool)
    (n : nat) : list Event.Call :=
  match n with
  | O => []
  | S n =>
      let '(loaded, calls) := fireContentLoadedEvent h st loaded in
      (calls ++ contentLoadedCalls h st loaded n)%list
  end.

(** The elements at the odd positions of a list. *)
Fixpoint odds {A} (l : list A) : list A :=
  match l with
  | _ :: y :: rest => y :: odds rest
  | _ => []
  end.

(** The nodes the event of [fire(element, ...)] is taken through. *)
Definition fireRoute (h : Event.Host) (element : Element) (bubbles : option bool)
  : list Element :=
  Event.route h (Event.dispatchNode h element)
    (if Event.createEvent h then true
     else Event.fireEventBubbles h
            (if default true bubbles then "ondataavailable" else "onfilterchange")).

(** [model[name]] is an inherited member for the object stored for the
    element: the name is a member of [Object.prototype] and not a property
    of the object. *)
Definition inheritedAt (h : Event.Host) (st : Event.Registry) (element : Element)
    (name : string) : bool :=
  match Event.storage st !! element with
  | Some model =>
      match Event.readProp h model name with
      | Some Event.Inherited => true
      | _ => false
      end
  | None => false
  end.

(** The handlers stored under native event names all have their callback. *)
Definition nativeLive (h : Event.Host) (st : Event.Registry) : Prop :=
  forall el name hd,
    Event.isCustomEvent h name = false ->
    hd ∈ Event.handlersOf st el name -> live hd.

(** One registry has the cache and the stored elements of another. *)
Definition sameCache (st st' : Event.Registry) : Prop :=
  Event.eventCache st' = Event.eventCache st
  /\ forall el, is_Some (Event.storage st' !! el) <-> is_Some (Event.storage st !! el).

(** * Properties *)

(** ** The ASCII string operations *)

Lemma lowerChar_not_upper c : isUpper (lowerChar c) = false.
Proof.
  unfold lowerChar. destruct (isUpper c) eqn:E; [|exact E].
  destruct c as [[] [] [] [] [] [] [] []]; vm_compute in E; try discriminate E; reflexivity.
Qed.

Lemma lowerString_no_upper s : hasUpper (lowerString s) = false.
Proof.
  induction s as [|c s IH]; simpl; [reflexivity|].
  rewrite lowerChar_not_upper, IH. reflexivity.
Qed.

Lemma lowerString_fixed s : hasUpper s = false -> lowerString s = s.
Proof.
  induction s as [|c s IH]; simpl; [reflexivity|].
  intros H. apply orb_false_iff in H as [Hc Hs].
  unfold lowerChar. rewrite Hc, (IH Hs). reflexivity.
Qed.

Lemma lowerString_idemp s : lowerString (lowerString s) = lowerString s.
Proof. apply lowerString_fixed, lowerString_no_upper. Qed.

#[export] Instance asciiStrings : JsString := {|
  fromCharCode := charOfCode;
  toLowerCase := lowerString;
  toLowerCase_idemp := lowerString_idemp
|}.

(** ** Key dispatcher *)

Section KeyMapProps.
Context `{JsString}.
Variable PrintableChars : Z -> option string.

Lemma dispatch_some km w e :
  KeyMap.dispatch PrintableChars km w (Some e) =
  match KeyMap.keyOf PrintableChars e with
  | None => Ret None
  | Some (modifiers, keyname) =>
      match KeyMap.map km !! KeyMap.compositeKey modifiers keyname with
      | Some (KeyMap.Fn func) =>
          Ret (Some {|
            KeyMap.inv_func := func;
            KeyMap.inv_target := match KeyMap.target e with
                                 | Some n => Some n
                                 | None => KeyMap.srcElement e
                                 end;
            KeyMap.inv_key := KeyMap.compositeKey modifiers keyname;
            KeyMap.inv_event := e;
            KeyMap.inv_propagation :=
              if KeyMap.stopPropagation e then KeyMap.ByMethod else KeyMap.ByFlag;
            KeyMap.inv_default :=
              if KeyMap.preventDefault e then KeyMap.ByMethod else KeyMap.ByFlag |})
      | _ => Ret None
      end
  end.
Proof. reflexivity. Qed.

Lemma dispatch_unbound km w e modifiers keyname :
  KeyMap.keyOf PrintableChars e = Some (modifiers, keyname) ->
  KeyMap.isFn (KeyMap.map km !! KeyMap.compositeKey modifiers keyname) = false ->
  KeyMap.dispatch PrintableChars km w (Some e) = Ret None.
Proof.
  intros Hk Hf. rewrite dispatch_some, Hk.
  destruct (KeyMap.map km !! _) as [[f|]|]; [discriminate Hf | reflexivity | reflexivity].
Qed.

Lemma dispatch_bound km w e modifiers keyname f :
  KeyMap.keyOf PrintableChars e = Some (modifiers, keyname) ->
  KeyMap.map km !! KeyMap.compositeKey modifiers keyname = Some (KeyMap.Fn f) ->
  exists inv,
    KeyMap.dispatch PrintableChars km w (Some e) = Ret (Some inv)
    /\ KeyMap.inv_func inv = f
    /\ KeyMap.inv_key inv = KeyMap.compositeKey modifiers keyname.
Proof.
  intros Hk Hf. rewrite dispatch_some, Hk, Hf. eexists. split; [reflexivity|]. split; reflexivity.
Qed.

Lemma dispatch_invoked km w e inv :
  KeyMap.dispatch PrintableChars km w (Some e) = Ret (Some inv) ->
  exists modifiers keyname,
    KeyMap.keyOf PrintableChars e = Some (modifiers, keyname)
    /\ KeyMap.inv_key inv = KeyMap.compositeKey modifiers keyname
    /\ KeyMap.map km !! KeyMap.compositeKey modifiers keyname
       = Some (KeyMap.Fn (KeyMap.inv_func inv)).
Proof.
  rewrite dispatch_some.
  destruct (KeyMap.keyOf PrintableChars e) as [[modifiers keyname]|]; [|discriminate].
  destruct (KeyMap.map km !! _) as [[f|]|] eqn:Hf; try discriminate.
  intros [= <-]. exists modifiers, keyname. simpl. auto.
Qed.

Lemma keyOf_keydown e :
  KeyMap.type e = "keydown" ->
  KeyMap.keyOf PrintableChars e =
  if Z.eqb (KeyMap.keyCode e) 16 || Z.eqb (KeyMap.keyCode e) 17
     || Z.eqb (KeyMap.keyCode e) 18
  then None
  else if truthyName (PrintableChars (KeyMap.keyCode e))
       then Some (modifierPrefix e, PrintableChars (KeyMap.keyCode e))
       else None.
Proof.
  intros Ht. unfold KeyMap.keyOf, modifierPrefix. rewrite Ht. simpl.
  destruct (_ || _ || _); [reflexivity|].
  destruct (truthyName (PrintableChars (KeyMap.keyCode e))) eqn:Hn; simpl.
  - rewrite Hn.
    destruct (KeyMap.altKey e), (KeyMap.ctrlKey e), (KeyMap.shiftKey e); reflexivity.
  - destruct (KeyMap.altKey e || KeyMap.ctrlKey e); rewrite Hn; reflexivity.
Qed.

(** C8.  On key-down, [dispatch] ignores the events whose key code is Shift
    (16), Ctrl (17) or Alt (18) and those whose code has no name in the
    table; when the code has a name, the event is looked up under the prefix
    made of [alt_], [ctrl_], [shift_], in that order, one for each modifier
    held, followed by the name. *)
Theorem dispatch_keydown km w e :
  KeyMap.type e = "keydown" ->
  let code := KeyMap.keyCode e in
  (code = 16 \/ code = 17 \/ code = 18 \/ truthyName (PrintableChars code) = false ->
   KeyMap.dispatch PrintableChars km w (Some e) = Ret None)
  /\ (forall name,
        code <> 16 -> code <> 17 -> code <> 18 ->
        PrintableChars code = Some name -> name <> "" ->
        KeyMap.keyOf PrintableChars e = Some (modifierPrefix e, Some name)
        /\ (forall f,
              KeyMap.map km !! (modifierPrefix e ++ name) = Some (KeyMap.Fn f) ->
              exists inv,
                KeyMap.dispatch PrintableChars km w (Some e) = Ret (Some inv)
                /\ KeyMap.inv_func inv = f
                /\ KeyMap.inv_key inv = modifierPrefix e ++ name)
        /\ (KeyMap.isFn (KeyMap.map km !! (modifierPrefix e ++ name)) = false ->
            KeyMap.dispatch PrintableChars km w (Some e) = Ret None)).
Proof.
  intros Ht code. pose proof (keyOf_keydown e Ht) as Hk. fold code in Hk. split.
  - intros Hc. rewrite dispatch_some, Hk.
    destruct Hc as [-> | [-> | [-> | Hn]]]; try reflexivity.
    rewrite Hn. destruct (_ || _ || _); reflexivity.
  - intros name H16 H17 H18 Hname Hne.
    assert (Hkey : KeyMap.keyOf PrintableChars e = Some (modifierPrefix e, Some name)).
    { rewrite Hk, Hname.
      destruct (Z.eqb_spec code 16); [contradiction|].
      destruct (Z.eqb_spec code 17); [contradiction|].
      destruct (Z.eqb_spec code 18); [contradiction|].
      simpl. destruct (String.eqb_spec name ""); [contradiction|reflexivity]. }
    split; [exact Hkey|]. split.
    + intros f Hf. exact (dispatch_bound km w e _ _ f Hkey Hf).
    + intros Hf. exact (dispatch_unbound km w e _ _ Hkey Hf).
Qed.

Lemma keyOf_keypress e :
  KeyMap.type e = "keypress" ->
  KeyMap.altKey e = false -> KeyMap.ctrlKey e = false ->
  KeyMap.charCode e <> Some 0 ->
  KeyMap.keyOf PrintableChars e =
  let ch := fromCharCode (KeyMap.pressedCode e) in
  if String.eqb ch (toLowerCase ch) then Some ("", Some ch)
  else Some ("shift_", Some (toLowerCase ch)).
Proof.
  intros Ht Ha Hc H0. unfold KeyMap.keyOf. rewrite Ht, Ha, Hc. simpl.
  destruct (KeyMap.charCode e) as [[|p|p]|]; try reflexivity. contradiction.
Qed.

Lemma keyOf_keypress_cases e :
  KeyMap.type e = "keypress" ->
  KeyMap.keyOf PrintableChars e = None
  \/ KeyMap.altKey e = false /\ KeyMap.ctrlKey e = false
     /\ KeyMap.charCode e <> Some 0.
Proof.
  intros Ht. unfold KeyMap.keyOf. rewrite Ht. simpl.
  destruct (KeyMap.altKey e); [left; reflexivity|].
  destruct (KeyMap.ctrlKey e); [left; reflexivity|]. simpl.
  destruct (KeyMap.charCode e) as [[|p|p]|]; try (right; repeat split; congruence).
  left; reflexivity.
Qed.

(** C4.  On key-press, when the character derived from the event differs
    from its lowercase form, the event is looked up under [shift_] followed
    by the lowercase character and under nothing else: a handler is invoked
    only if one is bound to that name, whatever is bound to the lowercase
    character alone; the events [dispatch] ignores (alt or ctrl held, a
    character code of zero) invoke nothing. *)
Theorem dispatch_keypress_uppercase km w e :
  KeyMap.type e = "keypress" ->
  let ch := fromCharCode (KeyMap.pressedCode e) in
  let key := "shift_" ++ toLowerCase ch in
  ch <> toLowerCase ch ->
  (KeyMap.altKey e = false -> KeyMap.ctrlKey e = false ->
   KeyMap.charCode e <> Some 0 ->
   KeyMap.keyOf PrintableChars e = Some ("shift_", Some (toLowerCase ch))
   /\ forall f, KeyMap.map km !! key = Some (KeyMap.Fn f) ->
        exists inv,
          KeyMap.dispatch PrintableChars km w (Some e) = Ret (Some inv)
          /\ KeyMap.inv_func inv = f /\ KeyMap.inv_key inv = key)
  /\ (forall inv,
        KeyMap.dispatch PrintableChars km w (Some e) = Ret (Some inv) ->
        KeyMap.inv_key inv = key
        /\ KeyMap.map km !! key = Some (KeyMap.Fn (KeyMap.inv_func inv)))
  /\ (KeyMap.isFn (KeyMap.map km !! key) = false ->
      KeyMap.dispatch PrintableChars km w (Some e) = Ret None).
Proof.
  intros Ht ch key Hne.
  assert (Hkey : KeyMap.altKey e = false -> KeyMap.ctrlKey e = false ->
                 KeyMap.charCode e <> Some 0 ->
                 KeyMap.keyOf PrintableChars e = Some ("shift_", Some (toLowerCase ch))).
  { intros Ha Hc H0. rewrite (keyOf_keypress e Ht Ha Hc H0). simpl. fold ch.
    destruct (String.eqb_spec ch (toLowerCase ch)); [contradiction|reflexivity]. }
  split; [|split].
  - intros Ha Hc H0. split; [auto|].
    intros f Hf. exact (dispatch_bound km w e _ _ f (Hkey Ha Hc H0) Hf).
  - intros inv Hd.
    destruct (dispatch_invoked km w e inv Hd) as (m & k & Hk & Hi & Hm).
    destruct (keyOf_keypress_cases e Ht) as [Hn | (Ha & Hc & H0)]; [congruence|].
    rewrite (Hkey Ha Hc H0) in Hk. injection Hk as <- <-. split; assumption.
  - intros Hf.
    destruct (keyOf_keypress_cases e Ht) as [Hn | (Ha & Hc & H0)].
    + rewrite dispatch_some, Hn. reflexivity.
    + exact (dispatch_unbound km w e _ _ (Hkey Ha Hc H0) Hf).
Qed.

Lemma new_lowercase bindings :
  map_Forall (fun k _ => toLowerCase k = k) (KeyMap.map (KeyMap.new bindings)).
Proof.
  destruct bindings as [bs|]; simpl; [|apply map_Forall_empty].
  assert (Hgen : forall (m : gmap string KeyMap.binding),
             map_Forall (fun k _ => toLowerCase k = k) m ->
             map_Forall (fun k _ => toLowerCase k = k)
               (fold_left (fun m nb => <[toLowerCase (fst nb) := snd nb]> m) bs m)).
  { induction bs as [|nb bs IH]; intros m Hm; simpl; [exact Hm|].
    apply IH. apply map_Forall_insert_2; [apply toLowerCase_idemp | exact Hm]. }
  apply Hgen, map_Forall_empty.
Qed.

Lemma step_lowercase km o :
  map_Forall (fun k _ => toLowerCase k = k) (KeyMap.map km) ->
  map_Forall (fun k _ => toLowerCase k = k) (KeyMap.map (KeyMap.step km o)).
Proof.
  intros Hm. destruct o as [key fn | key]; simpl.
  - apply map_Forall_insert_2; [apply toLowerCase_idemp | exact Hm].
  - unfold KeyMap.unbind. destruct (KeyMap.isFn _); [|exact Hm].
    simpl. apply map_Forall_delete. exact Hm.
Qed.

Lemma run_lowercase ops : forall km,
  map_Forall (fun k _ => toLowerCase k = k) (KeyMap.map km) ->
  map_Forall (fun k _ => toLowerCase k = k) (KeyMap.map (KeyMap.run km ops)).
Proof.
  induction ops as [|o ops IH]; intros km Hm; [exact Hm|].
  apply IH, step_lowercase, Hm.
Qed.

Lemma new_lowerNames bindings : KeyMap.new (lowerNames bindings) = KeyMap.new bindings.
Proof.
  destruct bindings as [bs|]; [|reflexivity]. simpl. f_equal.
  generalize (∅ : gmap string KeyMap.binding).
  induction bs as [|nb bs IH]; intros m; simpl; [reflexivity|].
  rewrite toLowerCase_idemp. apply IH.
Qed.

Lemma step_lowerOp km o : KeyMap.step km (lowerOp o) = KeyMap.step km o.
Proof.
  destruct o as [key fn | key]; simpl.
  - unfold KeyMap.bind. rewrite toLowerCase_idemp. reflexivity.
  - unfold KeyMap.unbind. rewrite toLowerCase_idemp. reflexivity.
Qed.

Lemma run_lowerOp ops : forall km,
  KeyMap.run km (List.map lowerOp ops) = KeyMap.run km ops.
Proof.
  induction ops as [|o ops IH]; intros km; [reflexivity|].
  unfold KeyMap.run in *. simpl. rewrite step_lowerOp. apply IH.
Qed.

(** C10.  After the constructor and any sequence of [bind] and [unbind]
    calls, every key of the binding map is its own lowercase form; and the
    case in which binding names are supplied makes no difference: the map,
    and with it every dispatch, is the one obtained from the lowercase
    forms of the names. *)
Theorem keys_lowercase bindings ops :
  map_Forall (fun k _ => toLowerCase k = k)
    (KeyMap.map (KeyMap.run (KeyMap.new bindings) ops))
  /\ KeyMap.run (KeyMap.new (lowerNames bindings)) (List.map lowerOp ops)
     = KeyMap.run (KeyMap.new bindings) ops
  /\ forall w e,
       KeyMap.dispatch PrintableChars
         (KeyMap.run (KeyMap.new (lowerNames bindings)) (List.map lowerOp ops)) w e
       = KeyMap.dispatch PrintableChars (KeyMap.run (KeyMap.new bindings) ops) w e.
Proof.
  assert (Heq : KeyMap.run (KeyMap.new (lowerNames bindings)) (List.map lowerOp ops)
                = KeyMap.run (KeyMap.new bindings) ops).
  { rewrite run_lowerOp, new_lowerNames. reflexivity. }
  split; [|split].
  - apply run_lowercase, new_lowercase.
  - exact Heq.
  - intros w e. rewrite Heq. reflexivity.
Qed.

End KeyMapProps.

(** ** Key maps: binding, unbinding, and the events outside the two cases *)

Section KeyMapBindings.
Context `{JsString}.
Variable PrintableChars : Z -> option string.

Lemma new_fold_lookup (bs : list (string * KeyMap.binding)) k :
  forall m : gmap string KeyMap.binding,
    fold_left (fun m nb => <[toLowerCase (fst nb) := snd nb]> m) bs m !! k
    = match last (filter (fun nb => toLowerCase (fst nb) = k) bs) with
      | Some nb => Some (snd nb)
      | None => m !! k
      end.
Proof.
  induction bs as [|nb bs IH] using rev_ind; intros m; [reflexivity|].
  rewrite fold_left_app, filter_app, filter_cons, filter_nil. cbn [fold_left].
  destruct (decide (toLowerCase (fst nb) = k)) as [Hk|Hk].
  - rewrite last_snoc, <- Hk. apply lookup_insert_eq.
  - rewrite app_nil_r, lookup_insert_ne by exact Hk. apply IH.
Qed.

(** X12.  The constructor keeps, for each lowercase name, the binding of the
    last of the given names that lowercases to it: among names that differ
    in case only, the later one in the order of [Object.keys] wins, and a
    name none of them lowercases to is unbound. *)
Theorem new_last_wins bs k :
  KeyMap.map (KeyMap.new (Some bs)) !! k
  = snd <$> last (filter (fun nb => toLowerCase (fst nb) = k) bs).
Proof.
  simpl. rewrite new_fold_lookup.
  destruct (last _); [reflexivity | apply lookup_empty].
Qed.

(** X13.  After [bind(key, fn)] an event whose lookup key is the lowercase
    form of [key] invokes [fn] under that key, in whatever case [key] was
    given; an event with another lookup key is dispatched as before the
    call. *)
Theorem bind_dispatch km key f w e modifiers keyname :
  KeyMap.keyOf PrintableChars e = Some (modifiers, keyname) ->
  (KeyMap.compositeKey modifiers keyname = toLowerCase key ->
   exists inv,
     KeyMap.dispatch PrintableChars (KeyMap.bind km key (KeyMap.Fn f)) w (Some e)
     = Ret (Some inv)
     /\ KeyMap.inv_func inv = f /\ KeyMap.inv_key inv = toLowerCase key)
  /\ (KeyMap.compositeKey modifiers keyname <> toLowerCase key ->
      forall fn,
        KeyMap.dispatch PrintableChars (KeyMap.bind km key fn) w (Some e)
        = KeyMap.dispatch PrintableChars km w (Some e)).
Proof.
  intros Hk. split.
  - intros Heq.
    destruct (dispatch_bound PrintableChars (KeyMap.bind km key (KeyMap.Fn f)) w e
                modifiers keyname f Hk) as (inv & Hd & Hf & Hi).
    { simpl. rewrite Heq. apply lookup_insert_eq. }
    exists inv. rewrite <- Heq. auto.
  - intros Hne fn. rewrite !dispatch_some, Hk. simpl.
    rewrite lookup_insert_ne by congruence. reflexivity.
Qed.

Lemma unbind_lookup km key k :
  KeyMap.map (KeyMap.unbind km key) !! k
  = if decide (k = toLowerCase key)
    then match KeyMap.map km !! k with
         | Some (KeyMap.Fn _) => None
         | b => b
         end
    else KeyMap.map km !! k.
Proof.
  unfold KeyMap.unbind.
  destruct (decide (k = toLowerCase key)) as [->|Hk].
  - destruct (KeyMap.map km !! toLowerCase key) as [[f|]|] eqn:Hm; simpl.
    + apply lookup_delete_eq.
    + exact Hm.
    + exact Hm.
  - destruct (KeyMap.isFn _); [|reflexivity]. simpl.
    apply lookup_delete_ne. congruence.
Qed.

(** X14.  After [unbind(key)] no event invokes a handler under the
    lowercase form of [key], events with another lookup key are dispatched
    as before, and unbinding a key that [bind] has just bound to a function
    gives back a map in which the key is absent: the map before the two
    calls when the key was not in it. *)
Theorem unbind_dispatch km key w e :
  (forall inv,
     KeyMap.dispatch PrintableChars (KeyMap.unbind km key) w (Some e) = Ret (Some inv) ->
     KeyMap.inv_key inv = toLowerCase key -> False)
  /\ (forall modifiers keyname,
        KeyMap.keyOf PrintableChars e = Some (modifiers, keyname) ->
        KeyMap.compositeKey modifiers keyname <> toLowerCase key ->
        KeyMap.dispatch PrintableChars (KeyMap.unbind km key) w (Some e)
        = KeyMap.dispatch PrintableChars km w (Some e))
  /\ (forall f,
        KeyMap.map (KeyMap.unbind (KeyMap.bind km key (KeyMap.Fn f)) key)
        = delete (toLowerCase key) (KeyMap.map km))
  /\ (forall f,
        KeyMap.map km !! toLowerCase key = None ->
        KeyMap.unbind (KeyMap.bind km key (KeyMap.Fn f)) key = km).
Proof.
  assert (Hmap : forall f,
             KeyMap.map (KeyMap.unbind (KeyMap.bind km key (KeyMap.Fn f)) key)
             = delete (toLowerCase key) (KeyMap.map km)).
  { intros f. unfold KeyMap.unbind, KeyMap.bind. simpl.
    rewrite lookup_insert_eq. simpl. apply delete_insert_eq. }
  split; [|split; [|split]].
  - intros inv Hd Hkey.
    destruct (dispatch_invoked PrintableChars _ w e inv Hd) as (m & k & _ & Hi & Hm).
    rewrite <- Hi, Hkey, unbind_lookup in Hm.
    destruct (decide _) as [_|Hn]; [|contradiction].
    destruct (KeyMap.map km !! toLowerCase key) as [[g|]|]; discriminate.
  - intros modifiers keyname Hk Hne. rewrite !dispatch_some, Hk, unbind_lookup.
    destruct (decide _) as [?|_]; [contradiction|reflexivity].
  - exact Hmap.
  - intros f Hnone. specialize (Hmap f).
    rewrite (delete_id _ _ Hnone) in Hmap.
    destruct (KeyMap.unbind _ key) as [m]. destruct km as [m0]. simpl in Hmap.
    rewrite Hmap. reflexivity.
Qed.

(** X15.  On key-press, when the character derived from the event is its
    own lowercase form, the event is looked up under the character alone,
    whether or not Shift is held; the character comes from the character
    code, and from the key code when the event has no character code. *)
Theorem dispatch_keypress_plain km w e :
  KeyMap.type e = "keypress" ->
  KeyMap.altKey e = false -> KeyMap.ctrlKey e = false ->
  KeyMap.charCode e <> Some 0 ->
  let ch := fromCharCode (default (KeyMap.keyCode e) (KeyMap.charCode e)) in
  ch = toLowerCase ch ->
  KeyMap.keyOf PrintableChars e = Some ("", Some ch)
  /\ (forall f,
        KeyMap.map km !! ch = Some (KeyMap.Fn f) ->
        exists inv,
          KeyMap.dispatch PrintableChars km w (Some e) = Ret (Some inv)
          /\ KeyMap.inv_func inv = f /\ KeyMap.inv_key inv = ch)
  /\ (KeyMap.isFn (KeyMap.map km !! ch) = false ->
      KeyMap.dispatch PrintableChars km w (Some e) = Ret None).
Proof.
  intros Ht Ha Hc H0 ch Hlow.
  assert (Hcode : KeyMap.pressedCode e = default (KeyMap.keyCode e) (KeyMap.charCode e)).
  { unfold KeyMap.pressedCode. destruct (KeyMap.charCode e) as [c|]; [|reflexivity].
    simpl. destruct (Z.eqb_spec c 0) as [->|]; [contradiction|reflexivity]. }
  assert (Hkey : KeyMap.keyOf PrintableChars e = Some ("", Some ch)).
  { rewrite (keyOf_keypress PrintableChars e Ht Ha Hc H0). simpl. rewrite Hcode. fold ch.
    rewrite <- Hlow, String.eqb_refl. reflexivity. }
  split; [exact Hkey|]. split.
  - intros f Hf. exact (dispatch_bound PrintableChars km w e _ _ f Hkey Hf).
  - intros Hf. exact (dispatch_unbound PrintableChars km w e _ _ Hkey Hf).
Qed.

(** X16.  An event that is neither a key-down nor a key-press is not
    ignored: with no key name and no modifiers, it is looked up under the
    text "null", and a handler bound to that name is invoked. *)
Theorem dispatch_other_type km w e :
  KeyMap.type e <> "keydown" -> KeyMap.type e <> "keypress" ->
  (forall f,
     KeyMap.map km !! "null" = Some (KeyMap.Fn f) ->
     exists inv,
       KeyMap.dispatch PrintableChars km w (Some e) = Ret (Some inv)
       /\ KeyMap.inv_func inv = f /\ KeyMap.inv_key inv = "null")
  /\ (KeyMap.isFn (KeyMap.map km !! "null") = false ->
      KeyMap.dispatch PrintableChars km w (Some e) = Ret None).
Proof.
  intros Hd Hp.
  assert (Hkey : KeyMap.keyOf PrintableChars e = Some ("", None)).
  { unfold KeyMap.keyOf.
    destruct (String.eqb_spec (KeyMap.type e) "keydown"); [contradiction|].
    destruct (String.eqb_spec (KeyMap.type e) "keypress"); [contradiction|reflexivity]. }
  split.
  - intros f Hf. exact (dispatch_bound PrintableChars km w e _ _ f Hkey Hf).
  - intros Hf. exact (dispatch_unbound PrintableChars km w e _ _ Hkey Hf).
Qed.

End KeyMapBindings.

(** ** Event registry: wrappers, firing, resolution *)

Section EventProps.
Context `{JsString}.
Import Event.

Lemma createHandler_new h st element eventName callback st' handler :
  createHandler h st element eventName callback = (st', Ret (Some handler)) ->
  handler = {| wrapper := {| w_id := nextId st; w_element := element;
                             w_eventName := eventName; w_callback := callback |};
               Event.callback := Some callback |}.
Proof.
  unfold createHandler, readProp.
  destruct (storage st !! element) as [model|];
    destruct (getProp _ eventName) as [handlers|];
    try destruct (objectPrototype h eventName);
    try destruct (contains _ callback); intros [= _ <-]; reflexivity.
Qed.

Lemma in_addListener st node ty w l :
  l ∈ listeners (addListener st node ty w) ->
  l ∈ listeners st \/ l = {| l_node := node; l_type := ty; l_wrapper := w |}.
Proof.
  unfold addListener. destruct (existsb _ _); simpl; [auto|].
  intros [Hl | Hl%list_elem_of_singleton]%elem_of_app; auto.
Qed.

Lemma in_attachEvent st node ty w l :
  l ∈ listeners (attachEvent st node ty w) ->
  l ∈ listeners st \/ l = {| l_node := node; l_type := ty; l_wrapper := w |}.
Proof.
  unfold attachEvent. simpl.
  intros [Hl | Hl%list_elem_of_singleton]%elem_of_app; auto.
Qed.

Lemma createHandler_listeners h st element eventName callback st' handler :
  createHandler h st element eventName callback = (st', handler) ->
  listeners st' = listeners st.
Proof.
  unfold createHandler, readProp.
  destruct (storage st !! element); destruct (getProp _ eventName);
    try destruct (objectPrototype h eventName);
    try destruct (contains _ callback); intros [= <- _]; reflexivity.
Qed.

Lemma add_new_listener h st arg eventName callback st' element l :
  add h st arg eventName callback = (st', Ret element) ->
  l ∈ listeners st' -> l ∉ listeners st ->
  l_wrapper l = {| w_id := nextId st; w_element := element;
                   w_eventName := eventName; w_callback := callback |}.
Proof.
  unfold add. destruct (match arg with ById _ => _ | ByRef _ => _ end) as [el|]; [|discriminate].
  destruct (createHandler h st el eventName callback) as [st1 [[handler|]|err]] eqn:Hc;
    [| |discriminate].
  - pose proof (createHandler_listeners _ _ _ _ _ _ _ Hc) as Hl1.
    pose proof (createHandler_new _ _ _ _ _ _ _ Hc) as ->. simpl.
    intros [= <- <-] Hin Hnot. rewrite <- Hl1 in Hnot.
    destruct (isCustomEvent h eventName), (Node.addEventListener (dom h el));
      repeat (first [ apply in_addListener in Hin | apply in_attachEvent in Hin ];
              destruct Hin as [Hin | ->]; [|reflexivity]);
      contradiction.
  - pose proof (createHandler_listeners _ _ _ _ _ _ _ Hc) as Hl1.
    intros [= <- <-] Hin Hnot. rewrite Hl1 in Hin. contradiction.
Qed.

(** C3.  A function that [add] registers with the host for a custom event
    name calls the callback, on the normalized event, exactly when the raw
    event carries an [eventName] equal to the registered name; with the name
    absent or different it returns without calling.  One registered for a
    native event name always normalizes the event and calls the callback. *)
Theorem wrapper_filters_custom h st arg eventName callback st' element l event :
  add h st arg eventName callback = (st', Ret element) ->
  l ∈ listeners st' -> l ∉ listeners st ->
  let call := {| caller := l_wrapper l; callee := callback; this := element;
                 argument := normalize h event element |} in
  (isCustomEvent h eventName = true ->
   (Event.eventName event = Some eventName ->
    applyWrapper h (l_wrapper l) event = Some call)
   /\ (Event.eventName event <> Some eventName ->
       applyWrapper h (l_wrapper l) event = None))
  /\ (isCustomEvent h eventName = false ->
      applyWrapper h (l_wrapper l) event = Some call).
Proof.
  intros Hadd Hin Hnot.
  rewrite (add_new_listener _ _ _ _ _ _ _ _ Hadd Hin Hnot). simpl.
  unfold applyWrapper. simpl. split.
  - intros ->. split.
    + intros ->. rewrite String.eqb_refl. reflexivity.
    + intros Hne. destruct (Event.eventName event) as [name|]; [|reflexivity].
      destruct (String.eqb_spec name eventName) as [->|]; [contradiction|reflexivity].
  - intros ->. reflexivity.
Qed.

(** C6.  [fire] returns [undefined] and dispatches nothing when the host has
    neither [createEvent] nor [createEventObject]; with either of them it
    returns the event it built, which carries the event name and, as its
    model, the data, or an empty object when no data is supplied. *)
Theorem fire_result h st element eventName data bubbles :
  (createEvent h = false -> createEventObject h = false ->
   fire h st element eventName data bubbles = (None, []))
  /\ (createEvent h = true \/ createEventObject h = true ->
      exists event,
        fst (fire h st element eventName data bubbles) = Some event
        /\ Event.eventName event = Some eventName
        /\ model event = Some (match data with Some d => d | None => [] end)).
Proof.
  unfold fire. split.
  - intros -> ->. reflexivity.
  - intros Hc.
    destruct (createEvent h) eqn:E1; simpl.
    + eexists. split; [reflexivity|]. split; reflexivity.
    + destruct Hc as [Hc | ->]; [discriminate|]. simpl.
      eexists. split; [reflexivity|]. destruct bubbles as [[]|], data; split; reflexivity.
Qed.

(** What a call of [add] with a string comes to: the error for a string that
    does not resolve, before any update; the resolved element; or, when the
    event name is a member of [Object.prototype] that the element's object
    does not have as its own, a [TypeError], thrown once the element has its
    storage slot. *)
Lemma add_outcome h st id eventName callback :
  (getElement h id = None ->
   add h st (ById id) eventName callback
   = (st, Throw ("Invalid element provided for event " ++ quote ++ eventName ++ quote)))
  /\ (forall element, getElement h id = Some element ->
      (readProp h (modelOf st element) eventName <> Some Inherited ->
       exists st', add h st (ById id) eventName callback = (st', Ret element))
      /\ (readProp h (modelOf st element) eventName = Some Inherited ->
          exists st',
            add h st (ById id) eventName callback = (st', Throw "TypeError")
            /\ is_Some (storage st' !! element)
            /\ listeners st' = listeners st)).
Proof.
  unfold add. split.
  - intros ->. reflexivity.
  - intros element ->. unfold createHandler, modelOf.
    destruct (storage st !! element) as [model|] eqn:Hs; simpl.
    + destruct (readProp h model eventName) as [[handlers|]|]; simpl.
      * split; [intros _|discriminate].
        destruct (contains _ callback); eexists; reflexivity.
      * split; [congruence|intros _].
        eexists. split; [reflexivity|]. split; [rewrite Hs; eauto|reflexivity].
      * split; [intros _|discriminate]. eexists; reflexivity.
    + destruct (readProp h [] eventName) as [[handlers|]|]; simpl.
      * split; [intros _|discriminate].
        destruct (contains _ callback); eexists; reflexivity.
      * split; [congruence|intros _].
        eexists. split; [reflexivity|]. split; [|reflexivity].
        simpl. rewrite lookup_insert_eq. eauto.
      * split; [intros _|discriminate]. eexists; reflexivity.
Qed.

Lemma element_unfold h event :
  element h event =
  let moved :=
    match currentTarget event with
    | Some ct =>
        truthyName (Node.tagName (dom h ct)) &&
        (String.eqb (type event) "load" || String.eqb (type event) "error" ||
         (String.eqb (type event) "click" &&
          bool_decide (toLowerCase <$> Node.tagName (dom h ct) = Some "input") &&
          bool_decide (Node.type (dom h ct) = Some "radio")))
    | None => false
    end in
  match (if moved then currentTarget event else target event) with
  | None => Throw "TypeError"
  | Some n =>
      if Z.eqb (Node.nodeType (dom h n)) TEXT_NODE
      then Ret (Node.parentNode (dom h n))
      else Ret (Some n)
  end.
Proof.
  unfold element. destruct (currentTarget event) as [ct|]; [|reflexivity].
  destruct (truthyName _); [|reflexivity]. simpl.
  destruct (_ || _ || _); reflexivity.
Qed.

Lemma attachmentEvent_true type node :
  attachmentEvent type node ->
  String.eqb type "load" || String.eqb type "error" ||
  (String.eqb type "click" &&
   bool_decide (toLowerCase <$> Node.tagName node = Some "input") &&
   bool_decide (Node.type node = Some "radio")) = true.
Proof.
  intros [-> | [-> | (-> & Ht & Hr)]]; [reflexivity | reflexivity |].
  rewrite (bool_decide_eq_true_2 _ Ht), (bool_decide_eq_true_2 _ Hr). reflexivity.
Qed.

Lemma attachmentEvent_false type node :
  ~ attachmentEvent type node ->
  String.eqb type "load" || String.eqb type "error" ||
  (String.eqb type "click" &&
   bool_decide (toLowerCase <$> Node.tagName node = Some "input") &&
   bool_decide (Node.type node = Some "radio")) = false.
Proof.
  intros Hn. unfold attachmentEvent in Hn.
  destruct (String.eqb_spec type "load"); [tauto|].
  destruct (String.eqb_spec type "error"); [tauto|].
  destruct (String.eqb_spec type "click"); [|reflexivity].
  destruct (bool_decide_reflect (toLowerCase <$> Node.tagName node = Some "input"));
    [|reflexivity].
  destruct (bool_decide_reflect (Node.type node = Some "radio")); [tauto|reflexivity].
Qed.

(** C9, as amended.  When the node the listener is attached to has a tag
    name, [element] resolves a [load] or [error] event, and a [click] event
    attached to a radio input, to that node instead of the target; when that
    node is missing or has no tag name, or the event is none of these, the
    target is kept.  In both cases a text node is replaced by its parent. *)
Theorem element_resolves h event :
  (forall ct,
     currentTarget event = Some ct ->
     truthyName (Node.tagName (dom h ct)) = true ->
     attachmentEvent (type event) (dom h ct) ->
     (Node.nodeType (dom h ct) <> TEXT_NODE -> element h event = Ret (Some ct))
     /\ (Node.nodeType (dom h ct) = TEXT_NODE ->
         element h event = Ret (Node.parentNode (dom h ct))))
  /\ (forall t,
        target event = Some t ->
        (match currentTarget event with
         | Some ct => truthyName (Node.tagName (dom h ct)) = false
                      \/ ~ attachmentEvent (type event) (dom h ct)
         | None => True
         end) ->
        (Node.nodeType (dom h t) <> TEXT_NODE -> element h event = Ret (Some t))
        /\ (Node.nodeType (dom h t) = TEXT_NODE ->
            element h event = Ret (Node.parentNode (dom h t)))).
Proof.
  split.
  - intros ct Hct Htag Hev. rewrite element_unfold, Hct, Htag.
    rewrite (attachmentEvent_true _ _ Hev). simpl. split.
    + intros Hn. destruct (Z.eqb_spec (Node.nodeType (dom h ct)) TEXT_NODE);
        [contradiction|reflexivity].
    + intros ->. reflexivity.
  - intros t Ht Hct. rewrite element_unfold.
    assert (Hm : match currentTarget event with
                 | Some ct =>
                     truthyName (Node.tagName (dom h ct)) &&
                     (String.eqb (type event) "load" || String.eqb (type event) "error" ||
                      (String.eqb (type event) "click" &&
                       bool_decide (toLowerCase <$> Node.tagName (dom h ct) = Some "input") &&
                       bool_decide (Node.type (dom h ct) = Some "radio")))
                 | None => false
                 end = false).
    { destruct (currentTarget event) as [ct|]; [|reflexivity].
      destruct Hct as [-> | Hno]; [reflexivity|].
      rewrite (attachmentEvent_false _ _ Hno). apply andb_false_r. }
    rewrite Hm. simpl. rewrite Ht. split.
    + intros Hn. destruct (Z.eqb_spec (Node.nodeType (dom h t)) TEXT_NODE);
        [contradiction|reflexivity].
    + intros ->. reflexivity.
Qed.

Lemma jsor_zero v : jsor v (Num 0) = Num (orZero v).
Proof. destruct v as [| |z|]; try reflexivity. unfold jsor. simpl.
  destruct (Z.eqb_spec z 0) as [->|]; reflexivity. Qed.

Lemma fallback_number client root body offset c b :
  client = Num c -> (if truthy root then True else body = Num b) ->
  jssub (jsadd client (jsor root body)) (jsor offset (Num 0))
  = Num (c + scrollOr root b - orZero offset).
Proof.
  intros -> Hb. rewrite jsor_zero. unfold scrollOr, jsor.
  destruct (truthy root) eqn:Hr.
  - destruct root; try discriminate Hr. reflexivity.
  - rewrite Hb. reflexivity.
Qed.

Lemma bodyScroll_source h p z root :
  bodyScroll h p z ->
  if truthy root then True
  else match body h with Some b => p (dom h b) | None => Num 0 end = Num z.
Proof.
  unfold bodyScroll. intros Hb. destruct (truthy root); [exact I|].
  destruct (body h); [exact Hb | rewrite Hb; reflexivity].
Qed.

(** C5, as amended.  Each coordinate of [pointer(event)] is the event's page
    coordinate whenever that one is a number other than zero.  When it is
    absent or zero, the coordinate is the client coordinate plus the scroll
    offset (the root element's, or the body's when the root's is zero or
    missing, and 0 without a body) minus the document's client offset (0 when
    missing). *)
Theorem pointer_coordinates h event :
  (forall px, pageX event = Num px -> px <> 0 -> x (pointer h event) = Num px)
  /\ (forall py, pageY event = Num py -> py <> 0 -> y (pointer h event) = Num py)
  /\ (forall cx bl,
        truthy (pageX event) = false -> clientX event = Num cx ->
        bodyScroll h Node.scrollLeft bl ->
        x (pointer h event)
        = Num (cx + scrollOr (Node.scrollLeft (dom h (documentElement h))) bl
               - orZero (Node.clientLeft (dom h (document h)))))
  /\ (forall cy bt,
        truthy (pageY event) = false -> clientY event = Num cy ->
        bodyScroll h Node.scrollTop bt ->
        y (pointer h event)
        = Num (cy + scrollOr (Node.scrollTop (dom h (documentElement h))) bt
               - orZero (Node.clientTop (dom h (document h))))).
Proof.
  unfold pointer, pointerX, pointerY. simpl. repeat split.
  - intros px -> Hpx. unfold jsor. simpl.
    destruct (Z.eqb_spec px 0); [contradiction|reflexivity].
  - intros py -> Hpy. unfold jsor. simpl.
    destruct (Z.eqb_spec py 0); [contradiction|reflexivity].
  - intros cx bl Hp Hc Hb. unfold jsor at 1. rewrite Hp.
    apply fallback_number; [exact Hc|]. exact (bodyScroll_source h _ bl _ Hb).
  - intros cy bt Hp Hc Hb. unfold jsor at 1. rewrite Hp.
    apply fallback_number; [exact Hc|]. exact (bodyScroll_source h _ bt _ Hb).
Qed.

End EventProps.

(** ** Event registry: the stored handlers *)

Section ModelProps.
Import Event.

Lemma getProp_setProp_eq m name v : getProp (setProp m name v) name = Some v.
Proof.
  induction m as [|[k w] m IH]; simpl.
  - rewrite String.eqb_refl. reflexivity.
  - destruct (String.eqb_spec k name) as [->|Hne]; simpl.
    + rewrite String.eqb_refl. reflexivity.
    + destruct (String.eqb_spec k name); [contradiction|exact IH].
Qed.

Lemma getProp_setProp_ne m name name' v :
  name <> name' -> getProp (setProp m name v) name' = getProp m name'.
Proof.
  intros Hne. induction m as [|[k w] m IH]; simpl.
  - destruct (String.eqb_spec name name'); [contradiction|reflexivity].
  - destruct (String.eqb_spec k name) as [->|Hk]; simpl.
    + destruct (String.eqb_spec name name'); [contradiction|reflexivity].
    + destruct (String.eqb_spec k name'); [reflexivity|exact IH].
Qed.

Lemma getProp_deleteProp_ne m name name' :
  name <> name' -> getProp (deleteProp m name) name' = getProp m name'.
Proof.
  intros Hne. induction m as [|[k w] m IH]; simpl; [reflexivity|].
  destruct (String.eqb_spec k name) as [->|Hk]; simpl.
  - destruct (String.eqb_spec name name'); [contradiction|reflexivity].
  - destruct (String.eqb_spec k name'); [reflexivity|exact IH].
Qed.

Lemma getProp_absent m name : name ∉ fst <$> m -> getProp m name = None.
Proof.
  induction m as [|[k w] m IH]; simpl; [reflexivity|].
  intros Hn. apply not_elem_of_cons in Hn as [Hk Hm].
  destruct (String.eqb_spec k name) as [->|]; [contradiction|auto].
Qed.

Lemma getProp_deleteProp_eq m name :
  NoDup (fst <$> m) -> getProp (deleteProp m name) name = None.
Proof.
  induction m as [|[k w] m IH]; simpl; [reflexivity|].
  intros [Hk Hm]%NoDup_cons.
  destruct (String.eqb_spec k name) as [->|Hne]; simpl.
  - apply getProp_absent, Hk.
  - destruct (String.eqb_spec k name); [contradiction|auto].
Qed.

Lemma keys_setProp m name v k :
  k ∈ fst <$> setProp m name v <-> k ∈ fst <$> m \/ k = name.
Proof.
  induction m as [|[k' w] m IH]; simpl.
  - rewrite list_elem_of_singleton, elem_of_nil. tauto.
  - destruct (String.eqb_spec k' name) as [->|Hne]; simpl.
    + rewrite !elem_of_cons. tauto.
    + rewrite !elem_of_cons, IH. tauto.
Qed.

Lemma NoDup_setProp m name v : NoDup (fst <$> m) -> NoDup (fst <$> setProp m name v).
Proof.
  induction m as [|[k w] m IH]; simpl.
  - intros _. apply NoDup_singleton.
  - intros [Hk Hm]%NoDup_cons.
    destruct (String.eqb_spec k name) as [->|Hne]; simpl.
    + apply NoDup_cons. auto.
    + apply NoDup_cons. split; [|auto].
      rewrite keys_setProp. intros [?|?]; [contradiction|congruence].
Qed.

Lemma keys_deleteProp m name k :
  k ∈ fst <$> deleteProp m name -> k ∈ fst <$> m.
Proof.
  induction m as [|[k' w] m IH]; simpl; [auto|].
  destruct (String.eqb_spec k' name) as [->|Hne]; simpl; rewrite !elem_of_cons; auto.
  intros [?|?]; auto.
Qed.

Lemma NoDup_deleteProp m name : NoDup (fst <$> m) -> NoDup (fst <$> deleteProp m name).
Proof.
  induction m as [|[k w] m IH]; simpl; [auto|].
  intros [Hk Hm]%NoDup_cons.
  destruct (String.eqb_spec k name) as [->|Hne]; simpl; [exact Hm|].
  apply NoDup_cons. split; [|auto]. intros Hin. apply Hk, (keys_deleteProp _ _ _ Hin).
Qed.

Lemma setProp_setProp m name v w : setProp (setProp m name v) name w = setProp m name w.
Proof.
  induction m as [|[k u] m IH]; simpl.
  - rewrite String.eqb_refl. reflexivity.
  - destruct (String.eqb_spec k name) as [->|Hne]; simpl.
    + rewrite String.eqb_refl. reflexivity.
    + destruct (String.eqb_spec k name); [contradiction|]. rewrite IH. reflexivity.
Qed.

Lemma setProp_same m name v : getProp m name = Some v -> setProp m name v = m.
Proof.
  induction m as [|[k u] m IH]; simpl; [discriminate|].
  destruct (String.eqb_spec k name) as [->|Hne].
  - intros [= ->]. reflexivity.
  - intros Hg. rewrite (IH Hg). reflexivity.
Qed.

Lemma contains_spec l c : contains l c = true <-> Some c ∈ l.
Proof.
  unfold contains. induction l as [|x l IH]; simpl.
  - rewrite elem_of_nil. split; [discriminate|tauto].
  - rewrite orb_true_iff, IH, elem_of_cons, bool_decide_eq_true. split; intros [?|?]; auto.
Qed.

Lemma contains_callback hs c :
  contains (callback <$> hs) c = true <->
  exists i hd, hs !! i = Some hd /\ callback hd = Some c.
Proof.
  rewrite contains_spec, list_elem_of_fmap. split.
  - intros (hd & Hc & Hin). apply list_elem_of_lookup_1 in Hin as [i Hi]. eauto.
  - intros (i & hd & Hi & Hc). exists hd. split; [auto|].
    exact (list_elem_of_lookup_2 _ _ _ Hi).
Qed.

Lemma withStorage_same st : withStorage st (storage st) = st.
Proof. destruct st. reflexivity. Qed.

Lemma modelOf_withStorage st el m el' :
  modelOf (withStorage st (<[el := m]> (storage st))) el'
  = if decide (el' = el) then m else modelOf st el'.
Proof.
  unfold modelOf. simpl. destruct (decide (el' = el)) as [->|Hne].
  - rewrite lookup_insert_eq. reflexivity.
  - rewrite lookup_insert_ne by congruence. reflexivity.
Qed.

(** The handler arrays after one array of one element has been replaced. *)
Lemma handlersOf_setProp st st' el name hs :
  (forall el', modelOf st' el'
               = if decide (el' = el) then setProp (modelOf st el) name hs
                 else modelOf st el') ->
  forall el' name',
    handlersOf st' el' name'
    = if decide (el' = el /\ name' = name) then hs else handlersOf st el' name'.
Proof.
  intros Hm el' name'. unfold handlersOf. rewrite Hm.
  destruct (decide (el' = el)) as [->|Hne].
  - destruct (decide (name' = name)) as [->|Hn].
    + rewrite getProp_setProp_eq. destruct (decide _) as [_|[]]; auto.
    + rewrite getProp_setProp_ne by congruence. destruct (decide _) as [[_ ?]|_]; [contradiction|reflexivity].
  - destruct (decide _) as [[? _]|_]; [contradiction|reflexivity].
Qed.

Lemma handlersOf_deleteProp st st' el name :
  NoDup (fst <$> modelOf st el) ->
  (forall el', modelOf st' el'
               = if decide (el' = el) then deleteProp (modelOf st el) name
                 else modelOf st el') ->
  forall el' name',
    handlersOf st' el' name'
    = if decide (el' = el /\ name' = name) then [] else handlersOf st el' name'.
Proof.
  intros Hnd Hm el' name'. unfold handlersOf. rewrite Hm.
  destruct (decide (el' = el)) as [->|Hne].
  - destruct (decide (name' = name)) as [->|Hn].
    + rewrite getProp_deleteProp_eq by exact Hnd. destruct (decide _) as [_|[]]; auto.
    + rewrite getProp_deleteProp_ne by congruence. destruct (decide _) as [[_ ?]|_]; [contradiction|reflexivity].
  - destruct (decide _) as [[? _]|_]; [contradiction|reflexivity].
Qed.

Lemma handlersOf_found st el name hs :
  handlersOf st el name = hs -> hs <> [] ->
  exists model, storage st !! el = Some model /\ getProp model name = Some hs.
Proof.
  unfold handlersOf, modelOf. intros Hh Hne.
  destruct (storage st !! el) as [model|]; simpl in Hh.
  - exists model. split; [reflexivity|].
    destruct (getProp model name); simpl in Hh; congruence.
  - simpl in Hh. congruence.
Qed.

Lemma readProp_own h m name hs :
  getProp m name = Some hs -> readProp h m name = Some (Handlers hs).
Proof. unfold readProp. intros ->. reflexivity. Qed.

Lemma readProp_not_inherited h m name :
  objectPrototype h name = false -> readProp h m name <> Some Inherited.
Proof. unfold readProp. intros ->. destruct (getProp m name); discriminate. Qed.

Lemma createHandler_present h st el name cb :
  contains (callback <$> handlersOf st el name) cb = true ->
  createHandler h st el name cb = (st, Ret None).
Proof.
  intros Hc.
  destruct (handlersOf_found st el name _ eq_refl) as (model & Hs & Hg).
  { intros Hnil. rewrite Hnil in Hc. discriminate Hc. }
  unfold createHandler. rewrite Hs, (readProp_own h _ _ _ Hg).
  unfold handlersOf, modelOf in Hc. rewrite Hs in Hc. simpl in Hc. rewrite Hg in Hc.
  simpl in Hc. rewrite Hc. rewrite insert_id by exact Hs.
  rewrite withStorage_same. reflexivity.
Qed.

Lemma createHandler_fresh h st el name cb :
  readProp h (modelOf st el) name <> Some Inherited ->
  contains (callback <$> handlersOf st el name) cb = false ->
  let hd := {| wrapper := {| w_id := nextId st; w_element := el;
                             w_eventName := name; w_callback := cb |};
               callback := Some cb |} in
  exists st',
    createHandler h st el name cb = (st', Ret (Some hd))
    /\ (forall el', modelOf st' el'
                    = if decide (el' = el)
                      then setProp (modelOf st el) name (handlersOf st el name ++ [hd])
                      else modelOf st el')
    /\ listeners st' = listeners st /\ nextId st' = S (nextId st).
Proof.
  intros Hown Hc hd. unfold createHandler.
  unfold handlersOf, modelOf, readProp in *.
  destruct (storage st !! el) as [model|] eqn:Hs; simpl in *.
  - destruct (getProp model name) as [handlers|] eqn:Hg; simpl in *.
    + rewrite Hc. eexists. split; [reflexivity|]. split; [|split; reflexivity].
      intros el'. simpl. unfold modelOf. simpl.
      destruct (decide (el' = el)) as [->|Hne].
      * rewrite lookup_insert_eq. reflexivity.
      * rewrite !lookup_insert_ne by congruence. reflexivity.
    + destruct (objectPrototype h name); [congruence|].
      eexists. split; [reflexivity|]. split; [|split; reflexivity].
      intros el'. simpl. unfold modelOf. simpl.
      destruct (decide (el' = el)) as [->|Hne].
      * rewrite lookup_insert_eq. simpl. rewrite setProp_setProp. reflexivity.
      * rewrite !lookup_insert_ne by congruence. reflexivity.
  - destruct (objectPrototype h name); [congruence|].
    eexists. split; [reflexivity|]. split; [|split; reflexivity].
    intros el'. simpl. unfold modelOf. simpl.
    destruct (decide (el' = el)) as [->|Hne].
    + rewrite lookup_insert_eq. simpl. rewrite String.eqb_refl. reflexivity.
    + rewrite !lookup_insert_ne by congruence. reflexivity.
Qed.

(** The registry [createHandler] leaves when it throws: the one it was
    given, with an empty object stored for the element if it had none. *)
Lemma createHandler_throws h st el name cb :
  readProp h (modelOf st el) name = Some Inherited ->
  createHandler h st el name cb
  = (match storage st !! el with
     | Some _ => st
     | None => {| storage := <[el := []]> (storage st);
                  eventCache := eventCache st ++ [el];
                  listeners := listeners st; nextId := nextId st |}
     end, Throw "TypeError").
Proof.
  unfold createHandler, modelOf.
  destruct (storage st !! el) as [model|]; simpl; intros ->; reflexivity.
Qed.

Lemma addListener_fresh st node ty w :
  (forall l, l ∈ listeners st -> w_id (l_wrapper l) <> w_id w) ->
  addListener st node ty w = attachEvent st node ty w.
Proof.
  intros Hf. unfold addListener.
  destruct (existsb _ _) eqn:He; [|reflexivity].
  apply existsb_exists in He as (l & Hin & Hs).
  apply list_elem_of_In in Hin. unfold sameListener in Hs. simpl in Hs.
  apply andb_true_iff in Hs as [_ Hid]. apply Nat.eqb_eq in Hid.
  exfalso. apply (Hf l Hin). congruence.
Qed.

Lemma resolved_element h st arg name cb st' el :
  add h st arg name cb = (st', Ret el) ->
  match arg with ById id => getElement h id | ByRef node => node end = Some el.
Proof.
  unfold add. destruct (match arg with ById _ => _ | ByRef _ => _ end) as [e|]; [|discriminate].
  destruct (createHandler h st e name cb) as [st1 [[hd|]|err]];
    [intros [= _ ->]; reflexivity ..|discriminate].
Qed.

Lemma add_returned h st arg name cb st' el :
  add h st arg name cb = (st', Ret el) ->
  readProp h (modelOf st el) name <> Some Inherited.
Proof.
  intros Hadd Hin. pose proof (resolved_element _ _ _ _ _ _ _ Hadd) as Hr.
  unfold add in Hadd. rewrite Hr, (createHandler_throws _ _ _ _ _ Hin) in Hadd.
  discriminate Hadd.
Qed.

Lemma add_present h st arg name cb el :
  match arg with ById id => getElement h id | ByRef node => node end = Some el ->
  contains (callback <$> handlersOf st el name) cb = true ->
  add h st arg name cb = (st, Ret el).
Proof.
  intros Hr Hc. unfold add. rewrite Hr, (createHandler_present _ _ _ _ _ Hc). reflexivity.
Qed.

Lemma add_fresh h st arg name cb st' el :
  add h st arg name cb = (st', Ret el) ->
  contains (callback <$> handlersOf st el name) cb = false ->
  (forall l, l ∈ listeners st -> w_id (l_wrapper l) <> nextId st) ->
  let hd := {| wrapper := {| w_id := nextId st; w_element := el;
                             w_eventName := name; w_callback := cb |};
               callback := Some cb |} in
  (forall el', modelOf st' el'
               = if decide (el' = el)
                 then setProp (modelOf st el) name (handlersOf st el name ++ [hd])
                 else modelOf st el')
  /\ listeners st'
     = (listeners st ++ ((fun ty => listenerOf el ty hd) <$> channels h el name))%list
  /\ nextId st' = S (nextId st).
Proof.
  intros Hadd Hc Hf hd. pose proof (resolved_element _ _ _ _ _ _ _ Hadd) as Hr.
  pose proof (add_returned _ _ _ _ _ _ _ Hadd) as Hown.
  unfold add in Hadd. rewrite Hr in Hadd.
  destruct (createHandler_fresh h st el name cb Hown Hc) as (st1 & Hch & Hm & Hl & Hn).
  rewrite Hch in Hadd. fold hd in Hadd. simpl in Hadd.
  assert (Hf1 : forall l, l ∈ listeners st1 -> w_id (l_wrapper l) <> w_id (wrapper hd)).
  { rewrite Hl. exact Hf. }
  unfold channels.
  destruct (isCustomEvent h name), (Node.addEventListener (dom h el));
    try rewrite (addListener_fresh _ _ _ _ Hf1) in Hadd;
    injection Hadd as <-; simpl; rewrite ?Hl, <- ?app_assoc;
    (split; [exact Hm|split; [reflexivity|exact Hn]]).
Qed.

(** [remove] with an event name and a callback makes no recursive call. *)
Lemma remove_callback_unfold n h st el name cb :
  name <> "" ->
  remove (S n) h st el (Some name) (Some cb) =
  match list_find (fun hd => callback hd = Some cb) (handlersOf st el name) with
  | None => Some (st, if inheritedAt h st el name then Throw "TypeError" else Ret tt)
  | Some (index, handler) =>
      let st1 :=
        withListeners st
          (fold_left (fun ls ty => dropListener (listenerOf el ty handler) ls)
             (channels h el name) (listeners st)) in
      let handlers :=
        if isCustomEvent h name
        then <[index := clearCallback handler]> (handlersOf st el name)
        else delete index (handlersOf st el name) in
      let model :=
        match handlers with
        | [] => deleteProp (modelOf st el) name
        | _ => setProp (modelOf st el) name handlers
        end in
      Some (withStorage st1 (<[el := model]> (storage st)), Ret tt)
  end.
Proof.
  intros Hne. simpl. unfold handlersOf, modelOf, inheritedAt, readProp.
  assert (Ht : String.eqb name "" = false).
  { destruct (String.eqb_spec name ""); [contradiction|reflexivity]. }
  rewrite Ht. simpl.
  destruct (storage st !! el) as [model|]; simpl; [|reflexivity].
  destruct (getProp model name) as [handlers|]; simpl;
    [|destruct (objectPrototype h name); reflexivity].
  destruct (list_find _ handlers) as [[index handler]|]; [|reflexivity].
  unfold channels, removeListener, withListeners, withStorage, listenerOf. simpl.
  destruct (isCustomEvent h name), (Node.addEventListener (dom h el)); reflexivity.
Qed.

Lemma sameListener_true a b :
  sameListener a b = true <->
  l_node a = l_node b /\ l_type a = l_type b
  /\ w_id (l_wrapper a) = w_id (l_wrapper b).
Proof.
  unfold sameListener. rewrite !andb_true_iff, !Nat.eqb_eq, String.eqb_eq. tauto.
Qed.

Lemma dropListener_subset l ls x : x ∈ dropListener l ls -> x ∈ ls.
Proof.
  induction ls as [|y ls IH]; simpl; [auto|].
  destruct (sameListener l y); rewrite ?elem_of_cons; [auto|].
  intros [?|?]; auto.
Qed.

Lemma dropListener_NoDup l ls : NoDup ls -> NoDup (dropListener l ls).
Proof.
  induction ls as [|y ls IH]; simpl; [auto|].
  intros [Hy Hls]%NoDup_cons. destruct (sameListener l y); [exact Hls|].
  apply NoDup_cons. split; [|auto].
  intros Hin. apply Hy, (dropListener_subset _ _ _ Hin).
Qed.

Lemma dropListener_keeps l ls x :
  x ∈ ls -> sameListener l x = false -> x ∈ dropListener l ls.
Proof.
  intros Hin Hs. induction ls as [|y ls IH]; simpl; [exact Hin|].
  apply elem_of_cons in Hin as [<-|Hin].
  - rewrite Hs. apply list_elem_of_here.
  - destruct (sameListener l y); [exact Hin|]. apply list_elem_of_further; auto.
Qed.

Lemma dropListener_gone l ls x :
  NoDup ls -> sameListener l x = true ->
  (forall y, y ∈ ls -> sameListener l y = true -> y = x) ->
  x ∉ dropListener l ls.
Proof.
  intros Hnd Hx. induction ls as [|y ls IH]; simpl; [intros _; apply not_elem_of_nil|].
  apply NoDup_cons in Hnd as [Hy Hls]. intros Hsame.
  destruct (sameListener l y) eqn:Hs.
  - rewrite <- (Hsame y (list_elem_of_here _ _) Hs). exact Hy.
  - apply not_elem_of_cons. split.
    + intros ->. congruence.
    + apply IH; [exact Hls|]. intros z Hz. apply Hsame, list_elem_of_further, Hz.
Qed.

Lemma dropAll_subset el hd tys : forall ls x,
  x ∈ fold_left (fun ls ty => dropListener (listenerOf el ty hd) ls) tys ls -> x ∈ ls.
Proof.
  induction tys as [|ty tys IH]; intros ls x; simpl; [auto|].
  intros Hin. apply IH in Hin. exact (dropListener_subset _ _ _ Hin).
Qed.

Lemma dropAll_NoDup el hd tys : forall ls,
  NoDup ls ->
  NoDup (fold_left (fun ls ty => dropListener (listenerOf el ty hd) ls) tys ls).
Proof.
  induction tys as [|ty tys IH]; intros ls Hnd; simpl; [auto|].
  apply IH, dropListener_NoDup, Hnd.
Qed.

Lemma dropAll_keeps el hd tys : forall ls x,
  x ∈ ls ->
  (forall ty, ty ∈ tys -> sameListener (listenerOf el ty hd) x = false) ->
  x ∈ fold_left (fun ls ty => dropListener (listenerOf el ty hd) ls) tys ls.
Proof.
  induction tys as [|ty tys IH]; intros ls x Hin Hs; simpl; [auto|].
  apply IH.
  - apply dropListener_keeps; [exact Hin|]. apply Hs, list_elem_of_here.
  - intros ty' Hty'. apply Hs, list_elem_of_further, Hty'.
Qed.

Lemma dropAll_gone el hd tys : forall ls ty,
  NoDup ls -> ty ∈ tys ->
  (forall ty y, y ∈ ls -> sameListener (listenerOf el ty hd) y = true ->
                y = listenerOf el ty hd) ->
  listenerOf el ty hd
  ∉ fold_left (fun ls ty => dropListener (listenerOf el ty hd) ls) tys ls.
Proof.
  induction tys as [|ty' tys IH]; intros ls ty Hnd Hty Hsame; simpl.
  { apply elem_of_nil in Hty. contradiction. }
  apply elem_of_cons in Hty as [->|Hty].
  - intros Hin. apply dropAll_subset in Hin. revert Hin.
    apply dropListener_gone; [exact Hnd| |apply Hsame].
    apply sameListener_true. auto.
  - apply IH; [apply dropListener_NoDup, Hnd|exact Hty|].
    intros ty0 y Hy. apply Hsame. exact (dropListener_subset _ _ _ Hy).
Qed.

End ModelProps.

(** ** Counting in lists *)

Section Counting.
Context {A B : Type}.

Lemma length_filter_none (P : A -> Prop) `{forall x, Decision (P x)} (l : list A) :
  (forall y, y ∈ l -> ~ P y) -> length (filter P l) = 0%nat.
Proof.
  induction l as [|a l IH]; intros Hn; [reflexivity|].
  rewrite filter_cons_False by (apply Hn, list_elem_of_here).
  apply IH. intros y Hy. apply Hn, list_elem_of_further, Hy.
Qed.

Lemma length_filter_at (P : A -> Prop) `{forall x, Decision (P x)} (l : list A) :
  forall i x,
    l !! i = Some x -> P x ->
    (forall j y, l !! j = Some y -> P y -> j = i) ->
    length (filter P l) = 1%nat.
Proof.
  induction l as [|a l IH]; intros i x Hi Hx Huniq; [discriminate|].
  destruct i as [|i]; simpl in Hi.
  - injection Hi as ->. rewrite filter_cons_True by exact Hx. simpl. f_equal.
    apply length_filter_none. intros y Hy Hp.
    apply list_elem_of_lookup_1 in Hy as [j Hj].
    specialize (Huniq (S j) y Hj Hp). discriminate.
  - rewrite filter_cons_False.
    + apply (IH i x Hi Hx). intros j y Hj Hp.
      specialize (Huniq (S j) y Hj Hp). lia.
    + intros Hp. specialize (Huniq 0%nat a eq_refl Hp). discriminate.
Qed.

Lemma length_filter_unique (P : A -> Prop) `{forall x, Decision (P x)} (l : list A) x :
  NoDup l -> x ∈ l -> P x -> (forall y, y ∈ l -> P y -> y = x) ->
  length (filter P l) = 1%nat.
Proof.
  intros Hnd Hin Hx Huniq. apply list_elem_of_lookup_1 in Hin as [i Hi].
  apply (length_filter_at P l i x Hi Hx). intros j y Hj Hp.
  rewrite (Huniq y (list_elem_of_lookup_2 _ _ _ Hj) Hp) in Hj.
  exact (NoDup_lookup _ _ _ _ Hnd Hj Hi).
Qed.

Lemma length_filter_omap (f : A -> option B) (P : A -> Prop) (Q : B -> Prop)
    `{forall x, Decision (P x)} `{forall c, Decision (Q c)} (l : list A) :
  (forall x, x ∈ l -> P x -> exists c, f x = Some c /\ Q c) ->
  (forall x c, x ∈ l -> f x = Some c -> Q c -> P x) ->
  length (filter Q (omap f l)) = length (filter P l).
Proof.
  induction l as [|a l IH]; intros Hpq Hqp; [reflexivity|].
  assert (IH' : length (filter Q (omap f l)) = length (filter P l)).
  { apply IH.
    - intros x Hx. apply Hpq, list_elem_of_further, Hx.
    - intros x c Hx. apply Hqp, list_elem_of_further, Hx. }
  simpl. destruct (decide (P a)) as [Hp|Hp].
  - destruct (Hpq a (list_elem_of_here _ _) Hp) as (c & Hc & Hq). rewrite Hc.
    rewrite (filter_cons_True P) by exact Hp.
    rewrite (filter_cons_True Q) by exact Hq. simpl. f_equal. exact IH'.
  - rewrite (filter_cons_False P) by exact Hp.
    destruct (f a) as [c|] eqn:Hc; [|exact IH'].
    rewrite (filter_cons_False Q); [exact IH'|].
    intros Hq. apply Hp. exact (Hqp a c (list_elem_of_here _ _) Hc Hq).
Qed.

Lemma length_filter_equiv (P Q : A -> Prop) `{forall x, Decision (P x)}
    `{forall x, Decision (Q x)} (l : list A) :
  (forall x, x ∈ l -> P x <-> Q x) -> length (filter P l) = length (filter Q l).
Proof.
  induction l as [|a l IH]; intros Hpq; [reflexivity|].
  assert (IH' : length (filter P l) = length (filter Q l)).
  { apply IH. intros x Hx. apply Hpq, list_elem_of_further, Hx. }
  pose proof (Hpq a (list_elem_of_here _ _)) as Ha.
  destruct (decide (P a)) as [Hp|Hp].
  - rewrite (filter_cons_True P) by exact Hp.
    rewrite (filter_cons_True Q) by (apply Ha, Hp). simpl. f_equal. exact IH'.
  - rewrite (filter_cons_False P) by exact Hp.
    rewrite (filter_cons_False Q) by (intros Hq; apply Hp, Ha, Hq). exact IH'.
Qed.

End Counting.

(** ** Event registry: the invariant *)

Section WfProps.
Import Event.
Variable h : Host.

Lemma wf_empty : wf h empty.
Proof.
  constructor; simpl; try (intros; discriminate).
  - intros el. apply NoDup_nil_2.
  - intros el name [hs Hhs]. discriminate Hhs.
  - intros l Hl. apply elem_of_nil in Hl. contradiction.
  - apply NoDup_nil_2.
Qed.

Lemma wf_listener_id st l :
  wf h st -> l ∈ listeners st -> (w_id (l_wrapper l) < nextId st)%nat.
Proof.
  intros W Hl. destruct (wf_listeners _ _ W l Hl) as (i & hd & Hs & Hw & _).
  rewrite <- Hw. apply (wf_closure _ _ W _ _ _ _ Hs).
Qed.

Lemma channels_NoDup el name : NoDup (channels h el name).
Proof.
  unfold channels.
  destruct (isCustomEvent h name), (Node.addEventListener (dom h el));
    repeat (apply NoDup_cons; split; [|]); try apply NoDup_nil_2;
    rewrite ?elem_of_cons, ?elem_of_nil; intuition discriminate.
Qed.

(** The invariant reads the stored objects, the listeners and the next
    identity only. *)
Lemma wf_same st st' :
  (forall el, modelOf st' el = modelOf st el) ->
  listeners st' = listeners st -> nextId st' = nextId st ->
  wf h st -> wf h st'.
Proof.
  intros Hm Hl Hn W.
  assert (Hh : forall el name, handlersOf st' el name = handlersOf st el name).
  { intros el name. unfold handlersOf. rewrite Hm. reflexivity. }
  destruct W as [W1 W2 W3 W4 W5 W6 W7 W8]. constructor.
  - intros el. rewrite Hm. apply W1.
  - intros el name. rewrite Hm. apply W2.
  - intros el name i hd. rewrite Hh, Hn. apply W3.
  - intros el name i hd el' name' j hd'. rewrite !Hh. apply W4.
  - intros el name i j hd hd' cb. rewrite Hh. apply W5.
  - intros l. rewrite Hl. intros Hin. destruct (W6 l Hin) as (i & hd & Hi & Hrest).
    exists i, hd. rewrite Hh. auto.
  - rewrite Hl. exact W7.
  - intros el name i hd ty. rewrite Hh, Hl. apply W8.
Qed.

Lemma wf_add_returned st arg name cb st' el :
  wf h st -> add h st arg name cb = (st', Ret el) -> wf h st'.
Proof.
  intros W Hadd.
  destruct (contains (callback <$> handlersOf st el name) cb) eqn:Hc.
  - rewrite (add_present _ _ _ _ _ _ (resolved_element _ _ _ _ _ _ _ Hadd) Hc) in Hadd.
    injection Hadd as <-. exact W.
  - destruct (add_fresh _ _ _ _ _ _ _ Hadd Hc) as (Hm & Hl & Hn).
    { intros l Hin. pose proof (wf_listener_id _ _ W Hin). lia. }
    pose proof (add_returned _ _ _ _ _ _ _ Hadd) as Hown.
    set (hd := {| wrapper := {| w_id := nextId st; w_element := el;
                                w_eventName := name; w_callback := cb |};
                  callback := Some cb |}) in *.
    pose proof (handlersOf_setProp st st' el name _ Hm) as Hh.
    assert (Hold : forall el' name' i x,
               handlersOf st el' name' !! i = Some x ->
               handlersOf st' el' name' !! i = Some x).
    { intros el' name' i x Hx. rewrite Hh.
      destruct (decide _) as [[-> ->]|_]; [apply lookup_app_l_Some|]; exact Hx. }
    assert (Hnew : forall el' name' i x,
               handlersOf st' el' name' !! i = Some x ->
               handlersOf st el' name' !! i = Some x
               \/ (el' = el /\ name' = name
                   /\ i = length (handlersOf st el name) /\ x = hd)).
    { intros el' name' i x. rewrite Hh.
      destruct (decide _) as [[-> ->]|_]; [|auto].
      rewrite lookup_app_Some, list_lookup_singleton_Some.
      intros [Hx|(Hle & Hi & <-)]; [auto|]. right. repeat split; lia. }
    assert (Hfresh : forall el' name' i x,
               handlersOf st el' name' !! i = Some x ->
               (w_id (wrapper x) < nextId st)%nat).
    { intros el' name' i x Hx. apply (wf_closure _ _ W _ _ _ _ Hx). }
    constructor.
    + intros el'. rewrite Hm. destruct (decide _) as [->|_]; [|apply (wf_keys _ _ W)].
      apply NoDup_setProp, (wf_keys _ _ W).
    + intros el' name'. rewrite Hm.
      destruct (decide _) as [->|_]; [|apply (wf_own _ _ W)].
      destruct (decide (name' = name)) as [->|Hd].
      * intros _. unfold readProp in Hown.
        destruct (getProp (modelOf st el) name) eqn:Hg;
          [apply (wf_own _ _ W el); rewrite Hg; eauto|].
        destruct (objectPrototype h name); congruence.
      * rewrite getProp_setProp_ne by congruence. apply (wf_own _ _ W).
    + intros el' name' i x Hx. rewrite Hn.
      destruct (Hnew _ _ _ _ Hx) as [Hx0|(-> & -> & _ & ->)].
      * destruct (wf_closure _ _ W _ _ _ _ Hx0) as (? & ? & ? & ?).
        repeat split; auto with lia.
      * simpl. repeat split; auto with lia. right. reflexivity.
    + intros el1 name1 i x el2 name2 j y Hx Hy Hid.
      destruct (Hnew _ _ _ _ Hx) as [Hx0|(-> & -> & -> & ->)];
        destruct (Hnew _ _ _ _ Hy) as [Hy0|(-> & -> & -> & ->)].
      * exact (wf_ids _ _ W _ _ _ _ _ _ _ _ Hx0 Hy0 Hid).
      * pose proof (Hfresh _ _ _ _ Hx0). simpl in Hid. lia.
      * pose proof (Hfresh _ _ _ _ Hy0). simpl in Hid. lia.
      * auto.
    + intros el' name' i j x y c Hx Hy Hcx Hcy.
      assert (Hno : forall k z, handlersOf st el name !! k = Some z ->
                                callback z <> Some cb).
      { intros k z Hz Hcz.
        assert (contains (callback <$> handlersOf st el name) cb = true) as Ht
            by (apply contains_callback; eauto).
        congruence. }
      destruct (Hnew _ _ _ _ Hx) as [Hx0|(-> & -> & -> & ->)];
        destruct (Hnew _ _ _ _ Hy) as [Hy0|(Hy1 & Hy2 & -> & ->)].
      * exact (wf_callbacks _ _ W _ _ _ _ _ _ _ Hx0 Hy0 Hcx Hcy).
      * subst. simpl in Hcy. injection Hcy as <-. destruct (Hno _ _ Hx0 Hcx).
      * simpl in Hcx. injection Hcx as <-. destruct (Hno _ _ Hy0 Hcy).
      * reflexivity.
    + intros l. rewrite Hl, elem_of_app, list_elem_of_fmap.
      intros [Hin|(ty & -> & Hty)].
      * destruct (wf_listeners _ _ W l Hin) as (i & x & Hx & Hw & Hlive & Hch).
        exists i, x. auto.
      * exists (length (handlersOf st el name)), hd. simpl. repeat split; [|exact Hty].
        rewrite Hh. destruct (decide _) as [_|Hd]; [|destruct Hd; auto].
        rewrite lookup_app_r by lia. rewrite Nat.sub_diag. reflexivity.
    + rewrite Hl. apply NoDup_app. split; [apply (wf_nodup _ _ W)|]. split.
      * intros l Hin [ty [-> _]]%list_elem_of_fmap.
        pose proof (wf_listener_id _ _ W Hin) as Hlt. simpl in Hlt. lia.
      * apply NoDup_fmap_2_strong; [|apply channels_NoDup].
        intros ty1 ty2 _ _ [=]. assumption.
    + intros el' name' i x ty Hx Hlive Hty. rewrite Hl, elem_of_app.
      destruct (Hnew _ _ _ _ Hx) as [Hx0|(-> & -> & _ & ->)].
      * left. exact (wf_registered _ _ W _ _ _ _ _ Hx0 Hlive Hty).
      * right. apply list_elem_of_fmap. exists ty. split; [reflexivity|exact Hty].
Qed.

Lemma wf_add st arg name cb st' r :
  wf h st -> add h st arg name cb = (st', r) -> wf h st'.
Proof.
  intros W Hadd. destruct r as [el|err]; [exact (wf_add_returned _ _ _ _ _ _ W Hadd)|].
  unfold add in Hadd.
  destruct (match arg with ById _ => _ | ByRef _ => _ end) as [el|];
    [|injection Hadd as <- _; exact W].
  destruct (readProp h (modelOf st el) name) as [[hs|]|] eqn:Hr.
  1,3: assert (Hown : readProp h (modelOf st el) name <> Some Inherited) by congruence;
    destruct (contains (callback <$> handlersOf st el name) cb) eqn:Hc;
      [rewrite (createHandler_present _ _ _ _ _ Hc) in Hadd; discriminate Hadd
      |destruct (createHandler_fresh h st el name cb Hown Hc) as (st1 & Hch & _);
       rewrite Hch in Hadd; simpl in Hadd; discriminate Hadd].
  rewrite (createHandler_throws _ _ _ _ _ Hr) in Hadd. injection Hadd as <- _.
  destruct (storage st !! el) as [model|] eqn:Hs; [exact W|].
  revert W. apply wf_same; try reflexivity.
  intros el'. unfold modelOf. simpl. destruct (decide (el' = el)) as [->|Hd].
  - rewrite lookup_insert_eq, Hs. reflexivity.
  - rewrite lookup_insert_ne by congruence. reflexivity.
Qed.

(** A listener the host holds under the node, event type and identity of a
    stored handler's listener is that listener. *)
Lemma wf_sameListener st el name index hd ty y :
  wf h st -> handlersOf st el name !! index = Some hd ->
  y ∈ listeners st -> sameListener (listenerOf el ty hd) y = true ->
  y = listenerOf el ty hd.
Proof.
  intros W Hhd Hy [Hnode [Hty Hid]]%sameListener_true. simpl in *.
  destruct (wf_listeners _ _ W y Hy) as (i & x & Hx & Hw & _).
  rewrite <- Hw in Hid.
  destruct (wf_ids _ _ W _ _ _ _ _ _ _ _ Hhd Hx Hid) as (_ & Hname & <-).
  rewrite <- Hnode, <- Hname in Hx. rewrite Hhd in Hx. injection Hx as <-.
  destruct y. unfold listenerOf. simpl in *. congruence.
Qed.

(** The state [remove] leaves when it finds a handler for the callback. *)
Lemma remove_callback_found n st el name cb index hd st' r :
  name <> "" -> NoDup (fst <$> modelOf st el) ->
  list_find (fun hd => callback hd = Some cb) (handlersOf st el name) = Some (index, hd) ->
  remove (S n) h st el (Some name) (Some cb) = Some (st', r) ->
  r = Ret tt /\
  let handlers' :=
    if isCustomEvent h name
    then <[index := clearCallback hd]> (handlersOf st el name)
    else delete index (handlersOf st el name) in
  (forall el' name',
     handlersOf st' el' name'
     = if decide (el' = el /\ name' = name) then handlers'
       else handlersOf st el' name')
  /\ (forall el', NoDup (fst <$> modelOf st el') -> NoDup (fst <$> modelOf st' el'))
  /\ listeners st'
     = fold_left (fun ls ty => dropListener (listenerOf el ty hd) ls)
         (channels h el name) (listeners st)
  /\ nextId st' = nextId st
  /\ getProp (modelOf st' el) name
     = match handlers' with [] => None | _ => Some handlers' end
  /\ (forall el' name',
        is_Some (getProp (modelOf st' el') name') ->
        is_Some (getProp (modelOf st el') name')).
Proof.
  intros Hne Hnd Hfind Hrem. split.
  { rewrite (remove_callback_unfold n h st el name cb Hne), Hfind in Hrem.
    injection Hrem as _ <-. reflexivity. }
  intros handlers'.
  rewrite (remove_callback_unfold n h st el name cb Hne), Hfind in Hrem.
  fold handlers' in Hrem. injection Hrem as <- _.
  set (model' := match handlers' with
                 | [] => deleteProp (modelOf st el) name
                 | _ => setProp (modelOf st el) name handlers'
                 end).
  assert (Hm : forall el',
             modelOf (withStorage
                        (withListeners st
                           (fold_left (fun ls ty => dropListener (listenerOf el ty hd) ls)
                              (channels h el name) (listeners st)))
                        (<[el := model']> (storage st))) el'
             = if decide (el' = el) then model' else modelOf st el').
  { intros el'. unfold modelOf. simpl. destruct (decide (el' = el)) as [->|Hd].
    - rewrite lookup_insert_eq. reflexivity.
    - rewrite lookup_insert_ne by congruence. reflexivity. }
  split; [|split; [|split; [reflexivity|split; [reflexivity|split]]]].
  - unfold model' in Hm. destruct handlers' eqn:Hh.
    + exact (handlersOf_deleteProp _ _ el name Hnd Hm).
    + exact (handlersOf_setProp _ _ el name _ Hm).
  - intros el' Hk. rewrite Hm. destruct (decide _) as [->|_]; [|exact Hk].
    unfold model'. destruct handlers'; [apply NoDup_deleteProp|apply NoDup_setProp]; exact Hk.
  - rewrite Hm. destruct (decide _) as [_|[]]; [|reflexivity].
    unfold model'. destruct handlers'.
    + apply getProp_deleteProp_eq, Hnd.
    + apply getProp_setProp_eq.
  - intros el' name'. rewrite Hm. destruct (decide _) as [->|_]; [|auto].
    assert (Hown : is_Some (getProp (modelOf st el) name)).
    { apply list_find_Some in Hfind as (Hhd & _ & _).
      unfold handlersOf in Hhd. destruct (getProp (modelOf st el) name); [eauto|].
      discriminate Hhd. }
    destruct (decide (name' = name)) as [->|Hd]; [intros _; exact Hown|].
    unfold model'. destruct handlers'.
    + rewrite getProp_deleteProp_ne by congruence. auto.
    + rewrite getProp_setProp_ne by congruence. auto.
Qed.

Lemma wf_remove_callback n st el name cb st' r :
  name <> "" -> wf h st ->
  remove (S n) h st el (Some name) (Some cb) = Some (st', r) -> wf h st'.
Proof.
  intros Hne W Hrem.
  destruct (list_find (fun hd => callback hd = Some cb) (handlersOf st el name))
    as [[index hd]|] eqn:Hfind.
  2: { rewrite (remove_callback_unfold n h st el name cb Hne), Hfind in Hrem.
       injection Hrem as <- _. exact W. }
  destruct (remove_callback_found n st el name cb index hd st' r Hne
              (wf_keys _ _ W el) Hfind Hrem) as (_ & Hh & Hk & Hl & Hn & _ & Hown).
  apply list_find_Some in Hfind as (Hhd & Hcb & _).
  set (pos := fun (el' : Element) (name' : string) (j : nat) =>
                if decide (el' = el /\ name' = name)
                then if isCustomEvent h name then j
                     else if decide (j < index)%nat then j else S j
                else j).
  assert (Hinj : forall el' name' j k, pos el' name' j = pos el' name' k -> j = k).
  { intros el' name' j k. unfold pos.
    destruct (decide _); [|auto]. destruct (isCustomEvent h name); [auto|].
    destruct (decide (j < index)%nat), (decide (k < index)%nat); lia. }
  assert (Horigin : forall el' name' j x,
             handlersOf st' el' name' !! j = Some x ->
             exists x0,
               handlersOf st el' name' !! pos el' name' j = Some x0
               /\ wrapper x = wrapper x0
               /\ ((x = x0 /\ ~ (el' = el /\ name' = name /\ pos el' name' j = index))
                   \/ callback x = None)).
  { intros el' name' j x. rewrite Hh. unfold pos.
    destruct (decide (el' = el /\ name' = name)) as [[-> ->]|Hd].
    - destruct (isCustomEvent h name).
      + rewrite list_lookup_insert_Some. intros [(<- & <- & _)|(Hij & Hx)].
        * exists hd. split; [exact Hhd|]. split; [reflexivity|]. right. reflexivity.
        * exists x. split; [exact Hx|]. split; [reflexivity|]. left.
          split; [reflexivity|]. intros (_ & _ & ?). congruence.
      + rewrite list_lookup_delete. intros Hx. exists x.
        split; [exact Hx|]. split; [reflexivity|]. left. split; [reflexivity|].
        intros (_ & _ & ?). destruct (decide (j < index)%nat); lia.
    - intros Hx. exists x. split; [exact Hx|]. split; [reflexivity|]. left.
      split; [reflexivity|]. intros (? & ? & _). apply Hd. auto. }
  assert (Hpersist : forall el' name' j0 x0,
             handlersOf st el' name' !! j0 = Some x0 ->
             ~ (el' = el /\ name' = name /\ j0 = index) ->
             exists j, handlersOf st' el' name' !! j = Some x0).
  { intros el' name' j0 x0 Hx0 Hnot. setoid_rewrite Hh.
    destruct (decide (el' = el /\ name' = name)) as [[-> ->]|Hd]; [|eauto].
    assert (j0 <> index) as Hj by (intros ->; apply Hnot; auto).
    destruct (isCustomEvent h name).
    - exists j0. rewrite list_lookup_insert_ne by congruence. exact Hx0.
    - destruct (decide (j0 < index)%nat).
      + exists j0. rewrite list_lookup_delete_lt by lia. exact Hx0.
      + exists (pred j0). rewrite list_lookup_delete_ge by lia.
        replace (S (pred j0)) with j0 by lia. exact Hx0. }
  assert (Hsame : forall ty y,
             y ∈ listeners st -> sameListener (listenerOf el ty hd) y = true ->
             y = listenerOf el ty hd).
  { intros ty y. exact (wf_sameListener st el name index hd ty y W Hhd). }
  constructor.
  - intros el'. apply Hk, (wf_keys _ _ W).
  - intros el' name' Hs. exact (wf_own _ _ W _ _ (Hown _ _ Hs)).
  - intros el' name' j x Hx. rewrite Hn.
    destruct (Horigin _ _ _ _ Hx) as (x0 & Hx0 & Hw & Hcase).
    destruct (wf_closure _ _ W _ _ _ _ Hx0) as (He & Hnm & Hid & Hc).
    rewrite Hw. repeat split; auto.
    destruct Hcase as [[-> _]|Hnone]; auto.
  - intros el1 name1 i x el2 name2 j y Hx Hy Hid.
    destruct (Horigin _ _ _ _ Hx) as (x0 & Hx0 & Hwx & _).
    destruct (Horigin _ _ _ _ Hy) as (y0 & Hy0 & Hwy & _).
    rewrite Hwx, Hwy in Hid.
    destruct (wf_ids _ _ W _ _ _ _ _ _ _ _ Hx0 Hy0 Hid) as (-> & -> & Hp).
    repeat split. exact (Hinj _ _ _ _ Hp).
  - intros el' name' i j x y c Hx Hy Hcx Hcy.
    destruct (Horigin _ _ _ _ Hx) as (x0 & Hx0 & _ & [[-> _]|Hnone]); [|congruence].
    destruct (Horigin _ _ _ _ Hy) as (y0 & Hy0 & _ & [[-> _]|Hnone]); [|congruence].
    apply (Hinj el' name'). exact (wf_callbacks _ _ W _ _ _ _ _ _ _ Hx0 Hy0 Hcx Hcy).
  - intros l. rewrite Hl. intros Hin.
    pose proof (dropAll_subset _ _ _ _ _ Hin) as Hin0.
    destruct (wf_listeners _ _ W l Hin0) as (i & x & Hx & Hw & Hlive & Hch).
    destruct (decide (l_node l = el /\ w_eventName (l_wrapper l) = name /\ i = index))
      as [(He & Hnm & ->)|Hnot].
    + exfalso. rewrite He, Hnm in Hx, Hch. rewrite Hhd in Hx. injection Hx as <-.
      assert (l = listenerOf el (l_type l) hd) as Heq
          by (destruct l; unfold listenerOf; simpl in *; congruence).
      rewrite Heq in Hin. revert Hin.
      apply dropAll_gone; [apply (wf_nodup _ _ W)|exact Hch|exact Hsame].
    + destruct (Hpersist _ _ _ _ Hx Hnot) as (j & Hj). exists j, x. auto.
  - rewrite Hl. apply dropAll_NoDup, (wf_nodup _ _ W).
  - intros el' name' j x ty Hx Hlive Hty. rewrite Hl.
    destruct (Horigin _ _ _ _ Hx) as (x0 & Hx0 & _ & [[-> Hnot]|Hnone]).
    2: { unfold live in Hlive. congruence. }
    apply dropAll_keeps.
    + exact (wf_registered _ _ W _ _ _ _ _ Hx0 Hlive Hty).
    + intros ty0 _. destruct (sameListener _ _) eqn:Hs; [|reflexivity].
      apply sameListener_true in Hs as (He & _ & Hid). simpl in *.
      destruct (wf_ids _ _ W _ _ _ _ _ _ _ _ Hhd Hx0 Hid) as (? & ? & ?).
      exfalso. apply Hnot. auto.
Qed.

Lemma remove_S n st element eventName callback :
  remove (S n) h st element eventName callback =
  match storage st !! element with
  | None => Some (st, Ret tt)
  | Some model =>
      if negb (truthyName eventName) then
        fold_left
          (fun acc evtName =>
             match acc with
             | Some (st, Ret _) => remove n h st element (Some evtName) None
             | _ => acc
             end)
          (fst <$> model) (Some (st, Ret tt))
      else
        let name := default "" eventName in
        match readProp h model name with
        | None => Some (st, Ret tt)
        | Some Inherited => Some (st, Throw "TypeError")
        | Some (Handlers handlers) =>
            match callback with
            | None =>
                fold_left
                  (fun acc i =>
                     match acc with
                     | Some (st, Ret _) =>
                         match handlersOf st element name !! i with
                         | Some handler =>
                             remove n h st element eventName (Event.callback handler)
                         | None => Some (st, Ret tt)
                         end
                     | _ => acc
                     end)
                  (seq 0 (length handlers)) (Some (st, Ret tt))
            | Some cb => remove (S n) h st element eventName (Some cb)
            end
        end
  end.
Proof.
  simpl. destruct (storage st !! element) as [model|] eqn:Hs; [|reflexivity].
  destruct (negb (truthyName eventName)); [reflexivity|].
  simpl. destruct (readProp h model (default "" eventName)) as [[handlers|]|];
    [|reflexivity|reflexivity].
  destruct callback; reflexivity.
Qed.

(** What every call of a loop preserves, the loop preserves, whether it
    runs to its end or is ended by a call that throws. *)
Lemma fold_calls {A} (P : Registry -> Prop)
    (g : Registry -> A -> option (Registry * throws unit)) (l : list A) :
  (forall st x st' r, P st -> g st x = Some (st', r) -> P st') ->
  forall acc st' r,
    (forall st0 r0, acc = Some (st0, r0) -> P st0) ->
    fold_left (fun acc x => match acc with Some (st, Ret _) => g st x | _ => acc end)
      l acc = Some (st', r) ->
    P st'.
Proof.
  intros Hg. induction l as [|x l IH]; simpl; intros acc st' r Hacc Hf.
  - exact (Hacc _ _ Hf).
  - revert Hf. apply IH. intros st0 r0.
    destruct acc as [[st1 [u|err]]|]; [|apply Hacc|discriminate].
    apply Hg. exact (Hacc _ _ eq_refl).
Qed.

Lemma fold_calls_from {A} (P : Registry -> Prop)
    (g : Registry -> A -> option (Registry * throws unit)) (l : list A) :
  (forall st x st' r, P st -> g st x = Some (st', r) -> P st') ->
  forall st st' r,
    P st ->
    fold_left (fun acc x => match acc with Some (st, Ret _) => g st x | _ => acc end)
      l (Some (st, Ret tt)) = Some (st', r) ->
    P st'.
Proof.
  intros Hg st st' r HP. apply (fold_calls P g l Hg).
  intros st0 r0 [= <- _]. exact HP.
Qed.

Lemma wf_remove fuel : forall st element eventName callback st' r,
  wf h st -> remove fuel h st element eventName callback = Some (st', r) -> wf h st'.
Proof.
  induction fuel as [|n IH]; intros st el name cb st' r W Hrem; [discriminate|].
  destruct (truthyName name) eqn:Ht.
  - destruct name as [nm|]; [|discriminate]. simpl in Ht.
    assert (Hne : nm <> "") by (intros ->; discriminate).
    destruct cb as [c|]; [exact (wf_remove_callback n st el nm c st' r Hne W Hrem)|].
    rewrite remove_S in Hrem. simpl in Hrem. rewrite Ht in Hrem. simpl in Hrem.
    destruct (storage st !! el) as [model|]; [|injection Hrem as <- _; exact W].
    destruct (readProp h model nm) as [[handlers|]|];
      [|injection Hrem as <- _; exact W ..].
    revert Hrem. apply (fold_calls_from (wf h)); [|exact W].
    intros st1 i st2 r2 W1. destruct (handlersOf st1 el nm !! i) as [handler|].
    + apply IH, W1.
    + intros [= <- _]. exact W1.
  - rewrite remove_S in Hrem. rewrite Ht in Hrem. simpl in Hrem.
    destruct (storage st !! el) as [model|]; [|injection Hrem as <- _; exact W].
    revert Hrem. apply (fold_calls_from (wf h)); [|exact W].
    intros st1 x st2 r2 W1. apply IH, W1.
Qed.

Lemma reachable_wf st : reachable h st -> wf h st.
Proof.
  induction 1 as [|st arg name cb st' r _ IH Hadd|st fuel el name cb st' r _ IH Hrem].
  - apply wf_empty.
  - exact (wf_add _ _ _ _ _ _ IH Hadd).
  - exact (wf_remove _ _ _ _ _ _ _ IH Hrem).
Qed.

Lemma add_registered st arg name cb st' el :
  wf h st -> add h st arg name cb = (st', Ret el) ->
  exists i hd, handlersOf st' el name !! i = Some hd /\ callback hd = Some cb.
Proof.
  intros W Hadd.
  destruct (contains (callback <$> handlersOf st el name) cb) eqn:Hc.
  - rewrite (add_present _ _ _ _ _ _ (resolved_element _ _ _ _ _ _ _ Hadd) Hc) in Hadd.
    injection Hadd as <-. apply contains_callback, Hc.
  - destruct (add_fresh _ _ _ _ _ _ _ Hadd Hc) as (Hm & _ & _).
    { intros l Hin. pose proof (wf_listener_id _ _ W Hin). lia. }
    rewrite (handlersOf_setProp st st' el name _ Hm).
    destruct (decide _) as [_|Hd]; [|destruct Hd; auto].
    eexists (length (handlersOf st el name)), _. split.
    + rewrite lookup_app_r by lia. rewrite Nat.sub_diag. reflexivity.
    + reflexivity.
Qed.

Lemma applyWrapper_call w event c :
  applyWrapper h w event = Some c ->
  caller c = w /\ callee c = w_callback w /\ this c = w_element w
  /\ argument c = normalize h event (w_element w)
  /\ (isCustomEvent h (w_eventName w) = true ->
      Event.eventName event = Some (w_eventName w)).
Proof.
  unfold applyWrapper. destruct (isCustomEvent h (w_eventName w)).
  - destruct (Event.eventName event) as [nm|]; [|discriminate].
    destruct (String.eqb_spec nm (w_eventName w)) as [->|]; [|discriminate].
    simpl. intros [= <-]. simpl. auto.
  - intros [= <-]. simpl. repeat split; auto. discriminate.
Qed.

Lemma deliver_call st node ty event c :
  c ∈ deliver h st node ty event ->
  exists l,
    l ∈ listeners st /\ l_node l = node /\ l_type l = ty
    /\ applyWrapper h (l_wrapper l) event = Some c.
Proof.
  unfold deliver. rewrite list_elem_of_omap. intros (l & Hl & Hc).
  destruct (Nat.eqb_spec (l_node l) node); [|discriminate].
  destruct (String.eqb_spec (l_type l) ty); [|discriminate].
  simpl in Hc. eauto.
Qed.

(** A call made at a node is made on that node. *)
Lemma deliver_this st node ty event c :
  wf h st -> c ∈ deliver h st node ty event -> this c = node.
Proof.
  intros W Hc. destruct (deliver_call _ _ _ _ _ Hc) as (l & Hl & Hn & _ & Ha).
  destruct (applyWrapper_call _ _ _ Ha) as (_ & _ & Hth & _).
  destruct (wf_listeners _ _ W l Hl) as (i & hd & Hhd & Hw & _).
  destruct (wf_closure _ _ W _ _ _ _ Hhd) as (He & _).
  rewrite Hth, <- Hw, He. exact Hn.
Qed.

Lemma propagate_elem st ty view path c :
  c ∈ propagate h st ty view path ->
  exists node, node ∈ path /\ c ∈ deliver h st node ty (view node).
Proof.
  induction path as [|node rest IH]; simpl.
  - intros Hc. apply elem_of_nil in Hc. contradiction.
  - destruct (existsb _ _).
    + intros Hc. exists node. split; [apply list_elem_of_here|exact Hc].
    + rewrite elem_of_app. intros [Hc|Hc].
      * exists node. split; [apply list_elem_of_here|exact Hc].
      * destruct (IH Hc) as (n & Hn & Hd). exists n.
        split; [apply list_elem_of_further, Hn|exact Hd].
Qed.

Lemma propagate_head st ty view node rest c :
  c ∈ deliver h st node ty (view node) -> c ∈ propagate h st ty view (node :: rest).
Proof.
  simpl. destruct (existsb _ _); [auto|]. rewrite elem_of_app. auto.
Qed.

(** The calls made on a node the event reaches once are those its listeners
    make when the event is there, provided no callback called on the way
    stops the propagation. *)
Lemma propagate_once st ty view (Q : Call -> Prop) `{forall c, Decision (Q c)} el after :
  wf h st -> el ∉ after ->
  forall before,
    el ∉ before ->
    (forall c, c ∈ propagate h st ty view (before ++ el :: after) ->
               this c ∈ before ->
               stopsPropagation h (callee c) (argument c) = false) ->
    length (filter (fun c => this c = el /\ Q c)
              (propagate h st ty view (before ++ el :: after)))
    = length (filter Q (deliver h st el ty (view el))).
Proof.
  intros W Hafter.
  assert (Hat : length (filter (fun c => this c = el /\ Q c)
                          (deliver h st el ty (view el)))
                = length (filter Q (deliver h st el ty (view el)))).
  { apply length_filter_equiv. intros c Hc. split; [intros [_ Hq]; exact Hq|].
    intros Hq. split; [exact (deliver_this _ _ _ _ _ W Hc)|exact Hq]. }
  assert (Helse : forall path,
             el ∉ path ->
             length (filter (fun c => this c = el /\ Q c)
                       (propagate h st ty view path)) = 0%nat).
  { intros path Hp. apply length_filter_none. intros c Hc [Hth _].
    destruct (propagate_elem _ _ _ _ _ Hc) as (node & Hn & Hd).
    rewrite (deliver_this _ _ _ _ _ W Hd) in Hth. subst node. contradiction. }
  induction before as [|b bs IH]; intros Hbefore Hstop.
  - simpl. destruct (existsb _ _); [exact Hat|].
    rewrite filter_app, length_app, Hat, (Helse after Hafter). lia.
  - apply not_elem_of_cons in Hbefore as [Hb Hbs].
    change ((b :: bs) ++ el :: after)%list with (b :: (bs ++ el :: after))%list in *.
    assert (Hgo : existsb (fun c => stopsPropagation h (callee c) (argument c))
                    (deliver h st b ty (view b)) = false).
    { destruct (existsb _ _) eqn:He; [|reflexivity].
      apply existsb_exists in He as (c & Hin%list_elem_of_In & Hs).
      rewrite (Hstop c) in Hs; [discriminate| |].
      - apply propagate_head, Hin.
      - rewrite (deliver_this _ _ _ _ _ W Hin). apply list_elem_of_here. }
    assert (Hrest : forall c, c ∈ propagate h st ty view (bs ++ el :: after) ->
                              this c ∈ bs ->
                              stopsPropagation h (callee c) (argument c) = false).
    { intros c Hc Hth. apply Hstop; [|apply list_elem_of_further, Hth].
      simpl. rewrite Hgo, elem_of_app. auto. }
    simpl. rewrite Hgo, filter_app, length_app, (IH Hbs Hrest).
    assert (Hnone : length (filter (fun c => this c = el /\ Q c)
                              (deliver h st b ty (view b))) = 0%nat).
    { apply length_filter_none. intros c Hc [Hth _].
      rewrite (deliver_this _ _ _ _ _ W Hc) in Hth. congruence. }
    rewrite Hnone. reflexivity.
Qed.

(** The calls [fire] makes, as the host's dispatch of the event it built. *)
Lemma fire_calls_unfold st element eventName data bubbles :
  snd (fire h st element eventName data bubbles) =
  if createEvent h then
    let event :=
      setTarget (setModel (setEventName (blank "dataavailable") eventName)
                   (default [] data))
        (Some (dispatchNode h element)) in
    propagate h st "dataavailable" (fun node => setCurrentTarget event (Some node))
      (fireRoute h element bubbles)
  else if createEventObject h then
    let ty := if default true bubbles then "ondataavailable" else "onfilterchange" in
    let event :=
      setSrcElement (setModel (setEventName (setEventType (blank "") ty) eventName)
                       (default [] data))
        (Some (dispatchNode h element)) in
    propagate h st ty (fun _ => event) (fireRoute h element bubbles)
  else [].
Proof.
  unfold fire, fireRoute.
  destruct (createEvent h); [reflexivity|].
  destruct (createEventObject h); [|reflexivity].
  destruct bubbles as [[]|]; reflexivity.
Qed.

(** C1.  From any registry the module can be in, once [add] has returned
    for an element, event name and callback, a second [add] with the same
    arguments changes nothing and returns the element.  The element's
    handler array for the name then holds exactly one record for the
    callback, the host holds exactly one listener for it under each event
    type the name is registered under, and an event of that type reaching
    the element (carrying the name, for a custom event) makes that
    registration call the callback exactly once.  So does [fire] for a
    custom event, whatever element it is fired on, when the event goes
    through the element once and no callback called on the way there stops
    it: the callback is called exactly once on the element, and exactly once
    altogether when no other node on the event's way has it registered for
    the name. *)
Theorem add_twice st element eventName callback st' el :
  reachable h st ->
  add h st element eventName callback = (st', Ret el) ->
  add h st' element eventName callback = (st', Ret el)
  /\ length (filter (fun hd => Event.callback hd = Some callback)
               (handlersOf st' el eventName)) = 1%nat
  /\ (forall ty, ty ∈ channels h el eventName ->
        length (filter (fun l => l_node l = el /\ l_type l = ty
                                 /\ w_eventName (l_wrapper l) = eventName
                                 /\ w_callback (l_wrapper l) = callback)
                  (listeners st')) = 1%nat)
  /\ (forall ty event,
        ty ∈ channels h el eventName ->
        (isCustomEvent h eventName = true -> Event.eventName event = Some eventName) ->
        length (filter (fun c => w_eventName (caller c) = eventName
                                 /\ callee c = callback)
                  (deliver h st' el ty event)) = 1%nat)
  /\ (isCustomEvent h eventName = true ->
      (createEvent h = true /\ Node.addEventListener (dom h el) = true)
      \/ (createEvent h = false /\ createEventObject h = true
          /\ Node.addEventListener (dom h el) = false) ->
      forall target data bubbles before after,
        fireRoute h target bubbles = (before ++ el :: after)%list ->
        el ∉ before -> el ∉ after ->
        let calls := snd (fire h st' target eventName data bubbles) in
        (forall c, c ∈ calls -> this c ∈ before ->
                   stopsPropagation h (callee c) (argument c) = false) ->
        length (filter (fun c => this c = el /\ w_eventName (caller c) = eventName
                                 /\ callee c = callback) calls) = 1%nat
        /\ ((forall node hd,
               node ∈ (before ++ after)%list -> hd ∈ handlersOf st' node eventName ->
               Event.callback hd <> Some callback) ->
            length (filter (fun c => w_eventName (caller c) = eventName
                                     /\ callee c = callback) calls) = 1%nat)).
Proof.
  intros Hreach Hadd.
  pose proof (reachable_wf _ Hreach) as W.
  pose proof (wf_add _ _ _ _ _ _ W Hadd) as W'.
  destruct (add_registered _ _ _ _ _ _ W Hadd) as (i & hd & Hhd & Hcb).
  destruct (wf_closure _ _ W' _ _ _ _ Hhd) as (Hel & Hnm & _ & Hc).
  assert (Hlive : live hd) by (destruct Hc as [Hc|Hc]; [congruence|exact Hc]).
  assert (Hw : w_callback (wrapper hd) = callback)
    by (unfold live in Hlive; congruence).
  assert (Hone : forall ty, ty ∈ channels h el eventName ->
            length (filter (fun l => l_node l = el /\ l_type l = ty
                                     /\ w_eventName (l_wrapper l) = eventName
                                     /\ w_callback (l_wrapper l) = callback)
                      (listeners st')) = 1%nat).
  { intros ty Hty.
    apply (length_filter_unique _ _ (listenerOf el ty hd)).
    - apply (wf_nodup _ _ W').
    - exact (wf_registered _ _ W' _ _ _ _ _ Hhd Hlive Hty).
    - simpl. auto.
    - intros l Hl (Hn & Ht & Hname & Hcall).
      destruct (wf_listeners _ _ W' l Hl) as (j & x & Hx & Hwx & Hlx & _).
      rewrite Hn, Hname in Hx.
      assert (Event.callback x = Some callback) as Hcx
          by (unfold live in Hlx; congruence).
      pose proof (wf_callbacks _ _ W' _ _ _ _ _ _ _ Hx Hhd Hcx Hcb) as ->.
      rewrite Hhd in Hx. injection Hx as <-.
      destruct l. unfold listenerOf. simpl in *. congruence. }
  assert (Hdeliver : forall ty event,
            ty ∈ channels h el eventName ->
            (isCustomEvent h eventName = true -> Event.eventName event = Some eventName) ->
            length (filter (fun c => w_eventName (caller c) = eventName
                                     /\ callee c = callback)
                      (deliver h st' el ty event)) = 1%nat).
  { intros ty event Hty Hev. rewrite <- (Hone ty Hty). unfold deliver.
    apply length_filter_omap.
    + intros l _ (Hn & Ht & Hname & Hcall).
      rewrite Hn, Ht, Nat.eqb_refl, String.eqb_refl. simpl.
      unfold applyWrapper. rewrite Hname.
      destruct (isCustomEvent h eventName).
      * rewrite (Hev eq_refl), String.eqb_refl. simpl.
        eexists. split; [reflexivity|]. simpl. auto.
      * eexists. split; [reflexivity|]. simpl. auto.
    + intros l c _ Hc0 (Hname & Hcall).
      destruct (Nat.eqb_spec (l_node l) el) as [Hn|]; [|discriminate].
      destruct (String.eqb_spec (l_type l) ty) as [Ht|]; [|discriminate].
      simpl in Hc0. unfold applyWrapper in Hc0.
      assert (caller c = l_wrapper l /\ callee c = w_callback (l_wrapper l)) as [Hca Hce].
      { destruct (isCustomEvent h (w_eventName (l_wrapper l)));
          [destruct (Event.eventName event) as [nm|]; [|discriminate];
           destruct (negb (String.eqb nm (w_eventName (l_wrapper l)))); [discriminate|]|];
          injection Hc0 as <-; auto. }
      rewrite Hca in Hname. rewrite Hce in Hcall. auto. }
  split; [|split; [|split; [|split]]].
  - apply add_present; [exact (resolved_element _ _ _ _ _ _ _ Hadd)|].
    apply contains_callback. eauto.
  - apply (length_filter_at _ _ i hd Hhd Hcb). intros j y Hy Hcy.
    exact (wf_callbacks _ _ W' _ _ _ _ _ _ _ Hy Hhd Hcy Hcb).
  - exact Hone.
  - exact Hdeliver.
  - intros Hcustom Hhost target data bubbles before after Hroute Hbefore Hafter calls Hstop.
    assert (Hcalls : exists ty view,
               calls = propagate h st' ty view (before ++ el :: after)
               /\ ty ∈ channels h el eventName
               /\ Event.eventName (view el) = Some eventName).
    { unfold calls. rewrite fire_calls_unfold, Hroute. unfold channels. rewrite Hcustom.
      destruct Hhost as [(Hce & Hael)|(Hce & Hceo & Hael)]; rewrite Hce, Hael.
      - eexists _, _. split; [reflexivity|]. split; [apply list_elem_of_here|reflexivity].
      - rewrite Hceo. eexists _, _. split; [reflexivity|].
        split; [|destruct bubbles as [[]|]; reflexivity].
        destruct bubbles as [[]|]; simpl;
          [apply list_elem_of_here|apply list_elem_of_further, list_elem_of_here
          |apply list_elem_of_here]. }
    destruct Hcalls as (ty & view & Hcalls & Hty & Hname).
    assert (Honce : length (filter (fun c => this c = el /\ w_eventName (caller c) = eventName
                                           /\ callee c = callback) calls) = 1%nat).
    { rewrite Hcalls.
      rewrite (propagate_once st' ty view
                 (fun c => w_eventName (caller c) = eventName /\ callee c = callback)
                 el after W' Hafter before Hbefore).
      - apply Hdeliver; [exact Hty|intros _; exact Hname].
      - rewrite <- Hcalls. exact Hstop. }
    split; [exact Honce|].
    intros Hothers. rewrite <- Honce. apply length_filter_equiv.
    intros c Hin. split; [|intros (_ & Hq); exact Hq].
    intros (Hcname & Hcallee). split; [|auto].
    rewrite Hcalls in Hin.
    destruct (propagate_elem _ _ _ _ _ Hin) as (node & Hnode & Hd).
    rewrite (deliver_this _ _ _ _ _ W' Hd).
    destruct (decide (node = el)) as [->|Hnode_ne]; [reflexivity|]. exfalso.
    destruct (deliver_call _ _ _ _ _ Hd) as (l & Hl & Hln & _ & Ha).
    destruct (applyWrapper_call _ _ _ Ha) as (Hca & Hcl & _).
    destruct (wf_listeners _ _ W' l Hl) as (k & x & Hx & Hwx & Hlx & _).
    rewrite Hln, <- Hca, Hcname in Hx.
    apply (Hothers node x).
    + apply elem_of_app in Hnode as [Hnode|Hnode]; rewrite elem_of_app; [auto|].
      apply elem_of_cons in Hnode as [->|Hnode]; [contradiction|auto].
    + exact (list_elem_of_lookup_2 _ _ _ Hx).
    + unfold live in Hlx. rewrite Hlx, Hwx, <- Hcl, Hcallee. reflexivity.
Qed.

Lemma remove_callback_returns n st el name cb index hd :
  name <> "" ->
  list_find (fun hd => callback hd = Some cb) (handlersOf st el name) = Some (index, hd) ->
  exists st', remove (S n) h st el (Some name) (Some cb) = Some (st', Ret tt).
Proof.
  intros Hne Hfind. rewrite (remove_callback_unfold n h st el name cb Hne), Hfind.
  eexists. reflexivity.
Qed.

(** For a native event name [remove] does what C2 says: the first record
    with the callback leaves the array, the other records and arrays stay,
    the name's entry goes with the last record, and the host no longer
    holds the listener. *)
Lemma remove_native n st el name cb index hd :
  wf h st -> name <> "" -> isCustomEvent h name = false ->
  list_find (fun hd => callback hd = Some cb) (handlersOf st el name) = Some (index, hd) ->
  exists st',
    remove (S n) h st el (Some name) (Some cb) = Some (st', Ret tt)
    /\ handlersOf st' el name = delete index (handlersOf st el name)
    /\ (forall el' name', ~ (el' = el /\ name' = name) ->
          handlersOf st' el' name' = handlersOf st el' name')
    /\ (length (handlersOf st el name) = 1%nat ->
        getProp (modelOf st' el) name = None)
    /\ (forall ty, ty ∈ channels h el name -> listenerOf el ty hd ∉ listeners st').
Proof.
  intros W Hne Hnative Hfind.
  destruct (remove_callback_returns n st el name cb index hd Hne Hfind) as [st' Hrem].
  exists st'. split; [exact Hrem|].
  destruct (remove_callback_found n st el name cb index hd st' _ Hne
              (wf_keys _ _ W el) Hfind Hrem) as (_ & Hh & _ & Hl & _ & Hg & _).
  rewrite Hnative in Hh, Hg.
  apply list_find_Some in Hfind as (Hhd & _ & _).
  split; [|split; [|split]].
  - rewrite Hh. destruct (decide _) as [_|Hd]; [reflexivity|destruct Hd; auto].
  - intros el' name' Hd. rewrite Hh. destruct (decide _); [contradiction|reflexivity].
  - intros Hlen. rewrite Hg.
    destruct (handlersOf st el name) as [|a [|b l]]; try discriminate Hlen.
    destruct index as [|index]; [reflexivity|discriminate Hhd].
  - intros ty Hty. rewrite Hl.
    apply dropAll_gone; [apply (wf_nodup _ _ W)|exact Hty|].
    intros ty0 y. exact (wf_sameListener st el name index hd ty0 y W Hhd).
Qed.

(** For a custom event name it does not: the record stays where it was,
    without its callback, and the name keeps its entry. *)
Lemma remove_custom n st el name cb index hd :
  wf h st -> name <> "" -> isCustomEvent h name = true ->
  list_find (fun hd => callback hd = Some cb) (handlersOf st el name) = Some (index, hd) ->
  exists st',
    remove (S n) h st el (Some name) (Some cb) = Some (st', Ret tt)
    /\ handlersOf st' el name = <[index := clearCallback hd]> (handlersOf st el name)
    /\ length (handlersOf st' el name) = length (handlersOf st el name)
    /\ getProp (modelOf st' el) name = Some (handlersOf st' el name).
Proof.
  intros W Hne Hcustom Hfind.
  destruct (remove_callback_returns n st el name cb index hd Hne Hfind) as [st' Hrem].
  exists st'. split; [exact Hrem|].
  destruct (remove_callback_found n st el name cb index hd st' _ Hne
              (wf_keys _ _ W el) Hfind Hrem) as (_ & Hh & _ & _ & _ & Hg & _).
  rewrite Hcustom in Hh, Hg.
  apply list_find_Some in Hfind as (Hhd & _ & _).
  assert (Heq : handlersOf st' el name
                = <[index := clearCallback hd]> (handlersOf st el name)).
  { rewrite Hh. destruct (decide _) as [_|Hd]; [reflexivity|destruct Hd; auto]. }
  split; [exact Heq|]. split; [rewrite Heq; apply length_insert|].
  rewrite Hg, Heq.
  destruct (<[index := clearCallback hd]> (handlersOf st el name)) eqn:Hins; [|reflexivity].
  apply (f_equal length) in Hins. rewrite length_insert in Hins.
  apply lookup_lt_Some in Hhd. simpl in Hins. lia.
Qed.

End WfProps.

(** ** Event registry: removal, clean-up and the cache *)

Section RemovalProps.
Import Event.
Variable h : Host.

(** What the removal of one handler preserves, every [remove] preserves. *)
Lemma remove_preserves (P : Registry -> Prop) :
  (forall n st el name cb st' r,
     name <> "" -> P st ->
     remove (S n) h st el (Some name) (Some cb) = Some (st', r) -> P st') ->
  forall fuel st element eventName callback st' r,
    P st -> remove fuel h st element eventName callback = Some (st', r) -> P st'.
Proof.
  intros Hone.
  induction fuel as [|n IH]; intros st el name cb st' r Hp Hrem; [discriminate|].
  destruct (truthyName name) eqn:Ht.
  - destruct name as [nm|]; [|discriminate]. simpl in Ht.
    assert (Hne : nm <> "") by (intros ->; discriminate).
    destruct cb as [c|]; [exact (Hone n st el nm c st' r Hne Hp Hrem)|].
    rewrite remove_S in Hrem. simpl in Hrem. rewrite Ht in Hrem. simpl in Hrem.
    destruct (storage st !! el) as [model|]; [|injection Hrem as <- _; exact Hp].
    destruct (readProp h model nm) as [[handlers|]|];
      [|injection Hrem as <- _; exact Hp ..].
    revert Hrem. apply (fold_calls_from P); [|exact Hp].
    intros st1 i st2 r2 Hp1. destruct (handlersOf st1 el nm !! i) as [handler|].
    + apply IH, Hp1.
    + intros [= <- _]. exact Hp1.
  - rewrite remove_S in Hrem. rewrite Ht in Hrem. simpl in Hrem.
    destruct (storage st !! el) as [model|]; [|injection Hrem as <- _; exact Hp].
    revert Hrem. apply (fold_calls_from P); [|exact Hp].
    intros st1 x st2 r2 Hp1. apply IH, Hp1.
Qed.

Lemma sameCache_refl st : sameCache st st.
Proof. split; [reflexivity|tauto]. Qed.

Lemma sameCache_trans st1 st2 st3 :
  sameCache st1 st2 -> sameCache st2 st3 -> sameCache st1 st3.
Proof.
  intros [H1 H2] [H3 H4]. split; [congruence|].
  intros el. rewrite H4. apply H2.
Qed.

Lemma remove_sameCache fuel st element eventName callback st' r :
  remove fuel h st element eventName callback = Some (st', r) -> sameCache st st'.
Proof.
  apply (remove_preserves (sameCache st)); [|apply sameCache_refl].
  intros n st1 el name cb st2 r2 Hne Hs Hrem.
  apply (sameCache_trans _ _ _ Hs). clear Hs.
  rewrite (remove_callback_unfold n h st1 el name cb Hne) in Hrem.
  destruct (list_find _ _) as [[index hd]|] eqn:Hfind.
  - injection Hrem as <- _. split; [reflexivity|]. intros el'. simpl.
    destruct (decide (el' = el)) as [->|Hd].
    + rewrite lookup_insert_eq. split; [intros _|eauto].
      apply list_find_Some in Hfind as (Hhd & _).
      destruct (handlersOf_found st1 el name _ eq_refl) as (m & -> & _); [|eauto].
      intros Hnil. rewrite Hnil in Hhd. discriminate.
    + rewrite lookup_insert_ne by congruence. tauto.
  - injection Hrem as <- _. apply sameCache_refl.
Qed.

Lemma createHandler_cache st el name cb st' hd :
  createHandler h st el name cb = (st', hd) ->
  eventCache st'
  = match storage st !! el with
    | Some _ => eventCache st
    | None => (eventCache st ++ [el])%list
    end
  /\ forall el', is_Some (storage st' !! el') <-> is_Some (storage st !! el') \/ el' = el.
Proof.
  unfold createHandler.
  destruct (storage st !! el) as [model|] eqn:Hs;
    destruct (readProp h _ name) as [[handlers|]|];
    try destruct (contains _ cb); intros [= <- _]; simpl;
    (split; [reflexivity|]); intros el';
    (destruct (decide (el' = el)) as [->|Hd];
     [rewrite ?lookup_insert_eq, ?Hs; split; eauto
     |rewrite ?lookup_insert_ne by congruence; tauto]).
Qed.

(** A call of [add] leaves the cache and the storage slots as they were,
    or with the one element it was called on added to both. *)
Lemma add_cache st arg name cb st' r :
  add h st arg name cb = (st', r) ->
  sameCache st st'
  \/ exists el,
       storage st !! el = None
       /\ eventCache st' = (eventCache st ++ [el])%list
       /\ forall el', is_Some (storage st' !! el') <-> is_Some (storage st !! el') \/ el' = el.
Proof.
  unfold add.
  destruct (match arg with ById _ => _ | ByRef _ => _ end) as [el|];
    [|intros [= <- _]; left; apply sameCache_refl].
  destruct (createHandler h st el name cb) as [st1 hd] eqn:Hc.
  apply createHandler_cache in Hc.
  assert (Hst : eventCache st' = eventCache st1 /\ storage st' = storage st1 ->
                sameCache st st'
                \/ exists el,
                     storage st !! el = None
                     /\ eventCache st' = (eventCache st ++ [el])%list
                     /\ forall el', is_Some (storage st' !! el')
                                    <-> is_Some (storage st !! el') \/ el' = el).
  { unfold sameCache. intros [-> ->]. destruct Hc as [Hc Hs].
    destruct (storage st !! el) as [model|] eqn:Hel.
    - left. split; [exact Hc|]. intros el'. rewrite Hs. split; [|auto].
      intros [?| ->]; [auto|]. rewrite Hel. eauto.
    - right. exists el. auto. }
  unfold addListener, attachEvent.
  destruct hd as [[hd|]|err]; [|intros [= <- _]; apply Hst; auto ..].
  destruct (isCustomEvent h name), (Node.addEventListener (dom h el));
    try destruct (existsb _ _); intros [= <- _]; apply Hst; auto.
Qed.

(** X2.  In every registry the module can be in, [eventCache] lists exactly
    the elements that have a storage slot, each of them once; and a call of
    [remove], whatever its arguments and whether it returns or throws,
    takes no element out of the cache and no slot out of the storage. *)
Theorem cache_tracks_storage st :
  reachable h st ->
  NoDup (eventCache st)
  /\ (forall el, el ∈ eventCache st <-> is_Some (storage st !! el))
  /\ (forall fuel element eventName callback st' r,
        remove fuel h st element eventName callback = Some (st', r) ->
        eventCache st' = eventCache st
        /\ forall el, is_Some (storage st' !! el) <-> is_Some (storage st !! el)).
Proof.
  intros Hreach.
  assert (Hinv : NoDup (eventCache st)
                 /\ forall el, el ∈ eventCache st <-> is_Some (storage st !! el)).
  { induction Hreach as [|st arg name cb st' r _ [IHn IHs] Hadd
                         |st fuel el name cb st' r _ [IHn IHs] Hrem].
    - split; [apply NoDup_nil_2|]. intros el. simpl. rewrite lookup_empty, elem_of_nil.
      split; [tauto|intros [x Hx]; discriminate].
    - destruct (add_cache _ _ _ _ _ _ Hadd) as [[Hc Hs]|(el & Hel & Hc & Hs)]; rewrite Hc.
      + split; [exact IHn|]. intros el'. rewrite Hs. apply IHs.
      + split.
        * apply NoDup_app. split; [exact IHn|]. split; [|apply NoDup_singleton].
          intros x Hx ->%list_elem_of_singleton. apply IHs in Hx. rewrite Hel in Hx.
          destruct Hx. discriminate.
        * intros el'. rewrite Hs, elem_of_app, list_elem_of_singleton, IHs. tauto.
    - destruct (remove_sameCache _ _ _ _ _ _ _ Hrem) as [Hc Hs]. rewrite Hc.
      split; [exact IHn|]. intros el'. rewrite Hs. apply IHs. }
  destruct Hinv as [Hn Hs]. split; [exact Hn|]. split; [exact Hs|].
  intros fuel element eventName callback st' r Hrem.
  exact (remove_sameCache _ _ _ _ _ _ _ Hrem).
Qed.

(** X3.  [remove] leaves the registry as it is and returns when the element
    has no storage slot; when the event name is no member of
    [Object.prototype] and has no handlers, or none with the callback
    given; and it leaves the registry as it is and throws when the element
    has a slot and the name is a member of [Object.prototype] that the
    stored object does not have as its own. *)
Theorem remove_nothing n st element :
  (storage st !! element = None ->
   forall eventName callback,
     remove (S n) h st element eventName callback = Some (st, Ret tt))
  /\ (forall name callback,
        name <> "" -> objectPrototype h name = false ->
        handlersOf st element name = [] ->
        remove (S n) h st element (Some name) callback = Some (st, Ret tt))
  /\ (forall name cb,
        name <> "" -> objectPrototype h name = false ->
        (forall hd, hd ∈ handlersOf st element name -> Event.callback hd <> Some cb) ->
        remove (S n) h st element (Some name) (Some cb) = Some (st, Ret tt))
  /\ (forall name callback,
        name <> "" -> is_Some (storage st !! element) ->
        getProp (modelOf st element) name = None -> objectPrototype h name = true ->
        remove (S n) h st element (Some name) callback = Some (st, Throw "TypeError")).
Proof.
  assert (Hnot : forall name, objectPrototype h name = false ->
                              inheritedAt h st element name = false).
  { intros name Hp. unfold inheritedAt.
    destruct (storage st !! element) as [model|]; [|reflexivity].
    pose proof (readProp_not_inherited h model name Hp).
    destruct (readProp h model name) as [[hs|]|]; congruence. }
  split; [|split; [|split]].
  - intros Hs name cb. rewrite remove_S, Hs. reflexivity.
  - intros name cb Hne Hp Hnil. destruct cb as [c|].
    + rewrite (remove_callback_unfold n h st element name c Hne), Hnil, (Hnot _ Hp).
      reflexivity.
    + rewrite remove_S. simpl.
      destruct (String.eqb_spec name "") as [|_]; [contradiction|]. simpl.
      unfold handlersOf, modelOf in Hnil.
      destruct (storage st !! element) as [model|]; [|reflexivity]. simpl in Hnil.
      unfold readProp. rewrite Hp.
      destruct (getProp model name) as [handlers|]; [|reflexivity].
      simpl in Hnil. rewrite Hnil. reflexivity.
  - intros name cb Hne Hp Hno.
    rewrite (remove_callback_unfold n h st element name cb Hne), (Hnot _ Hp).
    destruct (list_find _ _) as [[index hd]|] eqn:Hfind; [|reflexivity].
    apply list_find_Some in Hfind as (Hhd & Hcb & _).
    destruct (Hno hd (list_elem_of_lookup_2 _ _ _ Hhd) Hcb).
  - intros name cb Hne [model Hs] Hg Hp. rewrite remove_S, Hs. simpl.
    destruct (String.eqb_spec name "") as [|_]; [contradiction|]. simpl.
    unfold modelOf in Hg. rewrite Hs in Hg. simpl in Hg.
    unfold readProp. rewrite Hg, Hp. reflexivity.
Qed.

(** X4.  [destroyCache] empties neither [eventCache] nor the storage: when
    it returns, the cache is the one it started from, the same elements have
    a storage slot, and the registry is still well formed. *)
Theorem destroyCache_keeps_cache fuel st st' r :
  destroyCache fuel h st = Some (st', r) ->
  eventCache st' = eventCache st
  /\ (forall el, is_Some (storage st' !! el) <-> is_Some (storage st !! el))
  /\ (wf h st -> wf h st').
Proof.
  unfold destroyCache. intros Hd.
  assert (Hs : sameCache st st').
  { revert Hd. apply (fold_calls_from (sameCache st)); [|apply sameCache_refl].
    intros st1 el st2 r2 Hs Hrem.
    exact (sameCache_trans _ _ _ Hs (remove_sameCache _ _ _ _ _ _ _ Hrem)). }
  destruct Hs as [Hc Hs]. split; [exact Hc|]. split; [exact Hs|].
  intros W. revert Hd. apply (fold_calls_from (wf h)); [|exact W].
  intros st1 el st2 r2 W1. apply wf_remove, W1.
Qed.

Lemma nativeLive_same st st' :
  (forall el, modelOf st' el = modelOf st el) -> nativeLive h st -> nativeLive h st'.
Proof.
  intros Hm Hlive el name hd Hnat. unfold handlersOf. rewrite Hm. exact (Hlive _ _ _ Hnat).
Qed.

Lemma add_thrown st arg name cb st' err :
  add h st arg name cb = (st', Throw err) ->
  (forall el, modelOf st' el = modelOf st el).
Proof.
  unfold add.
  destruct (match arg with ById _ => _ | ByRef _ => _ end) as [el|];
    [|intros [= <- _]; reflexivity].
  destruct (readProp h (modelOf st el) name) as [[hs|]|] eqn:Hr.
  1,3: assert (Hown : readProp h (modelOf st el) name <> Some Inherited) by congruence;
    destruct (contains (Event.callback <$> handlersOf st el name) cb) eqn:Hc;
      [rewrite (createHandler_present _ _ _ _ _ Hc); discriminate
      |destruct (createHandler_fresh h st el name cb Hown Hc) as (st1 & Hch & _);
       rewrite Hch; simpl; discriminate].
  rewrite (createHandler_throws _ _ _ _ _ Hr). intros [= <- _].
  destruct (storage st !! el) as [model|] eqn:Hs; [reflexivity|].
  intros el'. unfold modelOf. simpl. destruct (decide (el' = el)) as [->|Hd].
  - rewrite lookup_insert_eq, Hs. reflexivity.
  - rewrite lookup_insert_ne by congruence. reflexivity.
Qed.

Lemma nativeLive_add st arg name cb st' el :
  wf h st -> nativeLive h st -> add h st arg name cb = (st', Ret el) ->
  nativeLive h st'.
Proof.
  intros W Hlive Hadd.
  destruct (contains (Event.callback <$> handlersOf st el name) cb) eqn:Hc.
  - rewrite (add_present _ _ _ _ _ _ (resolved_element _ _ _ _ _ _ _ Hadd) Hc) in Hadd.
    injection Hadd as <-. exact Hlive.
  - destruct (add_fresh _ _ _ _ _ _ _ Hadd Hc) as (Hm & _ & _).
    { intros l Hin. pose proof (wf_listener_id _ _ _ W Hin). lia. }
    intros el' name' hd Hnat. rewrite (handlersOf_setProp st st' el name _ Hm).
    destruct (decide _) as [[-> ->]|_]; [|apply Hlive, Hnat].
    intros [Hin| ->%list_elem_of_singleton]%elem_of_app; [|reflexivity].
    exact (Hlive _ _ _ Hnat Hin).
Qed.

Lemma nativeLive_remove_callback n st el name cb st' r :
  name <> "" -> wf h st -> nativeLive h st ->
  remove (S n) h st el (Some name) (Some cb) = Some (st', r) -> nativeLive h st'.
Proof.
  intros Hne W Hlive Hrem.
  destruct (list_find (fun hd => Event.callback hd = Some cb) (handlersOf st el name))
    as [[index hd]|] eqn:Hfind.
  2: { rewrite (remove_callback_unfold n h st el name cb Hne), Hfind in Hrem.
       injection Hrem as <- _. exact Hlive. }
  destruct (remove_callback_found h n st el name cb index hd st' r Hne
              (wf_keys _ _ W el) Hfind Hrem) as (_ & Hh & _).
  intros el' name' x Hnat. rewrite Hh.
  destruct (decide _) as [[-> ->]|_]; [|apply Hlive, Hnat].
  rewrite Hnat. intros Hin%list_elem_of_delete_inv. exact (Hlive _ _ _ Hnat Hin).
Qed.

Lemma reachable_nativeLive st : reachable h st -> nativeLive h st.
Proof.
  induction 1 as [|st arg name cb st' r Hr IH Hadd|st fuel el name cb st' r Hr IH Hrem].
  - intros el name hd _ Hin. apply elem_of_nil in Hin. contradiction.
  - destruct r as [el|err].
    + exact (nativeLive_add _ _ _ _ _ _ (reachable_wf _ _ Hr) IH Hadd).
    + exact (nativeLive_same _ _ (add_thrown _ _ _ _ _ _ Hadd) IH).
  - assert (wf h st' /\ nativeLive h st') as [_ Hl]; [|exact Hl].
    revert Hrem.
    apply (remove_preserves (fun s => wf h s /\ nativeLive h s));
      [|split; [exact (reachable_wf _ _ Hr)|exact IH]].
    intros n st1 el1 name1 cb1 st2 r2 Hne [W1 L1] Hrem1. split.
    + exact (wf_remove_callback h n st1 el1 name1 cb1 st2 r2 Hne W1 Hrem1).
    + exact (nativeLive_remove_callback n st1 el1 name1 cb1 st2 r2 Hne W1 L1 Hrem1).
Qed.

Lemma delete_beyond {A} (l : list A) i : (length l <= i)%nat -> delete i l = l.
Proof.
  intros Hle. rewrite delete_take_drop, take_ge, drop_ge by lia. apply app_nil_r.
Qed.

Lemma sweep_beyond {A} m : forall k (C : list A),
  (length C <= k)%nat -> fold_left (fun C i => delete i C) (seq k m) C = C.
Proof.
  induction m as [|m IH]; intros k C Hle; simpl; [reflexivity|].
  rewrite delete_beyond by exact Hle. apply IH. lia.
Qed.

(** Deleting at the indices 0, 1, 2, ... in turn, as a [forEach] that
    splices the array it walks does, takes out every other element. *)
Lemma sweep_odds {A} m : forall (P R : list A),
  (length R <= 2 * m)%nat ->
  fold_left (fun C i => delete i C) (seq (length P) m) (P ++ R)%list
  = (P ++ odds R)%list.
Proof.
  induction m as [|m IH]; intros P R Hlen; simpl.
  - destruct R; [reflexivity|simpl in Hlen; lia].
  - destruct R as [|x [|y R]].
    + rewrite delete_beyond by (rewrite length_app; simpl; lia).
      apply sweep_beyond. rewrite length_app. simpl. lia.
    + rewrite delete_middle. simpl. rewrite app_nil_r. apply sweep_beyond. lia.
    + rewrite delete_middle.
      replace (P ++ y :: R)%list with ((P ++ [y]) ++ R)%list
        by (rewrite <- app_assoc; reflexivity).
      replace (S (length P)) with (length (P ++ [y]))
        by (rewrite length_app; simpl; lia).
      rewrite IH by (simpl in Hlen; lia).
      rewrite <- app_assoc. reflexivity.
Qed.

Lemma sweep_native n el name : forall (idx : list nat) st,
  name <> "" -> isCustomEvent h name = false ->
  wf h st -> (forall hd, hd ∈ handlersOf st el name -> live hd) ->
  exists st',
    fold_left
      (fun acc i =>
         match acc with
         | Some (st, Ret _) =>
             match handlersOf st el name !! i with
             | Some handler =>
                 remove (S n) h st el (Some name) (Event.callback handler)
             | None => Some (st, Ret tt)
             end
         | _ => acc
         end) idx (Some (st, Ret tt)) = Some (st', Ret tt)
    /\ handlersOf st' el name
       = fold_left (fun C i => delete i C) idx (handlersOf st el name)
    /\ (forall el' name', ~ (el' = el /\ name' = name) ->
          handlersOf st' el' name' = handlersOf st el' name')
    /\ wf h st'.
Proof.
  intros idx st Hne Hnat. revert st.
  induction idx as [|i idx IH]; intros st W Hlive; cbn [fold_left].
  { exists st. auto. }
  destruct (handlersOf st el name !! i) as [hd|] eqn:Hhd.
  - pose proof (Hlive hd (list_elem_of_lookup_2 _ _ _ Hhd)) as Hl. unfold live in Hl.
    rewrite Hl.
    assert (Hfind : list_find
                      (fun x => Event.callback x = Some (w_callback (wrapper hd)))
                      (handlersOf st el name) = Some (i, hd)).
    { apply list_find_Some. split; [exact Hhd|]. split; [exact Hl|].
      intros j y Hy Hlt Hcy.
      pose proof (wf_callbacks _ _ W _ _ _ _ _ _ _ Hy Hhd Hcy Hl). lia. }
    destruct (remove_native h n st el name _ i hd W Hne Hnat Hfind)
      as (st1 & Hrem & Hh1 & Hother1 & _ & _).
    rewrite Hrem.
    destruct (IH st1) as (st' & Hf & Hh & Hother & W').
    + exact (wf_remove h _ _ _ _ _ _ _ W Hrem).
    + intros x. rewrite Hh1. intros Hx%list_elem_of_delete_inv. exact (Hlive x Hx).
    + exists st'. split; [exact Hf|]. split; [rewrite Hh, Hh1; reflexivity|].
      split; [|exact W']. intros el' name' Hd. rewrite (Hother _ _ Hd). apply Hother1, Hd.
  - rewrite delete_beyond by (apply lookup_ge_None_1, Hhd).
    exact (IH st W Hlive).
Qed.

Lemma remove_name_native_odds n st element name :
  reachable h st -> name <> "" -> isCustomEvent h name = false ->
  objectPrototype h name = false ->
  exists st',
    remove (S (S n)) h st element (Some name) None = Some (st', Ret tt)
    /\ handlersOf st' element name = odds (handlersOf st element name)
    /\ (forall el' name', ~ (el' = element /\ name' = name) ->
          handlersOf st' el' name' = handlersOf st el' name')
    /\ (forall hd ty,
          hd ∈ odds (handlersOf st element name) -> ty ∈ channels h element name ->
          listenerOf element ty hd ∈ listeners st').
Proof.
  intros Hreach Hne Hnat Hproto.
  pose proof (reachable_wf _ _ Hreach) as W.
  pose proof (reachable_nativeLive _ Hreach) as Hlive.
  destruct (sweep_native n element name (seq 0 (length (handlersOf st element name)))
              st Hne Hnat W (fun hd => Hlive element name hd Hnat))
    as (st' & Hf & Hh & Hother & W').
  rewrite (sweep_odds _ [] (handlersOf st element name)) in Hh by lia.
  simpl in Hh.
  assert (Hres : remove (S (S n)) h st element (Some name) None = Some (st', Ret tt)
                 \/ (handlersOf st element name = [] /\
                     remove (S (S n)) h st element (Some name) None = Some (st, Ret tt))).
  { assert (Ht : String.eqb name "" = false)
      by (destruct (String.eqb_spec name ""); [contradiction|reflexivity]).
    assert (Hho : handlersOf st element name
                  = match storage st !! element with
                    | Some model => default [] (getProp model name)
                    | None => []
                    end)
      by (unfold handlersOf, modelOf; destruct (storage st !! element); reflexivity).
    rewrite remove_S. unfold truthyName. rewrite Ht. cbn [negb from_option]. unfold id.
    destruct (storage st !! element) as [model|]; [|auto].
    unfold readProp. rewrite Hproto.
    destruct (getProp model name) as [handlers|]; simpl in Hho; [|auto].
    left. rewrite <- Hho. exact Hf. }
  destruct Hres as [Hres|[Hnil Hres]].
  - exists st'. split; [exact Hres|]. split; [exact Hh|]. split; [exact Hother|].
    intros hd ty Hin Hty. rewrite <- Hh in Hin.
    apply list_elem_of_lookup_1 in Hin as [i Hi].
    apply (wf_registered _ _ W' _ _ _ _ _ Hi); [|exact Hty].
    apply (reachable_nativeLive st' (reach_remove h st _ _ _ _ _ _ Hreach Hres)
             element name hd Hnat).
    exact (list_elem_of_lookup_2 _ _ _ Hi).
  - exists st. split; [exact Hres|]. rewrite Hnil. simpl.
    split; [reflexivity|]. split; [reflexivity|].
    intros hd ty Hin. apply elem_of_nil in Hin. contradiction.
Qed.

(** X5.  For a native event name that is no member of [Object.prototype],
    [remove(element, eventName)] without a callback returns, and removes
    every other handler only: the loop splices the array it walks, so the
    handlers at the odd positions stay in the array and stay registered with
    the host.  The other arrays are untouched. *)
Theorem remove_name_native n st element name :
  reachable h st -> name <> "" -> isCustomEvent h name = false ->
  objectPrototype h name = false ->
  exists st',
    remove (S (S n)) h st element (Some name) None = Some (st', Ret tt)
    /\ handlersOf st' element name = odds (handlersOf st element name)
    /\ (forall el' name', ~ (el' = element /\ name' = name) ->
          handlersOf st' el' name' = handlersOf st el' name')
    /\ (forall hd ty,
          hd ∈ odds (handlersOf st element name) -> ty ∈ channels h element name ->
          listenerOf element ty hd ∈ listeners st').
Proof. exact (remove_name_native_odds n st element name). Qed.

Lemma remove_names_native n element : forall (ks : list string) st,
  reachable h st -> NoDup ks ->
  (forall k, k ∈ ks -> k <> "" /\ isCustomEvent h k = false
                       /\ objectPrototype h k = false) ->
  exists st',
    fold_left
      (fun acc evtName =>
         match acc with
         | Some (st, Ret _) => remove (S (S n)) h st element (Some evtName) None
         | _ => acc
         end) ks (Some (st, Ret tt)) = Some (st', Ret tt)
    /\ (forall name,
          handlersOf st' element name
          = if decide (name ∈ ks) then odds (handlersOf st element name)
            else handlersOf st element name)
    /\ (forall el' name, el' <> element ->
          handlersOf st' el' name = handlersOf st el' name).
Proof.
  induction ks as [|k ks IH]; intros st Hreach Hnd Hks; cbn [fold_left].
  { exists st. split; [reflexivity|]. split; [|reflexivity].
    intros name. destruct (decide _) as [Hin|_]; [|reflexivity].
    apply elem_of_nil in Hin. contradiction. }
  apply NoDup_cons in Hnd as [Hk Hnd].
  destruct (Hks k (list_elem_of_here _ _)) as (Hne & Hnat & Hproto).
  destruct (remove_name_native_odds n st element k Hreach Hne Hnat Hproto)
    as (st1 & Hrem & Hh1 & Hother1 & _).
  rewrite Hrem.
  destruct (IH st1 (reach_remove h st _ _ _ _ _ _ Hreach Hrem) Hnd)
    as (st' & Hf & Hh & Hother).
  { intros k' Hk'. apply Hks, list_elem_of_further, Hk'. }
  exists st'. split; [exact Hf|]. split.
  - intros name. rewrite Hh.
    destruct (decide (name = k)) as [->|Hd].
    + destruct (decide (k ∈ ks)); [contradiction|].
      destruct (decide (k ∈ k :: ks)) as [_|Hn]; [exact Hh1|].
      destruct Hn. apply list_elem_of_here.
    + assert (Hsame : handlersOf st1 element name = handlersOf st element name).
      { apply Hother1. intros [_ ?]. contradiction. }
      rewrite Hsame.
      destruct (decide (name ∈ ks)) as [Hin|Hin];
        destruct (decide (name ∈ k :: ks)) as [Hin'|Hin']; try reflexivity.
      * destruct Hin'. apply list_elem_of_further, Hin.
      * apply elem_of_cons in Hin' as [?|?]; contradiction.
  - intros el' name Hd. rewrite (Hother _ _ Hd). apply Hother1.
    intros [? _]. contradiction.
Qed.

Lemma getProp_present m name : name ∈ fst <$> m -> is_Some (getProp m name).
Proof.
  induction m as [|[k v] m IH]; simpl.
  - intros Hin. apply elem_of_nil in Hin. contradiction.
  - destruct (String.eqb_spec k name) as [->|Hd]; [eauto|].
    intros [?|Hin]%elem_of_cons; [congruence|auto].
Qed.

(** X11.  [remove(element)] without an event name, on an element whose
    event names are all native, does for each name what
    [remove(element, eventName)] does: it leaves the handlers at the odd
    positions of every array, and the handlers of other elements as they
    are. *)
Theorem remove_element_native n st element :
  reachable h st ->
  (forall name, name ∈ fst <$> modelOf st element ->
                name <> "" /\ isCustomEvent h name = false) ->
  exists st',
    remove (S (S (S n))) h st element None None = Some (st', Ret tt)
    /\ (forall name,
          handlersOf st' element name = odds (handlersOf st element name))
    /\ (forall el' name, el' <> element ->
          handlersOf st' el' name = handlersOf st el' name).
Proof.
  intros Hreach Hnames.
  pose proof (reachable_wf _ _ Hreach) as W.
  destruct (remove_names_native n element (fst <$> modelOf st element) st Hreach
              (wf_keys _ _ W element)) as (st' & Hf & Hh & Hother).
  { intros k Hk. destruct (Hnames k Hk) as [Hne Hnat].
    split; [exact Hne|]. split; [exact Hnat|].
    exact (wf_own _ _ W element k (getProp_present _ _ Hk)). }
  assert (Habsent : forall name, name ∉ fst <$> modelOf st element ->
                                 handlersOf st element name = []).
  { intros name Hn. unfold handlersOf. rewrite (getProp_absent _ _ Hn). reflexivity. }
  rewrite remove_S. cbn [truthyName negb].
  unfold modelOf in Hf, Hh, Habsent.
  destruct (storage st !! element) as [model|]; simpl in Hf, Hh, Habsent.
  - exists st'. split; [exact Hf|]. split; [|exact Hother].
    intros name. rewrite Hh. destruct (decide _) as [_|Hn]; [reflexivity|].
    rewrite (Habsent name Hn). reflexivity.
  - exists st. split; [reflexivity|]. split; [|reflexivity].
    intros name. rewrite (Habsent name); [reflexivity|]. apply not_elem_of_nil.
Qed.

Lemma fold_from_None {A} (g : Registry -> A -> option (Registry * throws unit))
    (l : list A) :
  fold_left (fun acc x => match acc with Some (st, Ret _) => g st x | _ => acc end)
    l None = None.
Proof. induction l as [|x l IH]; simpl; auto. Qed.

Lemma remove_custom_keeps_deleted m st el name cb st' r i hd :
  name <> "" -> isCustomEvent h name = true ->
  handlersOf st el name !! i = Some hd -> Event.callback hd = None ->
  remove (S m) h st el (Some name) (Some cb) = Some (st', r) ->
  handlersOf st' el name !! i = Some hd.
Proof.
  intros Hne Hcustom Hhd Hnone Hrem.
  rewrite (remove_callback_unfold m h st el name cb Hne) in Hrem.
  destruct (list_find _ _) as [[index hx]|] eqn:Hfind;
    [|injection Hrem as <- _; exact Hhd].
  apply list_find_Some in Hfind as (Hx & Hcx & _).
  rewrite Hcustom in Hrem. injection Hrem as <- _.
  assert (Hi : index <> i) by (intros ->; congruence).
  unfold handlersOf at 1. unfold modelOf. simpl. rewrite lookup_insert_eq. simpl.
  destruct (<[index := clearCallback hx]> (handlersOf st el name)) as [|a l] eqn:Hins.
  - apply (f_equal length) in Hins. rewrite length_insert in Hins.
    apply lookup_lt_Some in Hx. simpl in Hins. lia.
  - rewrite getProp_setProp_eq. simpl. rewrite <- Hins.
    rewrite list_lookup_insert_ne by exact Hi. exact Hhd.
Qed.

(** A call of [remove] with the callback of a stored handler returns, if it
    ends at all. *)
Lemma remove_stored_returns m st el name cb st' r j hj :
  name <> "" -> handlersOf st el name !! j = Some hj -> Event.callback hj = Some cb ->
  remove (S m) h st el (Some name) (Some cb) = Some (st', r) -> r = Ret tt.
Proof.
  intros Hne Hj Hcb Hrem.
  rewrite (remove_callback_unfold m h st el name cb Hne) in Hrem.
  destruct (list_find _ _) as [[index hx]|] eqn:Hfind;
    [injection Hrem as _ <-; reflexivity|].
  apply list_find_None in Hfind. rewrite Forall_forall in Hfind.
  destruct (Hfind hj (list_elem_of_lookup_2 _ _ _ Hj) Hcb).
Qed.

(** X6.  Once a handler of a custom event name has lost its callback (as
    [remove] with that callback leaves it), [remove(element, eventName)]
    without a callback does not return: on reaching that handler it calls
    itself with the same arguments, so no depth of calls is enough (an
    engine ends it when its call stack is exhausted). *)
Theorem remove_name_never_returns st element name i hd :
  name <> "" -> isCustomEvent h name = true ->
  handlersOf st element name !! i = Some hd -> Event.callback hd = None ->
  forall fuel, remove fuel h st element (Some name) None = None.
Proof.
  intros Hne Hcustom Hhd Hnone fuel. revert st Hhd.
  induction fuel as [|n IH]; intros st Hhd; [reflexivity|].
  assert (Hloop : forall idx st1,
             handlersOf st1 element name !! i = Some hd -> i ∈ idx ->
             fold_left
               (fun acc j =>
                  match acc with
                  | Some (st, Ret _) =>
                      match handlersOf st element name !! j with
                      | Some handler =>
                          remove n h st element (Some name) (Event.callback handler)
                      | None => Some (st, Ret tt)
                      end
                  | _ => acc
                  end) idx (Some (st1, Ret tt)) = None).
  { induction idx as [|j idx IHidx]; intros st1 H1 Hin; cbn [fold_left].
    { apply elem_of_nil in Hin. contradiction. }
    destruct (handlersOf st1 element name !! j) as [hj|] eqn:Hj.
    - destruct (Event.callback hj) as [cb|] eqn:Hcb.
      + destruct (remove n h st1 element (Some name) (Some cb)) as [[st2 r2]|] eqn:Hrem;
          [|apply fold_from_None].
        destruct n as [|m]; [discriminate|].
        rewrite (remove_stored_returns m st1 element name cb st2 r2 j hj Hne Hj Hcb Hrem)
          in *.
        apply IHidx.
        * exact (remove_custom_keeps_deleted m st1 element name cb st2 _ i hd
                   Hne Hcustom H1 Hnone Hrem).
        * apply elem_of_cons in Hin as [->|Hin]; [congruence|exact Hin].
      + rewrite (IH st1 H1). apply fold_from_None.
    - apply IHidx; [exact H1|].
      apply elem_of_cons in Hin as [->|Hin]; [congruence|exact Hin]. }
  assert (Ht : String.eqb name "" = false)
    by (destruct (String.eqb_spec name ""); [contradiction|reflexivity]).
  assert (Hho : handlersOf st element name
                = match storage st !! element with
                  | Some model => default [] (getProp model name)
                  | None => []
                  end)
    by (unfold handlersOf, modelOf; destruct (storage st !! element); reflexivity).
  rewrite remove_S. unfold truthyName. rewrite Ht. cbn [negb from_option]. unfold id.
  destruct (storage st !! element) as [model|];
    [|rewrite Hho in Hhd; discriminate].
  unfold readProp.
  destruct (getProp model name) as [handlers|]; simpl in Hho;
    [|rewrite Hho in Hhd; discriminate].
  apply Hloop; [exact Hhd|]. rewrite <- Hho.
  apply elem_of_seq. apply lookup_lt_Some in Hhd. lia.
Qed.

Lemma dropListener_appended l ls l' rest :
  (forall x, x ∈ ls -> sameListener l x = false) -> sameListener l l' = true ->
  dropListener l (ls ++ l' :: rest) = (ls ++ rest)%list.
Proof.
  intros Hno Hsame. induction ls as [|x ls IH]; simpl.
  - rewrite Hsame. reflexivity.
  - rewrite (Hno x (list_elem_of_here _ _)). f_equal. apply IH.
    intros y Hy. apply Hno, list_elem_of_further, Hy.
Qed.

Lemma dropAll_appended el hd tys : forall ls,
  (forall x, x ∈ ls -> w_id (l_wrapper x) <> w_id (wrapper hd)) ->
  fold_left (fun ls ty => dropListener (listenerOf el ty hd) ls) tys
    (ls ++ ((fun ty => listenerOf el ty hd) <$> tys))%list
  = ls.
Proof.
  induction tys as [|ty tys IH]; intros ls Hfresh; simpl; [apply app_nil_r|].
  rewrite dropListener_appended.
  - apply IH, Hfresh.
  - intros x Hx. destruct (sameListener _ x) eqn:Hs; [|reflexivity].
    apply sameListener_true in Hs as (_ & _ & Hid). simpl in Hid.
    destruct (Hfresh x Hx). congruence.
  - apply sameListener_true. auto.
Qed.

Lemma insert_last {A} (l : list A) x y :
  <[length l := y]> (l ++ [x])%list = (l ++ [y])%list.
Proof. induction l as [|a l IH]; simpl; [reflexivity|]. f_equal. exact IH. Qed.

(** X7.  Registering a callback that is not yet registered and removing it
    again gives the host back the listeners it had.  For a native event name
    every handler array is as before; for a custom one the array has grown
    by one record without callback. *)
Theorem add_remove_restores n st arg name cb st1 el :
  reachable h st -> name <> "" ->
  (forall hd, hd ∈ handlersOf st el name -> Event.callback hd <> Some cb) ->
  add h st arg name cb = (st1, Ret el) ->
  exists st2,
    remove (S n) h st1 el (Some name) (Some cb) = Some (st2, Ret tt)
    /\ listeners st2 = listeners st
    /\ (forall el' name', ~ (el' = el /\ name' = name) ->
          handlersOf st2 el' name' = handlersOf st el' name')
    /\ handlersOf st2 el name
       = if isCustomEvent h name
         then (handlersOf st el name
               ++ [{| wrapper := {| w_id := nextId st; w_element := el;
                                    w_eventName := name; w_callback := cb |};
                      Event.callback := None |}])%list
         else handlersOf st el name.
Proof.
  intros Hreach Hne Hno Hadd.
  pose proof (reachable_wf _ _ Hreach) as W.
  pose proof (wf_add _ _ _ _ _ _ _ W Hadd) as W1.
  assert (Hc : contains (Event.callback <$> handlersOf st el name) cb = false).
  { destruct (contains _ cb) eqn:Hc; [|reflexivity].
    apply contains_callback in Hc as (i & hd & Hi & Hcb).
    destruct (Hno hd (list_elem_of_lookup_2 _ _ _ Hi) Hcb). }
  destruct (add_fresh _ _ _ _ _ _ _ Hadd Hc) as (Hm & Hl & _).
  { intros l Hin. pose proof (wf_listener_id _ _ _ W Hin). lia. }
  set (hd0 := {| wrapper := {| w_id := nextId st; w_element := el;
                               w_eventName := name; w_callback := cb |};
                 Event.callback := Some cb |}) in *.
  pose proof (handlersOf_setProp st st1 el name _ Hm) as Hh1.
  assert (Hfind : list_find (fun hd => Event.callback hd = Some cb)
                    (handlersOf st1 el name)
                  = Some (length (handlersOf st el name), hd0)).
  { rewrite Hh1. destruct (decide _) as [_|Hd]; [|destruct Hd; auto].
    apply list_find_Some. split; [|split; [reflexivity|]].
    - rewrite lookup_app_r by lia. rewrite Nat.sub_diag. reflexivity.
    - intros j y Hy Hlt. rewrite lookup_app_l in Hy by exact Hlt.
      exact (Hno y (list_elem_of_lookup_2 _ _ _ Hy)). }
  destruct (remove_callback_returns h n st1 el name cb _ hd0 Hne Hfind) as [st2 Hrem].
  destruct (remove_callback_found h n st1 el name cb _ hd0 st2 _ Hne
              (wf_keys _ _ W1 el) Hfind Hrem) as (_ & Hh2 & _ & Hl2 & _ & _).
  exists st2. split; [exact Hrem|]. split; [|split].
  - rewrite Hl2, Hl. apply dropAll_appended.
    intros x Hx. pose proof (wf_listener_id _ _ _ W Hx). simpl. lia.
  - intros el' name' Hd. rewrite Hh2.
    destruct (decide _); [contradiction|]. rewrite Hh1.
    destruct (decide _); [contradiction|reflexivity].
  - rewrite Hh2. destruct (decide _) as [_|Hd]; [|destruct Hd; auto].
    rewrite Hh1. destruct (decide _) as [_|Hd]; [|destruct Hd; auto].
    destruct (isCustomEvent h name).
    + apply insert_last.
    + rewrite delete_middle. apply app_nil_r.
Qed.

(** X1.  In every registry the module can be in, the listeners the host
    holds are, each once, the listeners of the stored handlers that still
    have their callback, under the event types their names are registered
    under: no listener outlives its handler and no such handler is without
    its listener. *)
Theorem listeners_match_handlers st :
  reachable h st ->
  NoDup (listeners st)
  /\ forall l,
       l ∈ listeners st <->
       exists el name hd ty,
         hd ∈ handlersOf st el name /\ live hd /\ ty ∈ channels h el name
         /\ l = listenerOf el ty hd.
Proof.
  intros Hreach. pose proof (reachable_wf _ _ Hreach) as W.
  split; [apply (wf_nodup _ _ W)|]. intros l. split.
  - intros Hl. destruct (wf_listeners _ _ W l Hl) as (i & hd & Hhd & Hw & Hlive & Hty).
    exists (l_node l), (w_eventName (l_wrapper l)), hd, (l_type l).
    split; [exact (list_elem_of_lookup_2 _ _ _ Hhd)|]. split; [exact Hlive|].
    split; [exact Hty|]. destruct l. unfold listenerOf. simpl in *. congruence.
  - intros (el & name & hd & ty & Hin & Hlive & Hty & ->).
    apply list_elem_of_lookup_1 in Hin as [i Hi].
    exact (wf_registered _ _ W _ _ _ _ _ Hi Hlive Hty).
Qed.

(** X8.  [add] puts the new handler behind those already registered: an
    event reaching a node after the call makes the calls it made before, in
    the same order, followed by calls of the new callback on its element. *)
Theorem add_calls_last st arg name cb st' el node ty event :
  reachable h st -> add h st arg name cb = (st', Ret el) ->
  exists more,
    deliver h st' node ty event = (deliver h st node ty event ++ more)%list
    /\ forall c, c ∈ more -> callee c = cb /\ this c = el.
Proof.
  intros Hreach Hadd. pose proof (reachable_wf _ _ Hreach) as W.
  destruct (contains (Event.callback <$> handlersOf st el name) cb) eqn:Hc.
  - rewrite (add_present _ _ _ _ _ _ (resolved_element _ _ _ _ _ _ _ Hadd) Hc) in Hadd.
    injection Hadd as <-. exists []. rewrite app_nil_r. split; [reflexivity|].
    intros c Hin. apply elem_of_nil in Hin. contradiction.
  - destruct (add_fresh _ _ _ _ _ _ _ Hadd Hc) as (_ & Hl & _).
    { intros l Hin. pose proof (wf_listener_id _ _ _ W Hin). lia. }
    unfold deliver. rewrite Hl, omap_app. eexists. split; [reflexivity|].
    intros c (l & Hin & Hcall)%list_elem_of_omap.
    apply list_elem_of_fmap in Hin as (ty0 & -> & _). simpl in Hcall.
    destruct (_ && _); [|discriminate].
    apply applyWrapper_call in Hcall as (_ & Hcallee & Hthis & _).
    simpl in *. auto.
Qed.

(** X9.  Whatever [fire] makes the host call, on the element the event is
    dispatched at or on a node it bubbles to, the callback receives an event
    whose model is the data fired (an empty object when there was none), is
    called on the element its handler was registered for, and, when it was
    registered for a custom event name, that name is the one fired. *)
Theorem fire_calls st element eventName data bubbles c :
  c ∈ snd (fire h st element eventName data bubbles) ->
  model (argument c) = Some (match data with Some d => d | None => [] end)
  /\ this c = w_element (caller c)
  /\ callee c = w_callback (caller c)
  /\ (isCustomEvent h (w_eventName (caller c)) = true ->
      w_eventName (caller c) = eventName).
Proof.
  assert (Hgen : forall ty view path,
             (forall node,
                model (view node) = Some (match data with Some d => d | None => [] end)
                /\ Event.eventName (view node) = Some eventName) ->
             c ∈ propagate h st ty view path ->
             model (argument c) = Some (match data with Some d => d | None => [] end)
             /\ this c = w_element (caller c)
             /\ callee c = w_callback (caller c)
             /\ (isCustomEvent h (w_eventName (caller c)) = true ->
                 w_eventName (caller c) = eventName)).
  { intros ty view path Hview Hin.
    destruct (propagate_elem _ _ _ _ _ _ Hin) as (node & _ & Hd).
    destruct (Hview node) as [Hmodel Hname].
    destruct (deliver_call _ _ _ _ _ _ Hd) as (l & _ & _ & _ & Hcall).
    apply applyWrapper_call in Hcall as (Hcaller & Hcallee & Hthis & Harg & Hcustom).
    rewrite Hcaller. split; [|split; [exact Hthis|split; [exact Hcallee|]]].
    - rewrite Harg. unfold normalize. destruct (negb (window_attachEvent h)).
      + exact Hmodel.
      + simpl. rewrite Hmodel. reflexivity.
    - intros Hc. specialize (Hcustom Hc). congruence. }
  rewrite fire_calls_unfold. destruct (createEvent h).
  - apply Hgen. intros node. destruct data; split; reflexivity.
  - destruct (createEventObject h).
    + apply Hgen. intros node. destruct data, bubbles as [[]|]; split; reflexivity.
    + intros Hin. apply elem_of_nil in Hin. contradiction.
Qed.

(** X10.  [fireContentLoadedEvent] fires "dom:loaded" once: the first call
    sets [document.loaded] and makes the calls of one [fire] on the
    document, the calls after it do nothing. *)
Theorem content_loaded_once st n :
  contentLoadedCalls h st false (S n)
  = snd (fire h st (document h) "dom:loaded" (Some []) None)
  /\ contentLoadedCalls h st true n = []
  /\ forall loaded, fst (fireContentLoadedEvent h st loaded) = true.
Proof.
  assert (Hdone : forall k, contentLoadedCalls h st true k = []).
  { induction k as [|k IH]; simpl; [reflexivity|exact IH]. }
  split; [|split; [apply Hdone|]].
  - simpl. rewrite Hdone. apply app_nil_r.
  - intros [|]; reflexivity.
Qed.

End RemovalProps.

(** ** The view a legacy host's handlers receive *)

Section ViewProps.
Context `{JsString}.
Import Event.
Variable h : Host.

Lemma applyWrapper_argument w event c :
  applyWrapper h w event = Some c ->
  this c = w_element w /\ argument c = normalize h event (w_element w).
Proof.
  unfold applyWrapper. destruct (isCustomEvent h (w_eventName w)).
  - destruct (Event.eventName event) as [nm|]; [|discriminate].
    destruct (negb _); [discriminate|]. intros [= <-]. simpl. auto.
  - intros [= <-]. simpl. auto.
Qed.

Lemma view_scroll root (body : option Element) p z :
  match body with Some b => p (dom h b) = Num z | None => z = 0 end ->
  jsor (jsor root (andProp h body p)) (Num 0) = Num (scrollOr root z).
Proof.
  intros Hb. unfold scrollOr, jsor at 2. destruct (truthy root) eqn:Hr.
  - unfold jsor. rewrite Hr. destruct root; try discriminate Hr. reflexivity.
  - rewrite jsor_zero. destruct body as [b|]; simpl.
    + rewrite Hb. reflexivity.
    + rewrite Hb. reflexivity.
Qed.

Lemma view_offset root (body : option Element) (misspelt : Node.t -> jsnum) :
  (forall n, misspelt n = Undefined) ->
  jsor (jsor root (andProp h body misspelt)) (Num 0) = Num (orZero root).
Proof.
  intros Hm. unfold jsor at 2. destruct (truthy root) eqn:Hr.
  - apply jsor_zero.
  - assert (H0 : orZero root = 0).
    { destruct root as [| |z|]; try reflexivity. simpl in Hr.
      destruct (Z.eqb_spec z 0); [assumption|discriminate]. }
    rewrite H0. destruct body as [b|]; simpl; [rewrite Hm|]; reflexivity.
Qed.

(** X17.  On a host with [window.attachEvent], the view [normalize] builds
    has page coordinates only when the event's [clientX] is not [null],
    whatever its [clientY]; when both client coordinates are numbers, each
    page coordinate is the client coordinate plus the scroll offset (the
    root element's, or the body's when the root's is zero or missing) minus
    the root element's client offset, the body's client offset never being
    used. *)
Theorem normalize_page event element :
  window_attachEvent h = true ->
  (clientX event = Null ->
   pageX (normalize h event element) = Undefined
   /\ pageY (normalize h event element) = Undefined)
  /\ (forall cx cy bl bt,
        clientX event = Num cx -> clientY event = Num cy ->
        bodyScroll h Node.scrollLeft bl -> bodyScroll h Node.scrollTop bt ->
        pageX (normalize h event element)
        = Num (cx + scrollOr (Node.scrollLeft (dom h (documentElement h))) bl
               - orZero (Node.clientLeft (dom h (documentElement h))))
        /\ pageY (normalize h event element)
           = Num (cy + scrollOr (Node.scrollTop (dom h (documentElement h))) bt
                  - orZero (Node.clientTop (dom h (documentElement h))))).
Proof.
  intros Hw. unfold normalize. rewrite Hw. simpl. split.
  - intros ->. split; reflexivity.
  - intros cx cy bl bt Hx Hy Hbl Hbt. rewrite Hx, Hy.
    rewrite (view_scroll _ _ Node.scrollLeft bl Hbl), (view_scroll _ _ Node.scrollTop bt Hbt).
    rewrite (view_offset _ _ cientLeft), (view_offset _ _ cientTop) by reflexivity.
    split; reflexivity.
Qed.

(** X18.  On a host with [window.attachEvent], [element] applied to the
    event a callback receives resolves a [load] or [error] event, and a
    [click] on a radio input, to the element the handler was registered on,
    and any other event to the [srcElement] of the host's event, a text node
    giving way to its parent; the host event's own [target] is not read. *)
Theorem element_of_view w event c :
  window_attachEvent h = true ->
  applyWrapper h w event = Some c ->
  let el := w_element w in
  (truthyName (Node.tagName (dom h el)) = true ->
   attachmentEvent (Event.type event) (dom h el) ->
   element h (argument c)
   = Ret (if Z.eqb (Node.nodeType (dom h el)) TEXT_NODE
          then Node.parentNode (dom h el) else Some el))
  /\ (truthyName (Node.tagName (dom h el)) = false
      \/ ~ attachmentEvent (Event.type event) (dom h el) ->
      element h (argument c)
      = match srcElement event with
        | Some t => Ret (if Z.eqb (Node.nodeType (dom h t)) TEXT_NODE
                         then Node.parentNode (dom h t) else Some t)
        | None => Throw "TypeError"
        end).
Proof.
  intros Hw Hc el. destruct (applyWrapper_argument w event c Hc) as [_ ->].
  fold el. rewrite element_unfold. unfold normalize. rewrite Hw. simpl. split.
  - intros Htag Hev. rewrite Htag, (attachmentEvent_true _ _ Hev). simpl.
    destruct (Z.eqb _ _); reflexivity.
  - intros Hno.
    assert (Hm : truthyName (Node.tagName (dom h el)) &&
                 (String.eqb (Event.type event) "load" || String.eqb (Event.type event) "error" ||
                  (String.eqb (Event.type event) "click" &&
                   bool_decide (toLowerCase <$> Node.tagName (dom h el) = Some "input") &&
                   bool_decide (Node.type (dom h el) = Some "radio"))) = false).
    { destruct Hno as [-> | Hno]; [reflexivity|].
      rewrite (attachmentEvent_false _ _ Hno). apply andb_false_r. }
    rewrite Hm. destruct (srcElement event) as [t|]; [|reflexivity].
    destruct (Z.eqb _ _); reflexivity.
Qed.

End ViewProps.

(** ** The statements at work on the sample page *)

(** Shift alone is ignored; Return with all three modifiers held is looked up
    as "alt_ctrl_shift_return". *)
Lemma dispatch_keydown_witness :
  KeyMap.dispatch FunctionKeys (KeyMap.new None) None
    (Some (keyEvent "keydown" 16 None false false true)) = Ret None
  /\ KeyMap.keyOf FunctionKeys (keyEvent "keydown" 13 None true true true)
     = Some ("alt_ctrl_shift_", Some "return").
Proof.
  split.
  - apply (proj1 (dispatch_keydown FunctionKeys (KeyMap.new None) None
                    (keyEvent "keydown" 16 None false false true) eq_refl)).
    left. reflexivity.
  - apply (proj2 (dispatch_keydown FunctionKeys (KeyMap.new None) None
                    (keyEvent "keydown" 13 None true true true) eq_refl) "return");
      first [ reflexivity | discriminate ].
Defined.

(** A key-press producing "L" does not reach a handler bound to "l". *)
Lemma dispatch_keypress_uppercase_witness :
  KeyMap.dispatch FunctionKeys (KeyMap.new (Some [("l", KeyMap.Fn 1)])) None
    (Some (keyEvent "keypress" 76 (Some 76) false false false)) = Ret None.
Proof.
  apply (dispatch_keypress_uppercase FunctionKeys
           (KeyMap.new (Some [("l", KeyMap.Fn 1)])) None
           (keyEvent "keypress" 76 (Some 76) false false false) eq_refl).
  - discriminate.
  - reflexivity.
Defined.

Example keypress_shift_l :
  KeyMap.inv_key <$>
    (match KeyMap.dispatch FunctionKeys
             (KeyMap.new (Some [("Shift_L", KeyMap.Fn 2)])) None
             (Some (keyEvent "keypress" 76 (Some 76) false false false)) with
     | Ret r => r
     | Throw _ => None
     end) = Some "shift_l".
Proof. reflexivity. Qed.

(** In the ASCII fragment a key that is its own lowercase form has no
    uppercase letter. *)
Lemma keys_no_uppercase bindings ops k :
  is_Some (KeyMap.map (KeyMap.run (KeyMap.new bindings) ops) !! k) ->
  hasUpper k = false.
Proof.
  intros [b Hb].
  pose proof (run_lowercase ops _ (new_lowercase bindings) k b Hb) as Hk.
  simpl in Hk. rewrite <- Hk. apply lowerString_no_upper.
Qed.

(** The function registered for "login:request" calls the callback on an
    event with that name. *)
Lemma wrapper_filters_custom_witness :
  Event.applyWrapper w3cHost
    {| Event.w_id := 0; Event.w_element := 5%nat;
       Event.w_eventName := "login:request"; Event.w_callback := 7%nat |}
    loginRequest
  = Some {| Event.caller :=
              {| Event.w_id := 0; Event.w_element := 5%nat;
                 Event.w_eventName := "login:request"; Event.w_callback := 7%nat |};
            Event.callee := 7%nat; Event.this := 5%nat;
            Event.argument := Event.normalize w3cHost loginRequest 5%nat |}.
Proof.
  apply (proj1 (wrapper_filters_custom w3cHost Event.empty (Event.ByRef (Some 5%nat))
                  "login:request" 7%nat oneCustom 5%nat
                  {| Event.l_node := 5%nat; Event.l_type := "dataavailable";
                     Event.l_wrapper :=
                       {| Event.w_id := 0; Event.w_element := 5%nat;
                          Event.w_eventName := "login:request";
                          Event.w_callback := 7%nat |} |}
                  loginRequest eq_refl (list_elem_of_here _ _) (not_elem_of_nil _))
               eq_refl).
  reflexivity.
Defined.

(** Firing "login:request" with a user name reaches the handler registered
    for it once, with the model; a handler registered for another custom
    event on the same element is not called. *)
Example fire_login_request :
  List.map (fun c => (Event.callee c, Event.model (Event.argument c)))
    (snd (Event.fire w3cHost
            (fst (Event.add w3cHost oneCustom (Event.ByRef (Some 5%nat))
                    "logout:request" 8%nat))
            5%nat "login:request" (Some [("username", "hsimpson")]) None))
  = [(7%nat, Some [("username", "hsimpson")])].
Proof. reflexivity. Qed.

(** The event bubbles: with the callback registered for the name on the
    list and on the body, firing on the list calls it on the list, then on
    the body; fired on the document, it reaches neither. *)
Example fire_bubbles :
  List.map (fun c => (Event.callee c, Event.this c))
    (snd (Event.fire w3cHost
            (registerAll w3cHost 2%nat [("login:request", 7%nat)] oneCustom)
            5%nat "login:request" None None))
  = [(7%nat, 5%nat); (7%nat, 2%nat)]
  /\ snd (Event.fire w3cHost
            (registerAll w3cHost 2%nat [("login:request", 7%nat)] oneCustom)
            0%nat "login:request" None None) = [].
Proof. split; reflexivity. Qed.

(** A callback that stops the propagation keeps the event from the
    ancestors: callback 13 on the list is called, callback 7 on the body is
    not. *)
Example fire_stopped :
  List.map (fun c => (Event.callee c, Event.this c))
    (snd (Event.fire w3cHost
            (registerAll w3cHost 2%nat [("login:request", 7%nat)]
               (registerAll w3cHost 5%nat [("login:request", 13%nat)] Event.empty))
            5%nat "login:request" None None))
  = [(13%nat, 5%nat)].
Proof. reflexivity. Qed.

(** On the legacy host [fire] with [bubbles] false goes no further than the
    element. *)
Example fire_legacy_bubbles :
  List.map (fun c => (Event.callee c, Event.this c))
    (snd (Event.fire legacyHost
            (registerAll legacyHost 2%nat [("login:request", 8%nat)]
               (registerAll legacyHost 5%nat [("login:request", 7%nat)] Event.empty))
            5%nat "login:request" None (Some false)))
  = [(7%nat, 5%nat)]
  /\ List.map (fun c => (Event.callee c, Event.this c))
       (snd (Event.fire legacyHost
               (registerAll legacyHost 2%nat [("login:request", 8%nat)]
                  (registerAll legacyHost 5%nat [("login:request", 7%nat)] Event.empty))
               5%nat "login:request" None None))
     = [(7%nat, 5%nat); (8%nat, 2%nat)].
Proof. split; reflexivity. Qed.

(** With no constructor [fire] returns nothing; with [createEventObject] and
    no data the event carries the name and an empty model. *)
Lemma fire_result_witness :
  Event.fire bareHost oneCustom 5%nat "login:request" None None = (None, [])
  /\ exists event,
       fst (Event.fire legacyHost Event.empty 5%nat "login:request" None (Some false))
       = Some event
       /\ Event.eventName event = Some "login:request"
       /\ Event.model event = Some [].
Proof.
  split.
  - apply (proj1 (fire_result bareHost oneCustom 5%nat "login:request" None None));
      reflexivity.
  - apply (proj2 (fire_result legacyHost Event.empty 5%nat "login:request" None
                    (Some false))).
    right. reflexivity.
Defined.

(** C7.  A string that does not resolve makes [add] throw before any
    update, and "navigation" resolves to node 5, which [add] returns for
    the event name "click".  For the event name "constructor" it does not
    return the element it has resolved: [model["constructor"]] is the
    inherited [Object], [handlers.map] is not a function, and [add] throws a
    [TypeError], leaving node 5 with a storage slot and in the cache, and no
    listener registered. *)
Lemma add_inherited_name_throws :
  Event.add w3cHost Event.empty (Event.ById "sidebar") "click" 7%nat
  = (Event.empty,
     Throw ("Invalid element provided for event " ++ Event.quote ++ "click" ++ Event.quote))
  /\ snd (Event.add w3cHost Event.empty (Event.ById "navigation") "click" 7%nat)
     = Ret 5%nat
  /\ Event.add w3cHost Event.empty (Event.ById "navigation") "constructor" 7%nat
     = ({| Event.storage := {[ 5%nat := [] ]}; Event.eventCache := [5%nat];
           Event.listeners := []; Event.nextId := 0 |},
        Throw "TypeError").
Proof. repeat split. Qed.

(** C9, as stated, fails: a [load] event observed on the window (node 9,
    which has no tag name) resolves to its target, the document, not to the
    node the listener is attached to. *)
Lemma element_load_window_counterexample :
  Event.type (sampleEvent "load" (Some 0%nat) (Some 9%nat) Undefined Undefined) = "load"
  /\ Event.currentTarget (sampleEvent "load" (Some 0%nat) (Some 9%nat) Undefined Undefined)
     = Some 9%nat
  /\ Event.element w3cHost (sampleEvent "load" (Some 0%nat) (Some 9%nat) Undefined Undefined)
     = Ret (Some 0%nat).
Proof. repeat split. Qed.

(** A [load] event on an image-like element resolves to the element it is
    observed on; a click inside an anchor's text resolves to the anchor. *)
Lemma element_resolves_witness :
  Event.element w3cHost (sampleEvent "load" (Some 4%nat) (Some 5%nat) Undefined Undefined)
  = Ret (Some 5%nat)
  /\ Event.element w3cHost (sampleEvent "click" (Some 3%nat) None Undefined Undefined)
     = Ret (Some 4%nat).
Proof.
  split.
  - apply (proj1 (element_resolves w3cHost
                    (sampleEvent "load" (Some 4%nat) (Some 5%nat) Undefined Undefined))
             5%nat eq_refl eq_refl).
    + left. reflexivity.
    + discriminate.
  - apply (proj2 (element_resolves w3cHost
                    (sampleEvent "click" (Some 3%nat) None Undefined Undefined))
             3%nat eq_refl I).
    reflexivity.
Defined.

(** C5, as stated, fails: on the legacy host the view [normalize] builds of
    a click at client position (2, 2) has page coordinates (0, 0), present
    and equal to zero, and [pointer] returns (2, 2). *)
Lemma pointer_zero_page_counterexample :
  Event.pageX (Event.normalize legacyHost
                 (sampleEvent "click" (Some 5%nat) None (Num 2) Undefined) 5%nat) = Num 0
  /\ Event.pageY (Event.normalize legacyHost
                    (sampleEvent "click" (Some 5%nat) None (Num 2) Undefined) 5%nat) = Num 0
  /\ Event.pointer legacyHost
       (Event.normalize legacyHost
          (sampleEvent "click" (Some 5%nat) None (Num 2) Undefined) 5%nat)
     = {| Event.x := Num 2; Event.y := Num 2 |}.
Proof. repeat split. Qed.

(** A page coordinate of 120 is returned as it is; without one, a client
    coordinate of 40 on an unscrolled page gives 40. *)
Lemma pointer_coordinates_witness :
  Event.x (Event.pointer w3cHost
             (sampleEvent "click" (Some 5%nat) None (Num 40) (Num 120))) = Num 120
  /\ Event.y (Event.pointer w3cHost
                (sampleEvent "click" (Some 5%nat) None (Num 40) Undefined)) = Num 40.
Proof.
  split.
  - apply (proj1 (pointer_coordinates w3cHost
                    (sampleEvent "click" (Some 5%nat) None (Num 40) (Num 120))));
      [reflexivity | discriminate].
  - apply (proj2 (proj2 (proj2 (pointer_coordinates w3cHost
                    (sampleEvent "click" (Some 5%nat) None (Num 40) Undefined))))
             40 0);
      reflexivity.
Defined.

(** Registering the callback for "login:request" a second time leaves the
    registry as it is, with one record for the callback, and firing the
    event on the list calls it once. *)
Lemma add_twice_witness :
  Event.add w3cHost oneCustom (Event.ByRef (Some 5%nat)) "login:request" 7%nat
  = (oneCustom, Ret 5%nat)
  /\ length (filter (fun hd => Event.callback hd = Some 7%nat)
               (Event.handlersOf oneCustom 5%nat "login:request")) = 1%nat
  /\ length (filter (fun c => Event.w_eventName (Event.caller c) = "login:request"
                              /\ Event.callee c = 7%nat)
               (snd (Event.fire w3cHost oneCustom 5%nat "login:request" None None)))
     = 1%nat.
Proof.
  pose proof (add_twice w3cHost Event.empty (Event.ByRef (Some 5%nat))
                "login:request" 7%nat oneCustom 5%nat
                (reach_empty w3cHost) eq_refl) as (Hsecond & Hone & _ & _ & Hfire).
  split; [exact Hsecond|]. split; [exact Hone|].
  assert (Hafter : forall node : Element,
             node ∈ [2%nat; 1%nat; 0%nat; 9%nat] ->
             node <> 5%nat /\ Event.handlersOf oneCustom node "login:request" = []).
  { intros node Hin.
    repeat (apply elem_of_cons in Hin as [->|Hin]; [split; [discriminate|reflexivity]|]).
    apply elem_of_nil in Hin. contradiction. }
  apply (Hfire eq_refl (or_introl (conj eq_refl eq_refl)) 5%nat None None
           [] [2%nat; 1%nat; 0%nat; 9%nat] eq_refl).
  - apply not_elem_of_nil.
  - intros Hin. destruct (Hafter _ Hin) as [Hne _]. congruence.
  - intros c _ Hin. apply elem_of_nil in Hin. contradiction.
  - intros node hd Hin Hhd. destruct (Hafter _ Hin) as [_ Hnil].
    rewrite Hnil in Hhd. apply elem_of_nil in Hhd. contradiction.
Defined.

(** C2 at a custom event name: removing the only handler of
    "login:request" deregisters it from the host and deletes its callback,
    but the record stays in the array and the name keeps its entry. *)
Lemma remove_custom_leaves_record :
  Event.remove 1 w3cHost oneCustom 5%nat (Some "login:request") (Some 7%nat)
  = Some (oneCustomRemoved, Ret tt)
  /\ length (Event.handlersOf oneCustomRemoved 5%nat "login:request") = 1%nat
  /\ Event.getProp (Event.modelOf oneCustomRemoved 5%nat) "login:request"
     = Some [{| Event.wrapper :=
                  {| Event.w_id := 0; Event.w_element := 5%nat;
                     Event.w_eventName := "login:request";
                     Event.w_callback := 7%nat |};
                Event.callback := None |}].
Proof. repeat split. Qed.

(** The same on a native event name removes the record and the entry. *)
Example remove_native_deletes_entry :
  match Event.remove 1 w3cHost
          (fst (Event.add w3cHost Event.empty (Event.ByRef (Some 5%nat)) "click" 7%nat))
          5%nat (Some "click") (Some 7%nat) with
  | Some (st', Ret _) => Some (Event.modelOf st' 5%nat, Event.listeners st')
  | _ => None
  end = Some ([], []).
Proof. reflexivity. Qed.

(** ** The further statements at work on the sample page *)

Lemma registerAll_reachable h element regs : forall st,
  reachable h st -> reachable h (registerAll h element regs st).
Proof.
  induction regs as [|r regs IH]; intros st Hreach; [exact Hreach|].
  unfold registerAll. cbn [fold_left]. apply IH.
  destruct (Event.add h st (Event.ByRef (Some element)) (fst r) (snd r))
    as [st' res] eqn:Hadd.
  exact (reach_add h st _ _ _ st' res Hreach Hadd).
Qed.

Lemma oneCustom_reachable : reachable w3cHost oneCustom.
Proof.
  exact (reach_add w3cHost Event.empty (Event.ByRef (Some 5%nat)) "login:request" 7%nat
           oneCustom (Ret 5%nat) (reach_empty w3cHost) eq_refl).
Qed.

Lemma threeClicks_reachable : reachable w3cHost threeClicks.
Proof. apply registerAll_reachable, reach_empty. Qed.

(** "Return" and "RETURN" both name the key "return"; the later one wins. *)
Example new_return_twice :
  KeyMap.map (KeyMap.new (Some [("Return", KeyMap.Fn 1); ("RETURN", KeyMap.Fn 2)]))
  !! "return" = Some (KeyMap.Fn 2).
Proof. reflexivity. Qed.

(** A handler bound as "Ctrl_Return" is invoked by Return with Ctrl held. *)
Lemma bind_dispatch_witness :
  exists inv,
    KeyMap.dispatch FunctionKeys
      (KeyMap.bind (KeyMap.new None) "Ctrl_Return" (KeyMap.Fn 4)) None
      (Some (keyEvent "keydown" 13 None false true false)) = Ret (Some inv)
    /\ KeyMap.inv_func inv = 4%nat /\ KeyMap.inv_key inv = "ctrl_return".
Proof.
  exact (proj1 (bind_dispatch FunctionKeys (KeyMap.new None) "Ctrl_Return" 4%nat None
                  (keyEvent "keydown" 13 None false true false)
                  "ctrl_" (Some "return") eq_refl)
           eq_refl).
Defined.

(** A key-press producing "l" with Shift held reaches the handler bound to
    "l". *)
Lemma dispatch_keypress_plain_witness :
  exists inv,
    KeyMap.dispatch FunctionKeys (KeyMap.new (Some [("l", KeyMap.Fn 1)])) None
      (Some (keyEvent "keypress" 108 (Some 108) false false true)) = Ret (Some inv)
    /\ KeyMap.inv_func inv = 1%nat /\ KeyMap.inv_key inv = "l".
Proof.
  assert (H0 : Some 108 <> Some 0) by discriminate.
  exact (proj1 (proj2 (dispatch_keypress_plain FunctionKeys
                         (KeyMap.new (Some [("l", KeyMap.Fn 1)])) None
                         (keyEvent "keypress" 108 (Some 108) false false true)
                         eq_refl eq_refl eq_refl H0 eq_refl))
           1%nat eq_refl).
Defined.

(** A key-up event invokes the handler bound to "null". *)
Lemma dispatch_other_type_witness :
  exists inv,
    KeyMap.dispatch FunctionKeys (KeyMap.new (Some [("null", KeyMap.Fn 3)])) None
      (Some (keyEvent "keyup" 65 None false false false)) = Ret (Some inv)
    /\ KeyMap.inv_func inv = 3%nat /\ KeyMap.inv_key inv = "null".
Proof.
  assert (Hd : "keyup" <> "keydown") by discriminate.
  assert (Hp : "keyup" <> "keypress") by discriminate.
  exact (proj1 (dispatch_other_type FunctionKeys
                  (KeyMap.new (Some [("null", KeyMap.Fn 3)])) None
                  (keyEvent "keyup" 65 None false false false) Hd Hp)
           3%nat eq_refl).
Defined.

(** The three click handlers of node 5 have the node in the cache, and
    removing one of them leaves it there. *)
Lemma cache_tracks_storage_witness :
  reachable w3cHost threeClicks
  /\ is_Some (Event.storage threeClicks !! 5%nat)
  /\ exists st',
       Event.remove 1 w3cHost threeClicks 5%nat (Some "click") (Some 7%nat)
       = Some (st', Ret tt)
       /\ Event.eventCache st' = [5%nat].
Proof.
  pose proof (cache_tracks_storage w3cHost threeClicks threeClicks_reachable)
    as (_ & Hslots & Hremove).
  split; [exact threeClicks_reachable|]. split.
  - apply (proj1 (Hslots 5%nat)). exact (list_elem_of_here 5%nat []).
  - eexists. split; [reflexivity|].
    exact (proj1 (Hremove 1%nat 5%nat (Some "click") (Some 7%nat) _ _ eq_refl)).
Defined.

(** The three click handlers have one listener each. *)
Lemma listeners_match_handlers_witness :
  reachable w3cHost threeClicks
  /\ NoDup (Event.listeners threeClicks)
  /\ length (Event.listeners threeClicks) = 3%nat.
Proof.
  split; [exact threeClicks_reachable|]. split; [|reflexivity].
  exact (proj1 (listeners_match_handlers w3cHost threeClicks threeClicks_reachable)).
Defined.

(** With three click handlers stored for node 5, [remove(5, "toString")]
    throws, and so does [add(5, "toString", 7)]; for a node without storage
    slot [remove] returns. *)
Example remove_inherited_name_throws :
  Event.remove 1 w3cHost threeClicks 5%nat (Some "toString") None
  = Some (threeClicks, Throw "TypeError")
  /\ Event.add w3cHost threeClicks (Event.ByRef (Some 5%nat)) "toString" 7%nat
     = (threeClicks, Throw "TypeError")
  /\ Event.remove 1 w3cHost threeClicks 4%nat (Some "toString") None
     = Some (threeClicks, Ret tt).
Proof. repeat split. Qed.

(** Clearing the cache of [oneCustom] leaves node 5 in it. *)
Lemma destroyCache_keeps_cache_witness :
  destroyCache 3 w3cHost oneCustom = Some (oneCustomRemoved, Ret tt)
  /\ Event.eventCache oneCustomRemoved = [5%nat].
Proof.
  split; [reflexivity|].
  exact (proj1 (destroyCache_keeps_cache w3cHost 3 oneCustom oneCustomRemoved (Ret tt)
                  eq_refl)).
Defined.

(** Of the click handlers 7, 8 and 9 of node 5, [remove(5, "click")] leaves
    the second. *)
Lemma remove_name_native_witness :
  exists st',
    Event.remove 2 w3cHost threeClicks 5%nat (Some "click") None = Some (st', Ret tt)
    /\ Event.callback <$> Event.handlersOf st' 5%nat "click" = [Some 8%nat].
Proof.
  assert (Hne : "click" <> "") by discriminate.
  destruct (remove_name_native w3cHost 0 threeClicks 5%nat "click"
              threeClicks_reachable Hne eq_refl eq_refl) as (st' & Hrem & Hh & _).
  exists st'. split; [exact Hrem|]. rewrite Hh. reflexivity.
Defined.

(** And so does [remove(5)]. *)
Lemma remove_element_native_witness :
  exists st',
    Event.remove 3 w3cHost threeClicks 5%nat None None = Some (st', Ret tt)
    /\ Event.callback <$> Event.handlersOf st' 5%nat "click" = [Some 8%nat].
Proof.
  assert (Hnames : forall name,
             name ∈ fst <$> Event.modelOf threeClicks 5%nat ->
             name <> "" /\ hasColon name = false).
  { intros name Hin. change (name ∈ ["click"]) in Hin.
    apply list_elem_of_singleton in Hin as ->. split; [discriminate|reflexivity]. }
  destruct (remove_element_native w3cHost 0 threeClicks 5%nat
              threeClicks_reachable Hnames) as (st' & Hrem & Hh & _).
  exists st'. split; [exact Hrem|]. rewrite Hh. reflexivity.
Defined.

(** After [remove(5, "login:request", 7)], [remove(5, "login:request")]
    does not return, at any depth. *)
Lemma remove_name_never_returns_witness :
  Event.remove 1000 w3cHost oneCustomRemoved 5%nat (Some "login:request") None = None.
Proof.
  assert (Hne : "login:request" <> "") by discriminate.
  exact (remove_name_never_returns w3cHost oneCustomRemoved 5%nat "login:request" 0%nat
           {| Event.wrapper := loginWrapper; Event.callback := None |}
           Hne eq_refl eq_refl eq_refl 1000%nat).
Defined.

(** Adding a click handler to [oneCustom] and removing it gives the host
    back its one listener. *)
Lemma add_remove_restores_witness :
  Event.add w3cHost oneCustom (Event.ByRef (Some 5%nat)) "click" 8%nat
  = (oneCustomClick, Ret 5%nat)
  /\ exists st2,
       Event.remove 1 w3cHost oneCustomClick 5%nat (Some "click") (Some 8%nat)
       = Some (st2, Ret tt)
       /\ Event.listeners st2 = Event.listeners oneCustom.
Proof.
  split; [reflexivity|].
  assert (Hne : "click" <> "") by discriminate.
  assert (Hfresh : forall hd,
             hd ∈ Event.handlersOf oneCustom 5%nat "click" ->
             Event.callback hd <> Some 8%nat).
  { intros hd Hin. exfalso. exact (not_elem_of_nil hd Hin). }
  destruct (add_remove_restores w3cHost 0 oneCustom (Event.ByRef (Some 5%nat)) "click"
              8%nat oneCustomClick 5%nat oneCustom_reachable Hne Hfresh eq_refl)
    as (st2 & Hrem & Hl & _).
  exists st2. split; [exact Hrem | exact Hl].
Defined.

(** The click handler added to [oneCustom] is called after the handlers
    already there. *)
Lemma add_calls_last_witness :
  exists more,
    Event.deliver w3cHost oneCustomClick 5%nat "click"
      (sampleEvent "click" (Some 5%nat) (Some 5%nat) Undefined Undefined)
    = (Event.deliver w3cHost oneCustom 5%nat "click"
         (sampleEvent "click" (Some 5%nat) (Some 5%nat) Undefined Undefined)
       ++ more)%list
    /\ forall c, c ∈ more -> Event.callee c = 8%nat /\ Event.this c = 5%nat.
Proof.
  exact (add_calls_last w3cHost oneCustom (Event.ByRef (Some 5%nat)) "click" 8%nat
           oneCustomClick 5%nat 5%nat "click"
           (sampleEvent "click" (Some 5%nat) (Some 5%nat) Undefined Undefined)
           oneCustom_reachable eq_refl).
Defined.

(** The call [fire(5, "login:request", {username: "hsimpson"})] makes on
    [oneCustom] hands the callback the model. *)
Lemma fire_calls_witness :
  Event.model (Event.normalize w3cHost loginRequest 5%nat)
  = Some [("username", "hsimpson")].
Proof.
  exact (proj1 (fire_calls w3cHost oneCustom 5%nat "login:request"
                  (Some [("username", "hsimpson")]) None
                  {| Event.caller := loginWrapper; Event.callee := 7%nat;
                     Event.this := 5%nat;
                     Event.argument := Event.normalize w3cHost loginRequest 5%nat |}
                  (list_elem_of_here _ _))).
Defined.

(** On the legacy host, whose root element has a client offset of 2, a
    click at client position (40, 40) has page coordinates (38, 38). *)
Lemma normalize_page_witness :
  Event.pageX (Event.normalize legacyHost
                 (sampleEvent "click" (Some 5%nat) None (Num 40) Undefined) 5%nat)
  = Num 38
  /\ Event.pageY (Event.normalize legacyHost
                    (sampleEvent "click" (Some 5%nat) None (Num 40) Undefined) 5%nat)
     = Num 38.
Proof.
  exact (proj2 (normalize_page legacyHost
                  (sampleEvent "click" (Some 5%nat) None (Num 40) Undefined) 5%nat
                  eq_refl)
           40 40 0 0 eq_refl eq_refl eq_refl eq_refl).
Defined.

(** On the legacy host a click in the text of the anchor, handled on the
    list, resolves to the anchor. *)
Lemma element_of_view_witness :
  Event.element legacyHost
    (Event.normalize legacyHost
       (sampleEvent "click" (Some 3%nat) None Undefined Undefined) 5%nat)
  = Ret (Some 4%nat).
Proof.
  assert (Hno : ~ attachmentEvent "click" (page true 5%nat)).
  { intros [Hx | [Hx | (_ & Hx & _)]]; discriminate Hx. }
  exact (proj2 (element_of_view legacyHost clickWrapper
                  (sampleEvent "click" (Some 3%nat) None Undefined Undefined)
                  {| Event.caller := clickWrapper; Event.callee := 7%nat;
                     Event.this := 5%nat;
                     Event.argument :=
                       Event.normalize legacyHost
                         (sampleEvent "click" (Some 3%nat) None Undefined Undefined)
                         5%nat |}
                  eq_refl eq_refl)
           (or_intror Hno)).
Defined.
